(** * Quantum-Wormhole-Circuit-Simulator: a shallow embedding

    The TypeScript sources embedded here are
    - [src/components/QuantumWormholeSimulator.tsx]: the classes [Qubit],
      [QuantumCircuit], [QuantumLaminarFlow], [MasaInformativaLayer],
      [QuantumStreamline] and the seed handlers [handleGenerateSeed] /
      [handleLoadSeed];
    - [src/services/wormhole.ts]: [QuantumWormhole],
      [createWormholeFragmentationSystem], [reconstructWithWormholeGeometry];
    - [src/constants.ts]: [PHYSICAL_CONSTANTS], [WORMHOLE_CONFIG].

    Conventions of the embedding.
    - A JavaScript [number] that carries a physical quantity is a real number
      of [R]: IEEE-754 rounding, infinities and NaN are idealised away.  The
      module [Binary64] re-runs the few purely arithmetic formulas on the
      primitive binary64 floats where the rounded result itself matters.
    - A [number] used as an array index or a counter is a [nat].
    - Objects are records with value semantics.  The only arrays the code
      mutates in place are [entangledWith], [appliedGates],
      [measurementHistory] and the streamline coordinates, none of which is
      shared between two owners; a qubit's [state] array is always replaced,
      never written into.
    - [Math.random()] is an oracle [random : nat -> R] giving the successive
      samples; code that draws samples lives in the state monad [Rand] whose
      state is the number of samples drawn so far.  [Date.now()] is an
      explicit extra argument. *)

From Stdlib Require Import Reals Lra Lia ZArith List String Ascii DecimalString.
From Stdlib Require PrimFloat.
From stdpp Require Import base list relations.

Local Open Scope R_scope.
Local Open Scope string_scope.

(** ** Small JavaScript helpers *)

(** [`${n}`] for a non-negative integer [n]. *)
Definition string_of_nat (n : nat) : string :=
  NilEmpty.string_of_uint (Nat.to_uint n).

(** [x < y] and [x > y] on numbers, as booleans. *)
Definition Rltb (x y : R) : bool := if Rlt_dec x y then true else false.
Definition Rgtb (x y : R) : bool := if Rgt_dec x y then true else false.

(** [Math.max] and [Math.min] are [Rmax] and [Rmin]; [Math.abs] is [Rabs];
    [Math.floor] is [Rfloor] below. *)
Definition Rfloor (x : R) : Z := Int_part x.

(** [arr.reduce((a, b) => a + b, 0)]. *)
Definition Rsum (l : list R) : R := fold_left Rplus l 0.

(** ** The random-sample monad *)

Definition Rand (A : Type) : Type := nat -> A * nat.

Definition ret {A} (a : A) : Rand A := fun n => (a, n).

Definition bind {A B} (m : Rand A) (k : A -> Rand B) : Rand B :=
  fun n => let '(a, n') := m n in k a n'.

Notation "'let*' x ':=' m 'in' k" := (bind m (fun x => k))
  (at level 10, x name, m at level 100, k at level 200).

(** [arr.map(f)] where [f] draws samples, left to right. *)
Fixpoint mapR {A B} (f : A -> Rand B) (l : list A) : Rand (list B) :=
  match l with
  | [] => ret []
  | a :: l' => let* b := f a in let* bs := mapR f l' in ret (b :: bs)
  end.

(** * class Qubit *)

Module Qubit.

(** An entry of [entangledWith]: a plain index for a partner in the same
    circuit, a string id for a partner in the other circuit. *)
Inductive partner :=
| Index (j : nat)
| Id (s : string).

Record t := Build {
  id : string;
  state : R * R;
  phase : R;
  entangled : bool;
  entangledWith : list partner;
  appliedGates : list string
}.

Definition set_state (s : R * R) (q : t) : t :=
  Build (id q) s (phase q) (entangled q) (entangledWith q) (appliedGates q).
Definition set_phase (p : R) (q : t) : t :=
  Build (id q) (state q) p (entangled q) (entangledWith q) (appliedGates q).
Definition set_entangled (b : bool) (q : t) : t :=
  Build (id q) (state q) (phase q) b (entangledWith q) (appliedGates q).
Definition push_entangledWith (p : partner) (q : t) : t :=
  Build (id q) (state q) (phase q) (entangled q) (entangledWith q ++ [p])
        (appliedGates q).
Definition push_appliedGates (g : string) (q : t) : t :=
  Build (id q) (state q) (phase q) (entangled q) (entangledWith q)
        (appliedGates q ++ [g]).

(** [constructor(id, initialState = [1, 0])] *)
Definition new (i : string) : t := Build i (1, 0) 0 false [] [].

Definition hadamard (q : t) : t :=
  let '(a, b) := state q in
  let sqrt2 := sqrt 2 in
  push_appliedGates "H" (set_state ((a + b) / sqrt2, (a - b) / sqrt2) q).

Definition pauliX (q : t) : t :=
  push_appliedGates "X" (set_state (snd (state q), fst (state q)) q).

Definition pauliY (q : t) : t :=
  let '(a, b) := state q in
  push_appliedGates "Y" (set_state (- b, a) q).

Definition pauliZ (q : t) : t :=
  push_appliedGates "Z" (set_state (fst (state q), - snd (state q)) q).

Definition rotationX (theta : R) (q : t) : t :=
  let '(a, b) := state q in
  let cosHalf := cos (theta / 2) in
  let sinHalf := sin (theta / 2) in
  push_appliedGates "Rx"
    (set_state (a * cosHalf - b * sinHalf, a * sinHalf + b * cosHalf) q).

Definition rotationY (theta : R) (q : t) : t :=
  let '(a, b) := state q in
  let cosHalf := cos (theta / 2) in
  let sinHalf := sin (theta / 2) in
  push_appliedGates "Ry"
    (set_state (a * cosHalf - b * sinHalf, a * sinHalf + b * cosHalf) q).

Definition rotationZ (theta : R) (q : t) : t :=
  let '(a, b) := state q in
  let cosHalf := cos (theta / 2) in
  let sinHalf := sin (theta / 2) in
  let q1 := set_state (a * cosHalf, b * cosHalf + b * sinHalf * sin (PI / 2)) q in
  push_appliedGates "Rz" (set_phase (phase q1 + theta) q1).

Definition tGate (q : t) : t :=
  let ph := PI / 4 in
  let q1 := set_state (fst (state q),
                       snd (state q) * cos ph + snd (state q) * sin ph) q in
  push_appliedGates "T" (set_phase (phase q1 + ph) q1).

Definition getProbability1 (q : t) : R := Rabs (snd (state q)) ^ 2.

Definition getProbability0 (q : t) : R := Rabs (fst (state q)) ^ 2.

Definition reset (q : t) : t := Build (id q) (1, 0) 0 false [] [].

Section Measure.
Variable random : nat -> R.

Definition draw : Rand R := fun n => (random n, S n).

Definition measure (q : t) : Rand (nat * t) :=
  let prob0 := Rabs (fst (state q)) ^ 2 in
  let* r := draw in
  if Rltb r prob0 then ret (0%nat, set_state (1, 0) q)
  else ret (1%nat, set_state (0, 1) q).
End Measure.

End Qubit.

(** * The arithmetic of [Qubit] on binary64 floats

    [hadamard] and [getProbability1] use only [+], [-], [/], [Math.sqrt],
    [Math.abs] and [x ** 2] (which is [x * x]), all correctly rounded
    IEEE-754 operations, so their results on JavaScript numbers can be
    computed exactly. *)

Module Binary64.
Import PrimFloat.
Local Open Scope float_scope.

Definition hadamard (s : float * float) : float * float :=
  let '(a, b) := s in
  let sqrt2 := sqrt 2 in
  ((a + b) / sqrt2, (a - b) / sqrt2).

Definition getProbability1 (s : float * float) : float :=
  abs (snd s) * abs (snd s).

(** [qubits.reduce((prob, qubit) => prob * qubit.getProbability1(), 1)] *)
Definition getSystemProbability (qs : list (float * float)) : float :=
  fold_left (fun prob s => prob * getProbability1 s) qs 1.

(** The states of five qubits after [new Qubit(id).hadamard()]. *)
Definition hadamardOnly : list (float * float) :=
  map hadamard (List.repeat (1, 0) 5).
End Binary64.

(** * The gate selection ([initialGates], [SelectedGates]) *)

Module SelectedGates.
Record t := Build {
  hadamard : list bool;
  pauliX : list bool;
  pauliY : list bool;
  pauliZ : list bool;
  rotationX : list bool;
  rotationY : list bool;
  rotationZ : list bool;
  tGate : list bool;
  swap : list bool;   (* swapping 0-1, 1-2, 2-3, 3-4 *)
  ccnot : list bool   (* CCNOT(0,1,2), (1,2,3), (2,3,4) *)
}.

Definition initialGates : t :=
  let none5 := [false; false; false; false; false] in
  Build none5 none5 none5 none5 none5 none5 none5 none5
        [false; false; false; false] [false; false; false].
End SelectedGates.

(** [arr[i]] used as a condition: a missing entry is [undefined], falsy. *)
Definition truthy (arr : list bool) (i : nat) : bool := default false (arr !! i).

(** [arr.forEach((a, i) => body)] where the body updates a state [s];
    [forEach_from] starts counting at [i]. *)
Fixpoint forEach_from {A St : Type} (body : A -> nat -> St -> St)
    (i : nat) (arr : list A) (s : St) : St :=
  match arr with
  | [] => s
  | a :: arr' => forEach_from body (S i) arr' (body a i s)
  end.

Definition forEach {A St : Type} (body : A -> nat -> St -> St)
    (arr : list A) (s : St) : St :=
  forEach_from body 0 arr s.

(** * class QuantumCircuit *)

Module QuantumCircuit.

Record Measurement := BuildMeasurement {
  timestamp : Z;
  results : list nat;
  probabilities : list R
}.

Record t := Build {
  numQubits : nat;
  circuitId : string;
  qubits : list Qubit.t;
  gates : list unit;   (* [any[]], created empty and never written *)
  measurementHistory : list Measurement;
  selectedGates : option SelectedGates.t;
  interCircuitConnections : list (nat * nat)
}.

Definition set_qubits (qs : list Qubit.t) (c : t) : t :=
  Build (numQubits c) (circuitId c) qs (gates c) (measurementHistory c)
        (selectedGates c) (interCircuitConnections c).
Definition set_measurementHistory (h : list Measurement) (c : t) : t :=
  Build (numQubits c) (circuitId c) (qubits c) (gates c) h
        (selectedGates c) (interCircuitConnections c).
Definition set_interCircuitConnections (l : list (nat * nat)) (c : t) : t :=
  Build (numQubits c) (circuitId c) (qubits c) (gates c)
        (measurementHistory c) (selectedGates c) l.

(** [this.qubits[i].m()] for a method [m] that updates the qubit. *)
Definition on_qubit (i : nat) (m : Qubit.t -> Qubit.t) (c : t) : t :=
  set_qubits (alter m i (qubits c)) c.

Definition entangleQubits (i j : nat) (c : t) : t :=
  if (i <? numQubits c)%nat && (j <? numQubits c)%nat then
    let c := on_qubit i (Qubit.set_entangled true) c in
    let c := on_qubit j (Qubit.set_entangled true) c in
    let c := on_qubit i (Qubit.push_entangledWith (Qubit.Index j)) c in
    on_qubit j (Qubit.push_entangledWith (Qubit.Index i)) c
  else c.

Definition createIntraCircuitEntanglement (c : t) : t :=
  let entanglementPairs := [(0, 1); (2, 3); (1, 4)]%nat in
  forEach (fun '(i, j) _ c =>
             if (i <? numQubits c)%nat && (j <? numQubits c)%nat
             then entangleQubits i j c else c)
          entanglementPairs c.

(** The reads [this.qubits[i]] below are guarded by [i < this.numQubits];
    the constructor makes [qubits] of length [numQubits] and no method
    changes either, so the [None] branches stand for a TypeError that the
    class itself never raises. *)
Definition swap (i j : nat) (c : t) : t :=
  if (i <? numQubits c)%nat && (j <? numQubits c)%nat then
    match qubits c !! i, qubits c !! j with
    | Some qi, Some qj =>
        let tempState := Qubit.state qi in
        let c := on_qubit i (Qubit.set_state (Qubit.state qj)) c in
        let c := on_qubit j (Qubit.set_state tempState) c in
        let tempPhase := Qubit.phase qi in
        let c := on_qubit i (Qubit.set_phase (Qubit.phase qj)) c in
        on_qubit j (Qubit.set_phase tempPhase) c
    | _, _ => c
    end
  else c.

(** [tgt] is the source's parameter [t]. *)
Definition ccnot (c1 c2 tgt : nat) (c : t) : t :=
  if (c1 <? numQubits c)%nat && (c2 <? numQubits c)%nat
     && (tgt <? numQubits c)%nat then
    let c := entangleQubits c1 tgt c in
    let c := entangleQubits c2 tgt c in
    let c := entangleQubits c1 c2 c in
    match qubits c !! c1, qubits c !! c2 with
    | Some q1, Some q2 =>
        if Rgtb (Qubit.getProbability1 q1) 0.5
           && Rgtb (Qubit.getProbability1 q2) 0.5
        then on_qubit tgt Qubit.pauliX c
        else c
    | _, _ => c
    end
  else c.

(** The body of the first [forEach] of [setupCircuit]. *)
Definition applySelectedGates (g : SelectedGates.t) (i : nat)
    (qubit : Qubit.t) : Qubit.t :=
  let when (b : bool) (m : Qubit.t -> Qubit.t) (q : Qubit.t) :=
    if b then m q else q in
  let qubit := when (truthy (SelectedGates.hadamard g) i) Qubit.hadamard qubit in
  let qubit := when (truthy (SelectedGates.pauliX g) i) Qubit.pauliX qubit in
  let qubit := when (truthy (SelectedGates.pauliY g) i) Qubit.pauliY qubit in
  let qubit := when (truthy (SelectedGates.pauliZ g) i) Qubit.pauliZ qubit in
  let qubit := when (truthy (SelectedGates.rotationX g) i)
                    (Qubit.rotationX (PI / 4)) qubit in
  let qubit := when (truthy (SelectedGates.rotationY g) i)
                    (Qubit.rotationY (PI / 4)) qubit in
  let qubit := when (truthy (SelectedGates.rotationZ g) i)
                    (Qubit.rotationZ (PI / 4)) qubit in
  when (truthy (SelectedGates.tGate g) i) Qubit.tGate qubit.

(** [if (this.selectedGates.swap)] and [if (this.selectedGates.ccnot)] test
    an array, which is truthy even when empty. *)
Definition setupCircuit (c : t) : t :=
  match selectedGates c with
  | None => c
  | Some g =>
      let c := set_qubits (imap (applySelectedGates g) (qubits c)) c in
      let c := createIntraCircuitEntanglement c in
      let c := forEach (fun (isSwap : bool) i c =>
                          if isSwap then swap i (i + 1) c else c)
                       (SelectedGates.swap g) c in
      forEach (fun (isCCNOT : bool) i c =>
                 if isCCNOT then ccnot i (i + 1) (i + 2) c else c)
              (SelectedGates.ccnot g) c
  end.

(** [constructor(numQubits = 5, circuitId = 'A', selectedGates = null)] *)
Definition new (numQubits : nat) (circuitId : string)
    (selectedGates : option SelectedGates.t) : t :=
  let qubits :=
    map (fun i => Qubit.new (circuitId ++ string_of_nat i)) (seq 0 numQubits) in
  setupCircuit (Build numQubits circuitId qubits [] [] selectedGates []).

(** The body of the [forEach] of [createInterCircuitEntanglement]: one
    connection, acting on the pair (this circuit, other circuit). *)
Definition connect (conn : nat * nat) (cs : t * t) : t * t :=
  let '(this, otherCircuit) := cs in
  let '(thisQubit, otherQubit) := conn in
  if (thisQubit <? numQubits this)%nat
     && (otherQubit <? numQubits otherCircuit)%nat then
    match qubits this !! thisQubit, qubits otherCircuit !! otherQubit with
    | Some qa, Some qb =>
        let thisState := Qubit.state qa in
        let otherState := Qubit.state qb in
        let avgState := ((fst thisState + fst otherState) / sqrt 2,
                         (snd thisState + snd otherState) / sqrt 2) in
        let this := on_qubit thisQubit (Qubit.set_state avgState) this in
        let otherCircuit :=
          on_qubit otherQubit (Qubit.set_state avgState) otherCircuit in
        let this := on_qubit thisQubit (Qubit.set_entangled true) this in
        let otherCircuit :=
          on_qubit otherQubit (Qubit.set_entangled true) otherCircuit in
        let this :=
          on_qubit thisQubit
            (Qubit.push_entangledWith
               (Qubit.Id (circuitId otherCircuit ++ string_of_nat otherQubit)))
            this in
        let otherCircuit :=
          on_qubit otherQubit
            (Qubit.push_entangledWith
               (Qubit.Id (circuitId this ++ string_of_nat thisQubit)))
            otherCircuit in
        (this, otherCircuit)
    | _, _ => cs
    end
  else cs.

(** [this] and [otherCircuit] are two distinct objects. *)
Definition createInterCircuitEntanglement (this otherCircuit : t)
    (connections : list (nat * nat)) : t * t :=
  let this := set_interCircuitConnections connections this in
  forEach (fun conn _ cs => connect conn cs) connections (this, otherCircuit).

Definition evolve (dt : R) (c : t) : t :=
  set_qubits
    (imap (fun i qubit =>
             let omega := 0.1 + INR i * 0.03 in
             let qubit := Qubit.set_phase (Qubit.phase qubit + omega * dt) qubit in
             let angle := 0.008 * sin (Qubit.phase qubit) in
             Qubit.rotationZ angle qubit)
          (qubits c)) c.

Record ProbData := BuildProbData {
  prob0 : R;
  prob1 : R;
  phase : R;
  entangled : bool;
  entangledWith : list Qubit.partner;
  appliedGates : list string;
  id : string
}.

Definition getCurrentProbabilities (c : t) : list ProbData :=
  imap (fun idx qubit =>
          BuildProbData (Qubit.getProbability0 qubit)
                        (Qubit.getProbability1 qubit)
                        (Qubit.phase qubit) (Qubit.entangled qubit)
                        (Qubit.entangledWith qubit) (Qubit.appliedGates qubit)
                        (circuitId c ++ string_of_nat idx))
       (qubits c).

Definition getSystemProbability (c : t) : R :=
  fold_left (fun prob qubit => prob * Qubit.getProbability1 qubit) (qubits c) 1.

Definition resetCircuit (c : t) : t :=
  let c := set_qubits (map Qubit.reset (qubits c)) c in
  let c := set_measurementHistory [] c in
  let c := set_interCircuitConnections [] c in
  setupCircuit c.

Section MeasureAll.
Variable random : nat -> R.

(** [now] is the value of [Date.now()]. *)
Definition measureAll (now : Z) (c : t) : Rand (list nat * t) :=
  let* measured := mapR (Qubit.measure random) (qubits c) in
  let results := map fst measured in
  let c := set_qubits (map snd measured) c in
  let c := set_measurementHistory
             (measurementHistory c ++
              [BuildMeasurement now results
                 (map Qubit.getProbability1 (qubits c))]) c in
  let c := if (100 <? length (measurementHistory c))%nat
           then set_measurementHistory (tail (measurementHistory c)) c
           else c in
  ret (results, c).
End MeasureAll.

(** One call of a method of the class that changes the circuit (the other
    methods only read it), on the circuit itself or, for
    [createInterCircuitEntanglement], on the circuit in either role. *)
Inductive step : t -> t -> Prop :=
| step_evolve c dt :
    step c (evolve dt c)
| step_measureAll c random now n :
    step c (snd (fst (measureAll random now c n)))
| step_resetCircuit c :
    step c (resetCircuit c)
| step_entangle_this c otherCircuit connections :
    step c (fst (createInterCircuitEntanglement c otherCircuit connections))
| step_entangle_other this c connections :
    step c (snd (createInterCircuitEntanglement this c connections))
| step_setupCircuit c :
    step c (setupCircuit c)
| step_ccnot c c1 c2 tgt :
    step c (ccnot c1 c2 tgt c)
| step_swap c i j :
    step c (swap i j c)
| step_createIntraCircuitEntanglement c :
    step c (createIntraCircuitEntanglement c)
| step_entangleQubits c i j :
    step c (entangleQubits i j c).

(** The circuits that a sequence of calls makes of [c0]. *)
Definition reachable (c0 c : t) : Prop := rtc step c0 c.

End QuantumCircuit.

(** * class MasaInformativaLayer, class QuantumStreamline *)

Module MasaInformativaLayer.
Record t := Build {
  depth : R;
  density : list (list R);
  velocityField : list (list (R * R));
  entanglementMatrix : list (list R)
}.

Definition set_density (d : list (list R)) (l : t) : t :=
  Build (depth l) d (velocityField l) (entanglementMatrix l).
End MasaInformativaLayer.

Module QuantumStreamline.
Record t := Build {
  coordinates : list (R * R);
  probabilityDensity : list R;
  phase : list R;
  coherenceLength : R
}.
End QuantumStreamline.

(** [arr.map((a, idx) => f)] where [f] draws samples. *)
Fixpoint imapR_from {A B} (f : nat -> A -> Rand B) (i : nat) (l : list A)
    : Rand (list B) :=
  match l with
  | [] => ret []
  | a :: l' =>
      let* b := f i a in let* bs := imapR_from f (S i) l' in ret (b :: bs)
  end.

Definition imapR {A B} (f : nat -> A -> Rand B) (l : list A) : Rand (list B) :=
  imapR_from f 0 l.

(** * class QuantumLaminarFlow *)

Module QuantumLaminarFlow.

(** Fixed parameters of the component. *)
Definition GRID_SIZE : nat := 32.
Definition NUM_LAYERS : nat := 5.
Definition VISCOSITY : R := 0.5.
Definition ACTIVE_LAYER : nat := 4.

(** The flow keeps references to the two circuits; here it holds their
    current values, and whoever updates a circuit updates it in the flow. *)
Record t := Build {
  gridSize : nat * nat;
  domainSize : R * R;
  nx : nat;
  ny : nat;
  Lx : R;
  Ly : R;
  numLayers : nat;
  viscosityParam : R;
  quantumCircuitA : QuantumCircuit.t;
  quantumCircuitB : option QuantumCircuit.t;
  dualCircuitMode : bool;
  x : list R;
  y : list R;
  hbar : R;
  time : R;
  masaInformativaLayers : list MasaInformativaLayer.t;
  streamlines : list QuantumStreamline.t;
  informationalReynolds : R
}.

Definition set_time (v : R) (f : t) : t :=
  Build (gridSize f) (domainSize f) (nx f) (ny f) (Lx f) (Ly f) (numLayers f)
    (viscosityParam f) (quantumCircuitA f) (quantumCircuitB f)
    (dualCircuitMode f) (x f) (y f) (hbar f) v (masaInformativaLayers f)
    (streamlines f) (informationalReynolds f).
Definition set_quantumCircuitA (v : QuantumCircuit.t) (f : t) : t :=
  Build (gridSize f) (domainSize f) (nx f) (ny f) (Lx f) (Ly f) (numLayers f)
    (viscosityParam f) v (quantumCircuitB f)
    (dualCircuitMode f) (x f) (y f) (hbar f) (time f) (masaInformativaLayers f)
    (streamlines f) (informationalReynolds f).
Definition set_quantumCircuitB (v : option QuantumCircuit.t) (f : t) : t :=
  Build (gridSize f) (domainSize f) (nx f) (ny f) (Lx f) (Ly f) (numLayers f)
    (viscosityParam f) (quantumCircuitA f) v
    (dualCircuitMode f) (x f) (y f) (hbar f) (time f) (masaInformativaLayers f)
    (streamlines f) (informationalReynolds f).
Definition set_masaInformativaLayers (v : list MasaInformativaLayer.t)
    (f : t) : t :=
  Build (gridSize f) (domainSize f) (nx f) (ny f) (Lx f) (Ly f) (numLayers f)
    (viscosityParam f) (quantumCircuitA f) (quantumCircuitB f)
    (dualCircuitMode f) (x f) (y f) (hbar f) (time f) v
    (streamlines f) (informationalReynolds f).
Definition set_streamlines (v : list QuantumStreamline.t) (f : t) : t :=
  Build (gridSize f) (domainSize f) (nx f) (ny f) (Lx f) (Ly f) (numLayers f)
    (viscosityParam f) (quantumCircuitA f) (quantumCircuitB f)
    (dualCircuitMode f) (x f) (y f) (hbar f) (time f) (masaInformativaLayers f)
    v (informationalReynolds f).
Definition set_informationalReynolds (v : R) (f : t) : t :=
  Build (gridSize f) (domainSize f) (nx f) (ny f) (Lx f) (Ly f) (numLayers f)
    (viscosityParam f) (quantumCircuitA f) (quantumCircuitB f)
    (dualCircuitMode f) (x f) (y f) (hbar f) (time f) (masaInformativaLayers f)
    (streamlines f) v.

(** [this.quantumCircuitB && this.dualCircuitMode], as the circuit to use. *)
Definition circuitB_if_dual (this : t) : option QuantumCircuit.t :=
  if dualCircuitMode this then quantumCircuitB this else None.

(** [probs[qubitIdx] ? probs[qubitIdx].prob1 : 0.5] *)
Definition prob1_or_half (probs : list QuantumCircuit.ProbData)
    (qubitIdx : nat) : R :=
  match probs !! qubitIdx with
  | Some p => QuantumCircuit.prob1 p
  | None => 0.5
  end.

(** [probs[qubitIdx]?.phase || 0] *)
Definition phase_or_0 (probs : list QuantumCircuit.ProbData)
    (qubitIdx : nat) : R :=
  match probs !! qubitIdx with
  | Some p => QuantumCircuit.phase p
  | None => 0
  end.

(** The sum of Gaussian blobs at grid point [(x, y)]: the two loops over
    [qubitIdx] that [initializeInfoLayersWithQuantum] runs with its
    [layerIdx] and [updateMasaInformativaFromQuantum] repeats verbatim with
    [ACTIVE_LAYER]. *)
Definition blobs (this : t) (layerIdx : nat) (x y : R) : R :=
  let masa := 0 in
  let masa :=
    let probsA := QuantumCircuit.getCurrentProbabilities (quantumCircuitA this) in
    fold_left (fun masa qubitIdx =>
      let centerX := Lx this * (0.15 + 0.12 * INR qubitIdx) in
      let centerY := if dualCircuitMode this then Ly this * 0.25
                     else Ly this * 0.5 in
      let sigma := 0.8 + INR layerIdx * 0.2 in
      let qubitProb := prob1_or_half probsA qubitIdx in
      let gaussian :=
        exp (- ((x - centerX) ^ 2 + (y - centerY) ^ 2) / (2 * sigma ^ 2)) in
      masa + gaussian * qubitProb * (1 + 0.3 * sin (phase_or_0 probsA qubitIdx)))
      (seq 0 5) masa in
  match circuitB_if_dual this with
  | Some circuitB =>
      let probsB := QuantumCircuit.getCurrentProbabilities circuitB in
      fold_left (fun masa qubitIdx =>
        let centerX := Lx this * (0.15 + 0.12 * INR qubitIdx) in
        let centerY := Ly this * 0.75 in
        let sigma := 0.8 + INR layerIdx * 0.2 in
        let qubitProb := prob1_or_half probsB qubitIdx in
        let gaussian :=
          exp (- ((x - centerX) ^ 2 + (y - centerY) ^ 2) / (2 * sigma ^ 2)) in
        masa + gaussian * qubitProb
               * (1 + 0.3 * sin (phase_or_0 probsB qubitIdx)) * 0.8)
        (seq 0 5) masa
  | None => masa
  end.

(** The velocity at grid point [(x, y)] in [initializeInfoLayersWithQuantum]. *)
Definition velocityAt (this : t) (x y : R) : R * R :=
  let v := (0, 0) in
  let v :=
    forEach (fun probData _ '(vx, vy) =>
      if QuantumCircuit.entangled probData then
        let entanglementStrength :=
          INR (length (QuantumCircuit.entangledWith probData)) in
        let phase := QuantumCircuit.phase probData in
        (vx + entanglementStrength * sin (phase + x * 0.3)
              * QuantumCircuit.prob1 probData,
         vy + entanglementStrength * cos (phase + y * 0.3)
              * QuantumCircuit.prob0 probData)
      else (vx, vy))
      (QuantumCircuit.getCurrentProbabilities (quantumCircuitA this)) v in
  let v :=
    match circuitB_if_dual this with
    | Some circuitB =>
        forEach (fun probData _ '(vx, vy) =>
          if QuantumCircuit.entangled probData then
            let entanglementStrength :=
              INR (length (QuantumCircuit.entangledWith probData)) in
            let phase := QuantumCircuit.phase probData in
            (vx + entanglementStrength * cos (phase + x * 0.4)
                  * QuantumCircuit.prob1 probData * 0.7,
             vy + entanglementStrength * sin (phase + y * 0.4)
                  * QuantumCircuit.prob0 probData * -0.7)
          else (vx, vy))
          (QuantumCircuit.getCurrentProbabilities circuitB) v
    | None => v
    end in
  let '(vx, vy) := v in
  let dx := x - Lx this / 2 in
  let dy := y - Ly this / 2 in
  let r := sqrt (dx * dx + dy * dy) + 0.1 in
  (vx + - dy / r * exp (- r / 4) * 0.4, vy + dx / r * exp (- r / 4) * 0.4).

(** [entangledWith.includes(j)] for a number [j]. *)
Definition includes_index (l : list Qubit.partner) (j : nat) : bool :=
  existsb (fun p => match p with
                    | Qubit.Index k => (k =? j)%nat
                    | Qubit.Id _ => false
                    end) l.

Definition generateQuantumEntanglementMatrix (this : t) (depth : R)
    : list (list R) :=
  let size := if dualCircuitMode this then 10%nat else 5%nat in
  map (fun i => map (fun j =>
    let entanglement := 0 in
    let entanglement :=
      if (i <? 5)%nat && (j <? 5)%nat then
        let probsA :=
          QuantumCircuit.getCurrentProbabilities (quantumCircuitA this) in
        match probsA !! i, probsA !! j with
        | Some pi, Some pj =>
            if includes_index (QuantumCircuit.entangledWith pi) j
            then sqrt (QuantumCircuit.prob1 pi * QuantumCircuit.prob1 pj) * 2
            else entanglement
        | _, _ => entanglement
        end
      else entanglement in
    let entanglement :=
      match circuitB_if_dual this with
      | Some circuitB =>
          if (5 <=? i)%nat && (5 <=? j)%nat then
            let probsB := QuantumCircuit.getCurrentProbabilities circuitB in
            let idxI := (i - 5)%nat in
            let idxJ := (j - 5)%nat in
            match probsB !! idxI, probsB !! idxJ with
            | Some pi, Some pj =>
                if includes_index (QuantumCircuit.entangledWith pi) idxJ
                then sqrt (QuantumCircuit.prob1 pi * QuantumCircuit.prob1 pj) * 2
                else entanglement
            | _, _ => entanglement
            end
          else entanglement
      | None => entanglement
      end in
    let entanglement :=
      match quantumCircuitB this with
      | Some _ =>
          if ((i <? 5)%nat && (5 <=? j)%nat) || ((5 <=? i)%nat && (j <? 5)%nat)
          then
            let connections :=
              QuantumCircuit.interCircuitConnections (quantumCircuitA this) in
            if existsb (fun '(a, b) =>
                 ((i =? a)%nat && (Z.of_nat j - 5 =? Z.of_nat b)%Z)
                 || ((Z.of_nat i - 5 =? Z.of_nat b)%Z && (j =? a)%nat))
                 connections
            then 1.5 else entanglement
          else entanglement
      | None => entanglement
      end in
    entanglement * exp (- depth / 12.0)) (seq 0 size)) (seq 0 size).

(** [streamlineId >= (dualCircuitMode ? 10 : 15)], then the choice
    [isCircuitB ? this.quantumCircuitB : this.quantumCircuitA]. *)
Definition densityCircuit (this : t) (streamlineId : nat)
    : option QuantumCircuit.t :=
  let isCircuitB :=
    dualCircuitMode this
    && ((if dualCircuitMode this then 10 else 15) <=? streamlineId)%nat in
  if isCircuitB then quantumCircuitB this else Some (quantumCircuitA this).

Definition computeQuantumProbabilityDensity (this : t)
    (coords : list (R * R)) (streamlineId : nat) : list R :=
  if (length coords =? 0)%nat then [] else
  let probDensity :=
    imap (fun idx (coord : R * R) =>
      let quantumProb := 0.5 in
      let quantumProb :=
        match densityCircuit this streamlineId with
        | Some circuit =>
            let probs := QuantumCircuit.getCurrentProbabilities circuit in
            let qubitIdx := (streamlineId mod 5)%nat in
            match probs !! qubitIdx with
            | Some p =>
                let quantumProb := QuantumCircuit.prob1 p in
                let t := INR idx / INR (length coords) in
                quantumProb
                * (1 + 0.4 * sin (4 * PI * t + QuantumCircuit.phase p))
            | None => quantumProb
            end
        | None => quantumProb
        end in
      Rmax 0.1 quantumProb) coords in
  let sum := Rsum probDensity in
  if Rgtb sum 0 then map (fun p => p / sum) probDensity else probDensity.

(** [dx], [dy] and the length of the segment from [p] to [q]. *)
Definition segment (p q : R * R) : R :=
  let dx := fst q - fst p in
  let dy := snd q - snd p in
  sqrt (dx * dx + dy * dy).

(** The loop [for (let i = 1; i < coords.length; i++)] over consecutive
    points, [prev] being [coords[i-1]]. *)
Fixpoint distances_from (prev : R * R) (rest : list (R * R))
    (distances : list R) : list R :=
  match rest with
  | [] => distances
  | p :: rest' =>
      distances_from p rest'
        (distances ++ [List.last distances 0 + segment prev p])
  end.

(** [isCircuitB = dualCircuitMode && streamlineId >= 10] *)
Definition phaseCircuit (this : t) (streamlineId : nat)
    : option QuantumCircuit.t :=
  if dualCircuitMode this && (10 <=? streamlineId)%nat
  then quantumCircuitB this else Some (quantumCircuitA this).

Definition computeQuantumPhase (this : t) (coords : list (R * R))
    (streamlineId : nat) : list R :=
  if (length coords <? 2)%nat then repeat 0 (length coords) else
  let distances :=
    match coords with
    | [] => [0]
    | p :: rest => distances_from p rest [0]
    end in
  let quantumPhase :=
    2 * PI * INR streamlineId / (if dualCircuitMode this then 20 else 15) in
  let quantumPhase :=
    match phaseCircuit this streamlineId with
    | Some circuit =>
        let probs := QuantumCircuit.getCurrentProbabilities circuit in
        let qubitIdx := (streamlineId mod 5)%nat in
        match probs !! qubitIdx with
        | Some p => quantumPhase + QuantumCircuit.phase p
        | None => quantumPhase
        end
    | None => quantumPhase
    end in
  map (fun d => d * 2.5 + quantumPhase) distances.

Fixpoint totalLength_from (prev : R * R) (rest : list (R * R))
    (totalLength : R) : R :=
  match rest with
  | [] => totalLength
  | p :: rest' =>
      totalLength_from p rest'
        (totalLength
         + sqrt ((fst p - fst prev) ^ 2 + (snd p - snd prev) ^ 2))
  end.

Definition computeCoherenceLength (this : t) (coords : list (R * R)) : R :=
  if (length coords <? 2)%nat then 1.0 else
  let totalLength :=
    match coords with
    | [] => 0
    | p :: rest => totalLength_from p rest 0
    end in
  let quantumCoherence := 1.0 in
  let quantumCoherence :=
    quantumCoherence
    + QuantumCircuit.getSystemProbability (quantumCircuitA this) * 1.5 in
  let quantumCoherence :=
    match circuitB_if_dual this with
    | Some circuitB =>
        quantumCoherence + QuantumCircuit.getSystemProbability circuitB * 1.2
    | None => quantumCoherence
    end in
  totalLength * exp (- totalLength / 9.0) * quantumCoherence + 0.5.

Definition computeInformationalReynolds (this : t) : R :=
  let characteristicVelocity := 1.0 in
  let characteristicLength := Rmin (Lx this) (Ly this) in
  let quantumFactor := 1.0 in
  let quantumFactor :=
    let avgProbA :=
      fold_left (fun sum p => sum + QuantumCircuit.prob1 p)
        (QuantumCircuit.getCurrentProbabilities (quantumCircuitA this)) 0 / 5 in
    quantumFactor + avgProbA in
  let quantumFactor :=
    match circuitB_if_dual this with
    | Some circuitB =>
        let avgProbB :=
          fold_left (fun sum p => sum + QuantumCircuit.prob1 p)
            (QuantumCircuit.getCurrentProbabilities circuitB) 0 / 5 in
        quantumFactor + avgProbB * 0.8
    | None => quantumFactor
    end in
  (characteristicVelocity * characteristicLength * quantumFactor)
  / viscosityParam this.

(** [Math.max(0, Math.min(Math.floor(v), n - 2))] as an array index. *)
Definition cellIndex (v : R) (n : nat) : nat :=
  Z.to_nat (Z.max 0 (Z.min (Rfloor v) (Z.of_nat n - 2))).

(** [masaInformativaLayers] has [NUM_LAYERS] entries once set, so the read
    of entry [ACTIVE_LAYER] succeeds whenever the array is not empty.
    The two quotients stand for the JavaScript ones only when [Lx] and [Ly]
    are not 0: a division by 0 gives [Infinity] or [NaN] there, which [R]
    does not have.  What is proved of the cell that is read has [Lx <> 0]
    and [Ly <> 0] as hypotheses. *)
Definition interpolateVelocity (this : t) (point : R * R) : R * R :=
  if (length (masaInformativaLayers this) =? 0)%nat then (0, 0) else
  match masaInformativaLayers this !! ACTIVE_LAYER with
  | None => (0, 0)
  | Some layer =>
      let xi := fst point * (INR (nx this) - 1) / Lx this in
      let yi := snd point * (INR (ny this) - 1) / Ly this in
      let xIdx := cellIndex xi (nx this) in
      let yIdx := cellIndex yi (ny this) in
      match MasaInformativaLayer.velocityField layer !! yIdx with
      | Some row => match row !! xIdx with
                    | Some v => v
                    | None => (0, 0)
                    end
      | None => (0, 0)
      end
  end.

(** The [for] loop of [integrateStreamline], [steps] iterations left. *)
Fixpoint integrate_loop (this : t) (steps : nat) (currentPoint : R * R)
    (coords : list (R * R)) : list (R * R) :=
  match steps with
  | O => coords
  | S steps' =>
      let dt := 0.025 in
      let velocity := interpolateVelocity this currentPoint in
      let currentPoint := (fst currentPoint + fst velocity * dt,
                           snd currentPoint + snd velocity * dt) in
      if Rltb (fst currentPoint) 0.1 || Rgtb (fst currentPoint) (Lx this - 0.1)
         || Rltb (snd currentPoint) 0.1
         || Rgtb (snd currentPoint) (Ly this - 0.1)
      then coords
      else if Rltb (sqrt (fst velocity ^ 2 + snd velocity ^ 2)) 0.001
      then coords
      else integrate_loop this steps' currentPoint (coords ++ [currentPoint])
  end.

Definition integrateStreamline (this : t) (startPoint : R * R)
    : list (R * R) :=
  let maxSteps := 500%nat in
  integrate_loop this maxSteps startPoint [startPoint].

Definition updateMasaInformativaFromQuantum (this : t) : t :=
  set_masaInformativaLayers
    (alter (fun layer =>
       MasaInformativaLayer.set_density
         (imap (fun i row =>
            imap (fun j d =>
              let x := default 0 (x this !! j) in
              let y := default 0 (y this !! i) in
              let newMasa := blobs this ACTIVE_LAYER x y in
              0.92 * d + 0.08 * Rmax 0.01 newMasa) row)
            (MasaInformativaLayer.density layer))
         layer)
       ACTIVE_LAYER (masaInformativaLayers this))
    this.

Section Random.
Variable random : nat -> R.

Definition initializeInfoLayersWithQuantum (this : t)
    : Rand (list MasaInformativaLayer.t) :=
  mapR (fun layerIdx =>
    let depth := INR layerIdx * 2.0 in
    let* cells :=
      mapR (fun i =>
        mapR (fun j =>
          let x := default 0 (x this !! j) in
          let y := default 0 (y this !! i) in
          let masa := blobs this layerIdx x y in
          let* r := Qubit.draw random in
          let masa := masa + 0.03 * (r - 0.5) in
          ret (Rmax 0.01 masa, velocityAt this x y))
        (seq 0 (nx this)))
      (seq 0 (ny this)) in
    let masaInformativa := map (map fst) cells in
    let velocityField := map (map snd) cells in
    let entanglementMatrix := generateQuantumEntanglementMatrix this depth in
    ret (MasaInformativaLayer.Build depth masaInformativa velocityField
           entanglementMatrix))
    (seq 0 (numLayers this)).

(** One iteration of the loop of [defineQuantumStreamlines]: the
    streamline seeded for index [i], if its path has more than one point. *)
Definition defineStreamline (this : t) (i : nat)
    : Rand (option QuantumStreamline.t) :=
  let numStreamlines := if dualCircuitMode this then 20%nat else 15%nat in
  let* start :=
    if dualCircuitMode this then
      if (i <? numStreamlines / 2)%nat then
        let qubitIdx := (i mod 5)%nat in
        let* r1 := Qubit.draw random in
        let startX := Lx this * (0.15 + 0.12 * INR qubitIdx) + (r1 - 0.5) * 1.5 in
        let* r2 := Qubit.draw random in
        let startY := Ly this * 0.25 + (r2 - 0.5) * 2 in
        ret (startX, startY)
      else
        let qubitIdx := ((i - numStreamlines / 2) mod 5)%nat in
        let* r1 := Qubit.draw random in
        let startX := Lx this * (0.15 + 0.12 * INR qubitIdx) + (r1 - 0.5) * 1.5 in
        let* r2 := Qubit.draw random in
        let startY := Ly this * 0.75 + (r2 - 0.5) * 2 in
        ret (startX, startY)
    else
      let qubitIdx := (i mod 5)%nat in
      let* r1 := Qubit.draw random in
      let startX := Lx this * (0.15 + 0.12 * INR qubitIdx) + (r1 - 0.5) * 1.5 in
      let* r2 := Qubit.draw random in
      let startY := Ly this * 0.5 + (r2 - 0.5) * 3 in
      ret (startX, startY) in
  let coords := integrateStreamline this start in
  if (1 <? length coords)%nat then
    let probDensity := computeQuantumProbabilityDensity this coords i in
    let phase := computeQuantumPhase this coords i in
    let coherenceLength := computeCoherenceLength this coords in
    ret (Some (QuantumStreamline.Build coords probDensity phase
                 coherenceLength))
  else ret None.

Definition defineQuantumStreamlines (this : t)
    : Rand (list QuantumStreamline.t) :=
  let numStreamlines := if dualCircuitMode this then 20%nat else 15%nat in
  let* made := mapR (defineStreamline this) (seq 0 numStreamlines) in
  ret (omap (fun s => s) made).

(** [constructor(gridSize, domainSize, quantumCircuitA, quantumCircuitB = null)].
    The grids [x] and [y] divide by [nx - 1] and [ny - 1]: for
    [gridSize = 1] JavaScript computes [0 * L / 0 = NaN], which [R] does not
    have, so the grid values, and the densities and velocities computed from
    them, stand for the code only when [gridSize <> 1].  What is proved of
    these values has [gridSize <> 1] as a hypothesis. *)
Definition new (gridSize : nat) (domainSize : R * R)
    (quantumCircuitA : QuantumCircuit.t)
    (quantumCircuitB : option QuantumCircuit.t) : Rand t :=
  let nx := gridSize in
  let ny := gridSize in
  let Lx := fst domainSize in
  let Ly := snd domainSize in
  let this :=
    Build (gridSize, gridSize) domainSize nx ny Lx Ly NUM_LAYERS VISCOSITY
      quantumCircuitA quantumCircuitB
      (match quantumCircuitB with Some _ => true | None => false end)
      (map (fun i => INR i * Lx / (INR nx - 1)) (seq 0 nx))
      (map (fun i => INR i * Ly / (INR ny - 1)) (seq 0 ny))
      1.055e-34 0 [] [] 0 in
  let* layers := initializeInfoLayersWithQuantum this in
  let this := set_masaInformativaLayers layers this in
  let* streamlines := defineQuantumStreamlines this in
  let this := set_streamlines streamlines this in
  ret (set_informationalReynolds (computeInformationalReynolds this) this).

(** The body of [streamline.coordinates.forEach] in [evolve]. *)
Definition perturb (this : t) (streamline : QuantumStreamline.t)
    (idx : nat) (coord : R * R) : Rand (R * R) :=
  if (0 <? idx)%nat
     && (idx + 1 <? length (QuantumStreamline.coordinates streamline))%nat
  then
    let phaseEvolution :=
      default 0 (QuantumStreamline.phase streamline !! idx) in
    let perturbation := 0.002 * sin (phaseEvolution + time this) in
    let* r1 := Qubit.draw random in
    let c0 := fst coord + perturbation * (r1 - 0.5) in
    let* r2 := Qubit.draw random in
    let c1 := snd coord + perturbation * (r2 - 0.5) in
    let c0 := Rmax 0.1 (Rmin (Lx this - 0.1) c0) in
    let c1 := Rmax 0.1 (Rmin (Ly this - 0.1) c1) in
    ret (c0, c1)
  else ret coord.

Definition evolve (dt : R) (this : t) : Rand t :=
  let this := set_time (time this + dt) this in
  let this :=
    set_quantumCircuitA
      (QuantumCircuit.evolve dt (quantumCircuitA this)) this in
  let this := updateMasaInformativaFromQuantum this in
  let this :=
    match circuitB_if_dual this with
    | Some circuitB =>
        set_quantumCircuitB (Some (QuantumCircuit.evolve dt circuitB)) this
    | None => this
    end in
  let* streamlines :=
    mapR (fun streamline =>
      let oscillation := 1 + 0.1 * sin (time this * 0.25) in
      let coherenceLength :=
        QuantumStreamline.coherenceLength streamline
        * (0.9998 * oscillation) in
      let* coordinates :=
        imapR (perturb this streamline)
              (QuantumStreamline.coordinates streamline) in
      ret (QuantumStreamline.Build coordinates
             (QuantumStreamline.probabilityDensity streamline)
             (QuantumStreamline.phase streamline) coherenceLength))
      (streamlines this) in
  ret (set_streamlines streamlines this).
End Random.

End QuantumLaminarFlow.

(** * src/constants.ts *)

Module PHYSICAL_CONSTANTS.
Definition HBAR : R := 1.0545718e-34.
Definition G : R := 6.67430e-11.
Definition C : R := 299792458.
Definition PLANCK_LENGTH : R := 1.616255e-35.
Definition PLANCK_TIME : R := 5.391247e-44.
Definition PLANCK_MASS : R := 2.176434e-8.
Definition EINSTEIN_CONSTANT : R := 2.076e-43.
End PHYSICAL_CONSTANTS.

Module WORMHOLE_CONFIG.
Definition majorana_mass : R := 2.5e-25.
Definition dark_energy : R := -1.2e-10.
Definition wormhole_distance : R := 1.6e-35.
Definition teleport_time : R := 5.4e-44.
Definition num_points : nat := 1000.
Definition dimension : nat := 4.
End WORMHOLE_CONFIG.

(** * The interfaces of the wormhole service (imported from '../types') *)

Module Types.
Record Qubit := BuildQubit {
  id : nat;
  amplitude : R;
  phase : R;
  coherence : R;
  wormhole_coupling : option R;
  spacetime_correction : option R
}.

Record Circuit := BuildCircuit {
  circuit_id : string;
  qubits : list Qubit
}.

Record GeometryPoint := BuildGeometryPoint {
  z : R;
  radius : R;
  curvature : R;
  energy_density : R
}.

Record SpacetimePoint := BuildSpacetimePoint {
  point : GeometryPoint;   (* [...point] *)
  einstein_tensor : R;
  ricci_scalar : R;
  stress_energy : R
}.

Record MajoranaFieldPoint := BuildMajoranaFieldPoint {
  position : R;
  field_amplitude : R;
  field_phase : R;
  spinor : list R;
  mass_term : R
}.

Record FragmentCoords := BuildFragmentCoords {
  x : nat;
  y : nat;
  wormhole_sector : nat
}.

Record FragmentedState := BuildFragmentedState {
  fragment_id : nat;
  wormhole_position : R;
  alpha : R;
  beta : R;
  geometric_phase : R;
  tunneling_probability : R;
  fragment_qubits : list Qubit;
  fragment_coords : FragmentCoords
}.

Record QuantumWormholeType := BuildQuantumWormhole {
  throat_geometry : list GeometryPoint;
  spacetime_curvature : list SpacetimePoint;
  majorana_field : list MajoranaFieldPoint
}.

Record FragmentationSystem := BuildFragmentationSystem {
  wormhole : QuantumWormholeType;
  fragmented_states : list FragmentedState;
  total_energy : R;
  system_average_tunneling : R;
  geometric_coherence : R
}.

(** [ReconstructedQubit & {contributing_fragment_ids?: number[]}] *)
Record ReconstructedQubit := BuildReconstructedQubit {
  r_amplitude : R;
  r_phase : R;
  r_coherence : R;
  geometric_weight : R;
  wormhole_contributions : list R;
  contributing_fragment_ids : list nat
}.

Record ReconstructedCircuit := BuildReconstructedCircuit {
  r_qubits : list ReconstructedQubit;
  wormhole_fidelity : R
}.

Record GeometricCorrection := BuildGeometricCorrection {
  correction_position : R;
  correction_curvature : R;
  correction_energy : R
}.

Record ReconstructionResult := BuildReconstructionResult {
  circuit_A : ReconstructedCircuit;
  circuit_B : ReconstructedCircuit;
  wormhole_efficiency : R;
  average_tunneling : R;
  geometric_corrections : list GeometricCorrection
}.
End Types.

(** * class QuantumWormhole (with [config = WORMHOLE_CONFIG]) *)

Module QuantumWormhole.
Import Types.

Definition calculateThroatGeometry : list GeometryPoint :=
  let throat_radius := WORMHOLE_CONFIG.wormhole_distance in
  map (fun i =>
    let z := (INR i / INR WORMHOLE_CONFIG.num_points - 0.5) * 10 * throat_radius in
    let rho_z := throat_radius * sqrt (1 + (z / throat_radius) ^ 2) in
    BuildGeometryPoint z rho_z
      (1 / (throat_radius * Rpower (1 + (z / throat_radius) ^ 2) (3 / 2)))
      (WORMHOLE_CONFIG.dark_energy * exp (- Rabs z / throat_radius)))
    (seq 0 WORMHOLE_CONFIG.num_points).

Definition calculateSpacetimeCurvature (throat_geometry : list GeometryPoint)
    : list SpacetimePoint :=
  map (fun point =>
    BuildSpacetimePoint point
      (PHYSICAL_CONSTANTS.EINSTEIN_CONSTANT * energy_density point)
      (2 * curvature point)
      (energy_density point / PHYSICAL_CONSTANTS.C ^ 2))
    throat_geometry.

Definition initializeMajoranaField (throat_geometry : list GeometryPoint)
    : list MajoranaFieldPoint :=
  imap (fun i point =>
    let phase := 2 * PI * INR i / INR WORMHOLE_CONFIG.num_points in
    let amplitude := exp (- Rabs (z point) / WORMHOLE_CONFIG.wormhole_distance) in
    BuildMajoranaFieldPoint (z point) amplitude phase
      [amplitude * cos (phase / 2);
       amplitude * sin (phase / 2);
       - amplitude * sin (phase / 2);
       amplitude * cos (phase / 2)]
      (WORMHOLE_CONFIG.majorana_mass * amplitude))
    throat_geometry.

(** [new QuantumWormhole()] *)
Definition new : QuantumWormholeType :=
  let throat_geometry := calculateThroatGeometry in
  BuildQuantumWormhole throat_geometry
    (calculateSpacetimeCurvature throat_geometry)
    (initializeMajoranaField throat_geometry).

(** [energy_state] is the object [{ amplitude }]. *)
Definition calculateQuantumTunnelingProbability (energy_state : R) : R :=
  let barrier_height := Rabs WORMHOLE_CONFIG.dark_energy in
  let particle_energy :=
    energy_state * PHYSICAL_CONSTANTS.HBAR * PHYSICAL_CONSTANTS.C in
  if Rgtb particle_energy barrier_height then 0.98
  else
    let kappa :=
      sqrt (2 * (barrier_height - particle_energy)) / PHYSICAL_CONSTANTS.HBAR in
    let barrier_width := 2 * WORMHOLE_CONFIG.wormhole_distance in
    exp (- 2 * kappa * barrier_width).
End QuantumWormhole.

(** [arr.forEach(a => body)] where the body may raise a TypeError ([None]). *)
Fixpoint forEach_opt {A St : Type} (body : A -> St -> option St)
    (arr : list A) (s : St) : option St :=
  match arr with
  | [] => Some s
  | a :: arr' => s' ← body a s; forEach_opt body arr' s'
  end.

(** * src/services/wormhole.ts

    Reading a property of [arr[i]] when [i] is out of range is a TypeError;
    the functions below return [None] for it. *)

Module Wormhole.
Import Types.

(** The body of the loop of [createWormholeFragmentationSystem]. *)
Definition fragment (wormhole : QuantumWormholeType)
    (circuitA circuitB : Circuit) (i : nat) : option FragmentedState :=
  wormhole_point ←
    spacetime_curvature wormhole !! (i mod length (spacetime_curvature wormhole))%nat;
  majorana ←
    majorana_field wormhole !! (i mod length (majorana_field wormhole))%nat;
  let geometric_factor :=
    radius (point wormhole_point) / WORMHOLE_CONFIG.wormhole_distance in
  let alpha := cos (PI * INR i / 2048) * sqrt geometric_factor in
  let beta := sin (PI * INR i / 2048) * sqrt geometric_factor in
  Some (BuildFragmentedState i (z (point wormhole_point)) alpha beta
    (field_phase majorana)
    (QuantumWormhole.calculateQuantumTunnelingProbability
       (sqrt (alpha * alpha + beta * beta)))
    (map (fun qubit =>
            BuildQubit (id qubit)
              (amplitude qubit * alpha * field_amplitude majorana)
              (phase qubit + field_phase majorana
               + curvature (point wormhole_point))
              (coherence qubit)
              (Some (energy_density (point wormhole_point)))
              (Some (einstein_tensor wormhole_point)))
         (qubits circuitA)
     ++
     map (fun qubit =>
            BuildQubit (id qubit + 5)
              (amplitude qubit * beta * field_amplitude majorana)
              (phase qubit - field_phase majorana
               - curvature (point wormhole_point))
              (coherence qubit)
              (Some (- energy_density (point wormhole_point)))
              (Some (- einstein_tensor wormhole_point)))
         (qubits circuitB))
    (BuildFragmentCoords (i mod 32) (i / 32) (i / 256))).

Definition createWormholeFragmentationSystem (circuitA circuitB : Circuit)
    : option FragmentationSystem :=
  let wormhole := QuantumWormhole.new in
  fragmentedStates ← mapM (fragment wormhole circuitA circuitB) (seq 0 1024);
  Some (BuildFragmentationSystem wormhole fragmentedStates
    (fold_left (fun sum state =>
       sum + fold_left (fun qsum q => qsum + amplitude q * amplitude q)
               (fragment_qubits state) 0) fragmentedStates 0)
    (fold_left (fun sum state => sum + tunneling_probability state)
       fragmentedStates 0 / 1024)
    (INR (length (filter (fun state =>
                    Rgtb (tunneling_probability state) 0.5 = true)
                  fragmentedStates)) / 1024)).

Definition emptyReconstruction : ReconstructedQubit :=
  BuildReconstructedQubit 0 0 0 0 [] [].

(** [rec.amplitude += q.amplitude * w * g] and the four updates after it,
    for a fragment [state] with mixing coefficient [w]. *)
Definition accumulate (q : Qubit) (w : R) (state : FragmentedState)
    (rec : ReconstructedQubit) : ReconstructedQubit :=
  let geometric_weight_ := tunneling_probability state in
  BuildReconstructedQubit
    (r_amplitude rec + amplitude q * w * geometric_weight_)
    (r_phase rec + phase q * w * geometric_weight_)
    (r_coherence rec)
    (geometric_weight rec + w * geometric_weight_)
    (wormhole_contributions rec ++ [wormhole_position state])
    (contributing_fragment_ids rec ++ [fragment_id state]).

(** The body of [fragmented_states.forEach] for the slot [qubit_idx]. *)
Definition fold_fragment (qubit_idx : nat) (state : FragmentedState)
    (recs : ReconstructedQubit * ReconstructedQubit)
    : option (ReconstructedQubit * ReconstructedQubit) :=
  let '(qubit_A_reconstruction, qubit_B_reconstruction) := recs in
  qubit_A_reconstruction ←
    (if Rgtb (alpha state) 0.3 then
       qubit_A ← fragment_qubits state !! qubit_idx;
       Some (accumulate qubit_A (alpha state) state qubit_A_reconstruction)
     else Some qubit_A_reconstruction);
  qubit_B_reconstruction ←
    (if Rgtb (beta state) 0.3 then
       qubit_B ← fragment_qubits state !! (qubit_idx + 5)%nat;
       Some (accumulate qubit_B (beta state) state qubit_B_reconstruction)
     else Some qubit_B_reconstruction);
  Some (qubit_A_reconstruction, qubit_B_reconstruction).

(** The [if (rec.geometric_weight > 0)] block after the fold. *)
Definition normalise (rec : ReconstructedQubit) : ReconstructedQubit :=
  if Rgtb (geometric_weight rec) 0 then
    BuildReconstructedQubit
      (r_amplitude rec / geometric_weight rec)
      (r_phase rec / geometric_weight rec)
      (tanh (geometric_weight rec / 100))
      (geometric_weight rec)
      (wormhole_contributions rec)
      (contributing_fragment_ids rec)
  else rec.

Definition reconstructQubit (fragmented_states : list FragmentedState)
    (qubit_idx : nat) : option (ReconstructedQubit * ReconstructedQubit) :=
  recs ← forEach_opt (fold_fragment qubit_idx) fragmented_states
           (emptyReconstruction, emptyReconstruction);
  Some (normalise (fst recs), normalise (snd recs)).

Definition calculateExplorationFactor (qubits : list ReconstructedQubit) : R :=
  let all_fragment_ids := flat_map contributing_fragment_ids qubits in
  if (length all_fragment_ids <? 20)%nat then 0 else
  let norm_positions :=
    map (fun id => (INR id / INR WORMHOLE_CONFIG.num_points - 0.5) * 10)
        all_fragment_ids in
  let mean := Rsum norm_positions / INR (length norm_positions) in
  let variance :=
    fold_left (fun sum val => sum + (val - mean) ^ 2) norm_positions 0
    / INR (length norm_positions) in
  Rmin 1.0 (variance / 8.0).

Definition reconstructWithWormholeGeometry
    (fragmentationSystem : FragmentationSystem) : option ReconstructionResult :=
  let wormhole := wormhole fragmentationSystem in
  let fragmented_states := fragmented_states fragmentationSystem in
  let average_tunneling := system_average_tunneling fragmentationSystem in
  recs ← mapM (reconstructQubit fragmented_states) (seq 0 5);
  let qubits_A := map fst recs in
  let qubits_B := map snd recs in
  let fidelity_A :=
    fold_left (fun sum q => sum + r_coherence q) qubits_A 0 / 5 in
  let fidelity_B :=
    fold_left (fun sum q => sum + r_coherence q) qubits_B 0 / 5 in
  let exploration_A := calculateExplorationFactor qubits_A in
  let exploration_B := calculateExplorationFactor qubits_B in
  let average_exploration := (exploration_A + exploration_B) / 2 in
  let average_fidelity := (fidelity_A + fidelity_B) / 2 in
  let wormhole_efficiency :=
    0.7 * average_fidelity + 0.3 * average_exploration in
  Some (BuildReconstructionResult
    (BuildReconstructedCircuit qubits_A fidelity_A)
    (BuildReconstructedCircuit qubits_B fidelity_B)
    wormhole_efficiency
    average_tunneling
    (map (fun point =>
            BuildGeometricCorrection (z (Types.point point))
              (ricci_scalar point) (stress_energy point))
         (take 10 (spacetime_curvature wormhole)))).

(** [convertToCircuitType] of [handleReconstruction]. *)
Definition convertToCircuitType (qc : QuantumCircuit.t) : Circuit :=
  BuildCircuit (QuantumCircuit.circuitId qc)
    (imap (fun idx q =>
             BuildQubit idx (Rabs (snd (Qubit.state q))) (Qubit.phase q) 1.0
               None None)
          (QuantumCircuit.qubits qc)).
End Wormhole.

(** * The JavaScript built-ins behind the seed: [JSON] and base64

    Texts are [string]s, whose characters are bytes; this is the range
    ([0..255]) on which [btoa] is defined. *)

Module JSON.

(** The JSON values without numbers: a gate configuration contains none.
    The induction principle for this nested type is [value_rect'] below. *)
#[local] Unset Elimination Schemes.
Inductive value :=
| Null
| Bool (b : bool)
| Str (s : string)
| Arr (elements : list value)
| Obj (members : list (string * value)).
#[local] Set Elimination Schemes.

(** A character that [JSON.stringify] writes as it is inside a string:
    anything but the quote (code 34), the backslash (code 92) and the
    control characters. *)
Definition plain_char (c : ascii) : bool :=
  negb (Ascii.eqb c "034" || Ascii.eqb c "092" || (N_of_ascii c <? 32)%N).

Fixpoint plain (s : string) : bool :=
  match s with
  | EmptyString => true
  | String c s' => plain_char c && plain s'
  end.

(** [JSON.stringify] of a [plain] string. *)
Definition quote (s : string) : string :=
  String "034" (s ++ String "034" EmptyString).

(** [JSON.stringify(v)]: no white space, members in insertion order. *)
Fixpoint stringify (v : value) : string :=
  match v with
  | Null => "null"
  | Bool true => "true"
  | Bool false => "false"
  | Str s => quote s
  | Arr elements =>
      let fix elems (l : list value) : string :=
        match l with
        | [] => EmptyString
        | [v] => stringify v
        | v :: l' => stringify v ++ "," ++ elems l'
        end in
      "[" ++ elems elements ++ "]"
  | Obj members =>
      let fix membs (l : list (string * value)) : string :=
        match l with
        | [] => EmptyString
        | [(k, v)] => quote k ++ ":" ++ stringify v
        | (k, v) :: l' => quote k ++ ":" ++ stringify v ++ "," ++ membs l'
        end in
      "{" ++ membs members ++ "}"
  end.

(** The text between the brackets of an array and between the braces of an
    object, as the two local functions of [stringify] write it. *)
Fixpoint stringify_elements (l : list value) : string :=
  match l with
  | [] => EmptyString
  | [v] => stringify v
  | v :: l' => stringify v ++ "," ++ stringify_elements l'
  end.

Fixpoint stringify_members (l : list (string * value)) : string :=
  match l with
  | [] => EmptyString
  | [(k, v)] => quote k ++ ":" ++ stringify v
  | (k, v) :: l' => quote k ++ ":" ++ stringify v ++ "," ++ stringify_members l'
  end.

(** Every string of the value, keys included, is [plain]. *)
Fixpoint plain_value (v : value) : bool :=
  match v with
  | Null | Bool _ => true
  | Str s => plain s
  | Arr elements => forallb plain_value elements
  | Obj members =>
      forallb (fun m => plain (fst m) && plain_value (snd m)) members
  end.

(** The number of nested calls that reading the text of a value takes: one
    for the value, one more for each element or member before it in its
    array or object. *)
Fixpoint depth (v : value) : nat :=
  match v with
  | Null | Bool _ | Str _ => 1%nat
  | Arr elements =>
      S ((fix elems (l : list value) : nat :=
            match l with
            | [] => 0%nat
            | v :: l' => S (Nat.max (depth v) (elems l'))
            end) elements)
  | Obj members =>
      S ((fix membs (l : list (string * value)) : nat :=
            match l with
            | [] => 0%nat
            | (_, v) :: l' => S (Nat.max (depth v) (membs l'))
            end) members)
  end.

Definition depth_elements (l : list value) : nat :=
  fold_right (fun v n => S (Nat.max (depth v) n)) 0%nat l.

Definition depth_members (l : list (string * value)) : nat :=
  fold_right (fun m n => S (Nat.max (depth (snd m)) n)) 0%nat l.

(** The characters of a string literal up to its closing quote.  An escape
    sequence is outside the fragment read here; a control character is a
    SyntaxError. *)
Fixpoint parse_chars (s : string) : option (string * string) :=
  match s with
  | EmptyString => None
  | String c s' =>
      if Ascii.eqb c "034" then Some (EmptyString, s')
      else if plain_char c then
        '(str, rest) ← parse_chars s'; Some (String c str, rest)
      else None
  end.

(** [expect lit s]: [s] without its prefix [lit]. *)
Fixpoint expect (lit s : string) : option string :=
  match lit, s with
  | EmptyString, _ => Some s
  | String c lit', String d s' =>
      if Ascii.eqb c d then expect lit' s' else None
  | String _ _, EmptyString => None
  end.

(** A recursive-descent reader of the texts that [stringify] writes (no
    white space, no numbers, no escapes); [None] is a SyntaxError or a text
    outside this fragment.  [fuel] bounds the number of nested calls. *)
Fixpoint parse_value (fuel : nat) (s : string) : option (value * string) :=
  match fuel with
  | O => None
  | S fuel =>
      match s with
      | String "n" s' => rest ← expect "ull" s'; Some (Null, rest)
      | String "t" s' => rest ← expect "rue" s'; Some (Bool true, rest)
      | String "f" s' => rest ← expect "alse" s'; Some (Bool false, rest)
      | String "034" s' => '(str, rest) ← parse_chars s'; Some (Str str, rest)
      | String "[" (String "]" rest) => Some (Arr [], rest)
      | String "[" s' =>
          '(elements, rest) ← parse_elements fuel s'; Some (Arr elements, rest)
      | String "{" (String "}" rest) => Some (Obj [], rest)
      | String "{" s' =>
          '(members, rest) ← parse_members fuel s'; Some (Obj members, rest)
      | _ => None
      end
  end
with parse_elements (fuel : nat) (s : string)
    : option (list value * string) :=
  match fuel with
  | O => None
  | S fuel =>
      '(v, rest) ← parse_value fuel s;
      match rest with
      | String "]" rest' => Some ([v], rest')
      | String "," rest' =>
          '(vs, rest'') ← parse_elements fuel rest'; Some (v :: vs, rest'')
      | _ => None
      end
  end
with parse_members (fuel : nat) (s : string)
    : option (list (string * value) * string) :=
  match fuel with
  | O => None
  | S fuel =>
      match s with
      | String "034" s' =>
          '(k, rest) ← parse_chars s';
          rest ← expect ":" rest;
          '(v, rest) ← parse_value fuel rest;
          match rest with
          | String "}" rest' => Some ([(k, v)], rest')
          | String "," rest' =>
              '(ms, rest'') ← parse_members fuel rest';
              Some ((k, v) :: ms, rest'')
          | _ => None
          end
      | _ => None
      end
  end.

(** [JSON.parse(s)] on that fragment. *)
Definition parse (s : string) : option value :=
  match parse_value (2 * String.length s) s with
  | Some (v, EmptyString) => Some v
  | _ => None
  end.

(** [obj.key]: the property of a parsed value, [undefined] as [None].  An
    object is the list of its members as they are written; of a key written
    twice, [JSON.parse] keeps the value written last.  (Reading a property of
    [null] throws; [handleLoadSeed] below deals with it.) *)
Definition get (key : string) (v : value) : option value :=
  match v with
  | Obj members =>
      snd <$> find (fun m => String.eqb (fst m) key) (rev members)
  | _ => None
  end.
End JSON.

Module Base64.

Definition alphabet : string :=
  "ABCDEFGHIJKLMNOPQRSTUVWXYZabcdefghijklmnopqrstuvwxyz0123456789+/".

(** The character of a 6-bit group. *)
Definition enc (n : N) : ascii :=
  match String.get (N.to_nat n) alphabet with
  | Some c => c
  | None => "="%char
  end.

Fixpoint index_of (c : ascii) (s : string) : option N :=
  match s with
  | EmptyString => None
  | String d s' =>
      if Ascii.eqb c d then Some 0%N else N.succ <$> index_of c s'
  end.

(** The 6-bit group of a character of the alphabet. *)
Definition dec (c : ascii) : option N := index_of c alphabet.

(** [btoa(s)]: three bytes give four characters; a last group of one or
    two bytes is completed with zero bits and padded with [=]. *)
Fixpoint btoa (s : string) : string :=
  match s with
  | EmptyString => EmptyString
  | String a EmptyString =>
      let a := N_of_ascii a in
      String (enc (a / 4)) (String (enc (a mod 4 * 16)) "==")
  | String a (String b EmptyString) =>
      let a := N_of_ascii a in
      let b := N_of_ascii b in
      String (enc (a / 4)) (String (enc (a mod 4 * 16 + b / 16))
        (String (enc (b mod 16 * 4)) "="))
  | String a (String b (String c s')) =>
      let a := N_of_ascii a in
      let b := N_of_ascii b in
      let c := N_of_ascii c in
      String (enc (a / 4)) (String (enc (a mod 4 * 16 + b / 16))
        (String (enc (b mod 16 * 4 + c / 64)) (String (enc (c mod 64))
          (btoa s'))))
  end.

(** ASCII white space: TAB, LF, FF, CR, SPACE. *)
Definition is_whitespace (c : ascii) : bool :=
  let n := N_of_ascii c in
  (n =? 9)%N || (n =? 10)%N || (n =? 12)%N || (n =? 13)%N || (n =? 32)%N.

Fixpoint remove_whitespace (s : string) : string :=
  match s with
  | EmptyString => EmptyString
  | String c s' =>
      if is_whitespace c then remove_whitespace s'
      else String c (remove_whitespace s')
  end.

(** Remove one or two [=] at the end. *)
Fixpoint remove_padding (s : string) : string :=
  match s with
  | EmptyString => EmptyString
  | String "=" EmptyString => EmptyString
  | String "=" (String "=" EmptyString) => EmptyString
  | String c s' => String c (remove_padding s')
  end.

(** Groups of four characters give three bytes; a last group of two or
    three characters gives one or two bytes, its spare bits dropped. *)
Fixpoint decode (s : string) : option string :=
  match s with
  | EmptyString => Some EmptyString
  | String _ EmptyString => None
  | String c1 (String c2 EmptyString) =>
      n1 ← dec c1; n2 ← dec c2;
      Some (String (ascii_of_N (n1 * 4 + n2 / 16)) EmptyString)
  | String c1 (String c2 (String c3 EmptyString)) =>
      n1 ← dec c1; n2 ← dec c2; n3 ← dec c3;
      Some (String (ascii_of_N (n1 * 4 + n2 / 16))
             (String (ascii_of_N (n2 mod 16 * 16 + n3 / 4)) EmptyString))
  | String c1 (String c2 (String c3 (String c4 s'))) =>
      n1 ← dec c1; n2 ← dec c2; n3 ← dec c3; n4 ← dec c4;
      bytes ← decode s';
      Some (String (ascii_of_N (n1 * 4 + n2 / 16))
             (String (ascii_of_N (n2 mod 16 * 16 + n3 / 4))
               (String (ascii_of_N (n3 mod 4 * 64 + n4)) bytes)))
  end.

(** [atob(s)], the forgiving-base64 decoder: strip white space, drop the
    padding of a text whose length is a multiple of four, reject a length
    of one modulo four or a character outside the alphabet, decode.
    [None] is an InvalidCharacterError. *)
Definition atob (s : string) : option string :=
  let data := remove_whitespace s in
  let data := if (String.length data mod 4 =? 0)%nat
              then remove_padding data else data in
  if (String.length data mod 4 =? 1)%nat then None else decode data.
End Base64.

(** * The seed handlers of the component *)

Module Seed.

(** The React state that makes a seed. *)
Record GateConfiguration := BuildGateConfiguration {
  selectedGatesA : SelectedGates.t;
  selectedGatesB : SelectedGates.t;
  circuitBEnabled : bool;
  interCircuitEntanglementEnabled : bool
}.

(** A boolean array and a gate selection as JavaScript objects; the keys
    come in the order of the literal [initialGates]. *)
Definition object_of_flags (l : list bool) : JSON.value :=
  JSON.Arr (map JSON.Bool l).

Definition object_of_gates (g : SelectedGates.t) : JSON.value :=
  JSON.Obj
    [("hadamard", object_of_flags (SelectedGates.hadamard g));
     ("pauliX", object_of_flags (SelectedGates.pauliX g));
     ("pauliY", object_of_flags (SelectedGates.pauliY g));
     ("pauliZ", object_of_flags (SelectedGates.pauliZ g));
     ("rotationX", object_of_flags (SelectedGates.rotationX g));
     ("rotationY", object_of_flags (SelectedGates.rotationY g));
     ("rotationZ", object_of_flags (SelectedGates.rotationZ g));
     ("tGate", object_of_flags (SelectedGates.tGate g));
     ("swap", object_of_flags (SelectedGates.swap g));
     ("ccnot", object_of_flags (SelectedGates.ccnot g))].

(** The object [state] of [handleGenerateSeed]. *)
Definition object_of_configuration (cfg : GateConfiguration) : JSON.value :=
  JSON.Obj
    [("selectedGatesA", object_of_gates (selectedGatesA cfg));
     ("selectedGatesB", object_of_gates (selectedGatesB cfg));
     ("circuitBEnabled", JSON.Bool (circuitBEnabled cfg));
     ("interCircuitEntanglementEnabled",
      JSON.Bool (interCircuitEntanglementEnabled cfg))].

(** The value given to [setGeneratedSeed]; neither [JSON.stringify] nor
    [btoa] throws on a configuration, whose text is ASCII. *)
Definition handleGenerateSeed (cfg : GateConfiguration) : string :=
  let state := object_of_configuration cfg in
  let jsonString := JSON.stringify state in
  Base64.btoa jsonString.

(** What [handleLoadSeed] does: nothing on an empty input, an alert on a
    text that does not decode (or decodes to [null], whose properties
    cannot be read), otherwise the four values it hands to
    [setSelectedGatesA], [setSelectedGatesB], [setCircuitBEnabled] and
    [setInterCircuitEntanglementEnabled] ([None] for [undefined]). *)
Inductive outcome :=
| Ignored
| InvalidSeed
| Loaded (gatesA gatesB bEnabled entanglementEnabled : option JSON.value).

Definition handleLoadSeed (seedInput : string) : outcome :=
  if String.eqb seedInput EmptyString then Ignored else
  match Base64.atob seedInput with
  | None => InvalidSeed
  | Some jsonString =>
      match JSON.parse jsonString with
      | None => InvalidSeed
      | Some JSON.Null => InvalidSeed   (* a TypeError, caught *)
      | Some state =>
          Loaded (JSON.get "selectedGatesA" state)
                 (JSON.get "selectedGatesB" state)
                 (JSON.get "circuitBEnabled" state)
                 (JSON.get "interCircuitEntanglementEnabled" state)
      end
  end.
End Seed.

(** * Gate selections used in the scenarios *)

Module Scenario.

Definition none5 : list bool := [false; false; false; false; false].
Definition all5 : list bool := [true; true; true; true; true].

(** Only [hadamard], on all five qubits. *)
Definition hadamardOnly : SelectedGates.t :=
  SelectedGates.Build all5 none5 none5 none5 none5 none5 none5 none5
    [false; false; false; false] [false; false; false].

(** Only the CCNOT toggle for (0, 1, 2). *)
Definition ccnotOnly : SelectedGates.t :=
  SelectedGates.Build none5 none5 none5 none5 none5 none5 none5 none5
    [false; false; false; false] [true; false; false].

(** A selection with true and false flags under every key. *)
Definition mixedA : SelectedGates.t :=
  SelectedGates.Build
    [true; false; true; false; true] [false; true; false; false; false]
    [false; false; false; true; false] [true; false; false; false; false]
    [false; false; true; false; false] [false; true; false; false; true]
    [true; false; true; false; true] [false; false; false; true; true]
    [true; false; false; true] [false; true; false].

Definition mixedB : SelectedGates.t :=
  SelectedGates.Build
    [false; true; true; true; false] [true; false; false; true; false]
    [false; true; false; false; true] [false; false; true; true; false]
    [true; true; false; false; false] [false; false; false; true; true]
    [false; true; false; true; false] [true; false; true; false; false]
    [false; true; true; false] [true; false; true].

Definition mixed : Seed.GateConfiguration :=
  Seed.BuildGateConfiguration mixedA mixedB true false.

(** Two circuits as [handleReconstruction] passes them to the wormhole
    service: five qubits of amplitude [0.5], and the placeholder for a
    disabled second circuit. *)
Definition typedA : Types.Circuit :=
  Types.BuildCircuit "A"
    (map (fun i => Types.BuildQubit i 0.5 0 1.0 None None) (seq 0 5)).

Definition typedB : Types.Circuit :=
  Types.BuildCircuit "B"
    (map (fun i => Types.BuildQubit i 0 0 1.0 None None) (seq 0 5)).

(** The circuit after [k] calls of [measureAll], with the number of
    samples drawn. *)
Definition measured (random : nat -> R) (now : Z) (k : nat)
    (c : QuantumCircuit.t) : QuantumCircuit.t * nat :=
  Nat.iter k
    (fun cn : QuantumCircuit.t * nat =>
       let r := QuantumCircuit.measureAll random now (fst cn) (snd cn) in
       (snd (fst r), snd r))
    (c, 0%nat).

(** A flow over one circuit, before its layers and streamlines are set. *)
Definition bareFlow : QuantumLaminarFlow.t :=
  QuantumLaminarFlow.Build (32, 32)%nat (10, 10) 32 32 10 10
    QuantumLaminarFlow.NUM_LAYERS QuantumLaminarFlow.VISCOSITY
    (QuantumCircuit.new 5 "A" (Some hadamardOnly)) None false
    [] [] 1.055e-34 0 [] [] 0.

End Scenario.

(** * Predicates used in the proofs *)

(** What the methods of [QuantumCircuit] keep. *)

Module CircuitInvariant.
Import QuantumCircuit.

(** A method of [Qubit] that keeps the [id]. *)
Definition keeps_id (m : Qubit.t -> Qubit.t) : Prop :=
  forall q, Qubit.id (m q) = Qubit.id q.

(** [frame c c']: going from [c] to [c'] changed neither the constructor's
    arguments, nor [gates], nor the [id] of any qubit. *)
Record frame (c c' : t) : Prop := Frame {
  frame_numQubits : numQubits c' = numQubits c;
  frame_circuitId : circuitId c' = circuitId c;
  frame_gates : gates c' = gates c;
  frame_selectedGates : selectedGates c' = selectedGates c;
  frame_ids : map Qubit.id (qubits c') = map Qubit.id (qubits c)
}.

(** [only_qubits c c']: moreover the history and the cross-circuit
    connections are the same. *)
Record only_qubits (c c' : t) : Prop := OnlyQubits {
  only_frame : frame c c';
  only_history : measurementHistory c' = measurementHistory c;
  only_connections : interCircuitConnections c' = interCircuitConnections c
}.

(** [keeps_history c c']: the frame and the measurement history are kept. *)
Record keeps_history (c c' : t) : Prop := KeepsHistory {
  keeps_frame : frame c c';
  keeps_measurementHistory : measurementHistory c' = measurementHistory c
}.

(** The qubits are those the constructor made: one per index, with the id
    [`${circuitId}${i}`]; [gates] is empty. *)
Definition wf (c : t) : Prop :=
  gates c = []
  /\ map Qubit.id (qubits c)
     = map (fun i => circuitId c ++ string_of_nat i) (seq 0 (numQubits c)).

(** The state that [connect] gives to both qubits: the componentwise sum of
    the two states divided by [sqrt 2]. *)
Definition avgState (thisState otherState : R * R) : R * R :=
  ((fst thisState + fst otherState) / sqrt 2,
   (snd thisState + snd otherState) / sqrt 2).

(** The shape of a circuit that [connect] relies on and keeps. *)
Definition sized (c : t) : Prop := length (qubits c) = numQubits c.

End CircuitInvariant.

(** Streamlines. *)

Module StreamlineInvariant.

(** What a streamline made at construction satisfies. *)
Definition normalised (s : QuantumStreamline.t) : Prop :=
  QuantumStreamline.coordinates s <> []
  /\ Rsum (QuantumStreamline.probabilityDensity s) = 1.

End StreamlineInvariant.

(** Fragments and reconstructed qubits. *)

Module WormholeInvariant.
Import Types.

(** A coherence as [normalise] leaves it. *)
Definition bounded (rec : ReconstructedQubit) : Prop :=
  0 <= r_coherence rec < 1.

(** A fragment with the ten qubit copies. *)
Definition complete (state : FragmentedState) : Prop :=
  length (fragment_qubits state) = 10%nat.

End WormholeInvariant.

(** The base64 alphabet. *)

Module Base64Invariant.
Import Base64.

(** What is needed of the character of a 6-bit group: it decodes to the
    group, it is not the padding and it is not white space. *)
Definition good (n : N) : bool :=
  match dec (enc n) with
  | Some m => (m =? n)%N
  | None => false
  end
  && negb (Ascii.eqb (enc n) "=") && negb (is_whitespace (enc n)).

End Base64Invariant.

(** The reader of JSON texts. *)

Module JSONInvariant.
Import JSON.

(** The first character of the text of a value. *)
Definition opening (c : ascii) : Prop :=
  c = "n"%char \/ c = "t"%char \/ c = "f"%char \/ c = "034"%char
  \/ c = "["%char \/ c = "{"%char.

(** [reads v]: the reader gives [v] back from the text of [v], whatever
    follows it, when [fuel] covers the [depth] of [v]. *)
Definition reads (v : value) : Prop :=
  plain_value v = true ->
  forall fuel rest,
    (depth v <= fuel)%nat ->
    parse_value fuel (stringify v ++ rest) = Some (v, rest).

End JSONInvariant.

(** Further predicates on circuits. *)

Module CircuitShape.
Import QuantumCircuit.

(** A method of [Qubit] that does not clear the [entangled] flag. *)
Definition keeps_entangled (m : Qubit.t -> Qubit.t) : Prop :=
  forall q, Qubit.entangled q = true -> Qubit.entangled (m q) = true.

(** Every qubit is flagged entangled, and there are [numQubits] of them. *)
Definition all_entangled (c : t) : Prop :=
  length (qubits c) = numQubits c
  /\ Forall (fun q => Qubit.entangled q = true) (qubits c).

(** The basis state that [measure] leaves for the result [b]. *)
Definition basis (b : nat) : R * R := if (b =? 0)%nat then (1, 0) else (0, 1).

End CircuitShape.

(** Further predicates on the flow. *)

Module FlowShape.
Import QuantumLaminarFlow.

(** The points that [integrateStreamline] keeps and that [evolve] clamps
    to: at least 0.1 away from every side of the domain. *)
Definition inside (this : t) (p : R * R) : Prop :=
  0.1 <= fst p <= Lx this - 0.1 /\ 0.1 <= snd p <= Ly this - 0.1.

(** A layer over a grid of [ny] rows and [nx] columns whose density is at
    least 0.01 everywhere. *)
Definition layer_ok (nx ny : nat) (l : MasaInformativaLayer.t) : Prop :=
  length (MasaInformativaLayer.density l) = ny
  /\ Forall (fun row => length row = nx /\ Forall (fun d => 0.01 <= d) row)
            (MasaInformativaLayer.density l)
  /\ length (MasaInformativaLayer.velocityField l) = ny
  /\ Forall (fun row => length row = nx)
            (MasaInformativaLayer.velocityField l).

(** The arrays of a streamline have one entry per point of its path. *)
Definition aligned (s : QuantumStreamline.t) : Prop :=
  (2 <= length (QuantumStreamline.coordinates s))%nat
  /\ length (QuantumStreamline.probabilityDensity s)
     = length (QuantumStreamline.coordinates s)
  /\ length (QuantumStreamline.phase s)
     = length (QuantumStreamline.coordinates s).

(** What every streamline that [defineQuantumStreamlines] makes satisfies. *)
Definition constructed (this : t) (s : QuantumStreamline.t) : Prop :=
  aligned s
  /\ 0.5 <= QuantumStreamline.coherenceLength s
  /\ Forall (fun p => 0 < p <= 1) (QuantumStreamline.probabilityDensity s)
  /\ exists start rest,
       QuantumStreamline.coordinates s = start :: rest
       /\ (length rest <= 500)%nat
       /\ Forall (inside this) rest.

(** [Math.max(0.1, Math.min(L - 0.1, c))] *)
Definition clamp (L c : R) : R := Rmax 0.1 (Rmin (L - 0.1) c).

(** A flow over one circuit built without a gate selection, and a flow
    whose five layers carry a zero velocity field. *)
Definition plainFlow : t :=
  set_quantumCircuitA (QuantumCircuit.new 5 "A" None) Scenario.bareFlow.

Definition stillFlow : t :=
  set_masaInformativaLayers
    (List.repeat
       (MasaInformativaLayer.Build 0 (List.repeat (List.repeat 1 32) 32)
          (List.repeat (List.repeat (0, 0) 32) 32) [])
       5)
    Scenario.bareFlow.


End FlowShape.

(** Further predicates on the wormhole service. *)

Module WormholeShape.
Import Types.

(** [z / wormhole_distance] at the geometry point that fragment [i] uses:
    the point of index [i % 1000]. *)
Definition throat (i : nat) : R := (INR (i mod 1000) / 1000 - 0.5) * 10.

(** Two fragments that differ at most in their qubit copies. *)
Definition same_geometry (s s' : FragmentedState) : Prop :=
  fragment_id s' = fragment_id s
  /\ wormhole_position s' = wormhole_position s
  /\ alpha s' = alpha s
  /\ beta s' = beta s
  /\ tunneling_probability s' = tunneling_probability s
  /\ length (fragment_qubits s) = 10%nat
  /\ length (fragment_qubits s') = 10%nat.

(** Two reconstructed qubits that differ at most in amplitude and phase. *)
Definition same_weights (r r' : ReconstructedQubit) : Prop :=
  r_coherence r' = r_coherence r
  /\ geometric_weight r' = geometric_weight r
  /\ wormhole_contributions r' = wormhole_contributions r
  /\ contributing_fragment_ids r' = contributing_fragment_ids r.

End WormholeShape.

(** Further predicates on seeds. *)

Module SeedShape.

(** The character [c] occurs in [s]. *)
Fixpoint occurs (c : ascii) (s : string) : Prop :=
  match s with
  | EmptyString => False
  | String d s' => c = d \/ occurs c s'
  end.

(** The configuration [Scenario.mixed] with the second circuit disabled. *)
Definition mixedDisabled : Seed.GateConfiguration :=
  Seed.BuildGateConfiguration Scenario.mixedA Scenario.mixedB false false.

End SeedShape.

(** * The handlers of the component that change the gate selection, and
      [handleReconstruction] *)

Module Handlers.
Import Seed.

(** The argument [circuit: 'A' | 'B']. *)
Inductive circuit := A | B.

Definition selection (c : circuit) (cfg : GateConfiguration) : SelectedGates.t :=
  match c with
  | A => selectedGatesA cfg
  | B => selectedGatesB cfg
  end.

(** [prev[gateType]]: [None] is [undefined]. *)
Definition gates_of (gateType : string) (prev : SelectedGates.t)
    : option (list bool) :=
  if String.eqb gateType "hadamard" then Some (SelectedGates.hadamard prev)
  else if String.eqb gateType "pauliX" then Some (SelectedGates.pauliX prev)
  else if String.eqb gateType "pauliY" then Some (SelectedGates.pauliY prev)
  else if String.eqb gateType "pauliZ" then Some (SelectedGates.pauliZ prev)
  else if String.eqb gateType "rotationX"
       then Some (SelectedGates.rotationX prev)
  else if String.eqb gateType "rotationY"
       then Some (SelectedGates.rotationY prev)
  else if String.eqb gateType "rotationZ"
       then Some (SelectedGates.rotationZ prev)
  else if String.eqb gateType "tGate" then Some (SelectedGates.tGate prev)
  else if String.eqb gateType "swap" then Some (SelectedGates.swap prev)
  else if String.eqb gateType "ccnot" then Some (SelectedGates.ccnot prev)
  else None.

(** [{ ...prev, [gateType]: flags }] for a key that [prev] has. *)
Definition with_gates (gateType : string) (flags : list bool)
    (prev : SelectedGates.t) : SelectedGates.t :=
  let pick (key : string) (old : list bool) :=
    if String.eqb gateType key then flags else old in
  SelectedGates.Build
    (pick "hadamard" (SelectedGates.hadamard prev))
    (pick "pauliX" (SelectedGates.pauliX prev))
    (pick "pauliY" (SelectedGates.pauliY prev))
    (pick "pauliZ" (SelectedGates.pauliZ prev))
    (pick "rotationX" (SelectedGates.rotationX prev))
    (pick "rotationY" (SelectedGates.rotationY prev))
    (pick "rotationZ" (SelectedGates.rotationZ prev))
    (pick "tGate" (SelectedGates.tGate prev))
    (pick "swap" (SelectedGates.swap prev))
    (pick "ccnot" (SelectedGates.ccnot prev)).

(** [flags.map((gate, idx) => idx === target ? !gate : gate)] *)
Definition flip (target : nat) (flags : list bool) : list bool :=
  imap (fun idx gate => if (idx =? target)%nat then negb gate else gate) flags.

(** [setter(prev => f(prev))] with [setter] chosen by [circuit]; [None]
    when the updater throws. *)
Definition update (c : circuit)
    (f : SelectedGates.t -> option SelectedGates.t)
    (cfg : GateConfiguration) : option GateConfiguration :=
  match c with
  | A =>
      g ← f (selectedGatesA cfg);
      Some (BuildGateConfiguration g (selectedGatesB cfg)
              (circuitBEnabled cfg) (interCircuitEntanglementEnabled cfg))
  | B =>
      g ← f (selectedGatesB cfg);
      Some (BuildGateConfiguration (selectedGatesA cfg) g
              (circuitBEnabled cfg) (interCircuitEntanglementEnabled cfg))
  end.

Definition toggleGate (c : circuit) (gateType : string) (qubitIdx : nat)
    : GateConfiguration -> option GateConfiguration :=
  update c (fun prev =>
    flags ← gates_of gateType prev;
    Some (with_gates gateType (flip qubitIdx flags) prev)).

Definition toggleSwapGate (c : circuit) (pairIdx : nat)
    : GateConfiguration -> option GateConfiguration :=
  update c (fun prev =>
    Some (with_gates "swap" (flip pairIdx (SelectedGates.swap prev)) prev)).

Definition toggleCCNOTGate (c : circuit) (pairIdx : nat)
    : GateConfiguration -> option GateConfiguration :=
  update c (fun prev =>
    Some (with_gates "ccnot" (flip pairIdx (SelectedGates.ccnot prev)) prev)).

(** What [handleReconstruction] does: nothing without a first circuit,
    otherwise it hands the result to [setReconstructionData], unless the
    wormhole service throws. *)
Inductive reconstruction :=
| NotRun
| Threw
| Reconstructed (results : Types.ReconstructionResult).

(** [{ id: 'B', qubits: Array.from({length: 5}, ...) }] *)
Definition placeholderB : Types.Circuit :=
  Types.BuildCircuit "B"
    (map (fun i => Types.BuildQubit i 0 0 1.0 None None) (seq 0 5)).

Definition handleReconstruction
    (quantumCircuitA quantumCircuitB : option QuantumCircuit.t)
    (circuitBEnabled : bool) : reconstruction :=
  match quantumCircuitA with
  | None => NotRun
  | Some quantumCircuitA =>
      let circuitA_typed := Wormhole.convertToCircuitType quantumCircuitA in
      let circuitB_typed :=
        match (if circuitBEnabled then quantumCircuitB else None) with
        | Some quantumCircuitB => Wormhole.convertToCircuitType quantumCircuitB
        | None => placeholderB
        end in
      match Wormhole.createWormholeFragmentationSystem
              circuitA_typed circuitB_typed with
      | None => Threw
      | Some fragmentationSystem =>
          match Wormhole.reconstructWithWormholeGeometry fragmentationSystem with
          | None => Threw
          | Some results => Reconstructed results
          end
      end
  end.

End Handlers.

(** * The metrics of the animation loop *)

Module Animation.

(** [[...quantumCircuitA.qubits]], with the qubits of the second circuit
    pushed when it exists and is enabled. *)
Definition allQubits (quantumCircuitA : QuantumCircuit.t)
    (quantumCircuitB : option QuantumCircuit.t) (circuitBEnabled : bool)
    : list Qubit.t :=
  (QuantumCircuit.qubits quantumCircuitA
   ++ match quantumCircuitB with
      | Some b => if circuitBEnabled then QuantumCircuit.qubits b else []
      | None => []
      end)%list.

(** The value given to [setPhaseVector]. *)
Definition phaseVector (allQubits : list Qubit.t) : R * R :=
  let '(sumX, sumY) :=
    forEach (fun q _ '(sumX, sumY) =>
               (sumX + cos (Qubit.phase q), sumY + sin (Qubit.phase q)))
            allQubits (0, 0) in
  (sumX / INR (length allQubits), sumY / INR (length allQubits)).

(** [framework.streamlines.reduce(...) / framework.streamlines.length] *)
Definition streamlineCoherence (framework : QuantumLaminarFlow.t) : R :=
  fold_left (fun sum s => sum + QuantumStreamline.coherenceLength s)
            (QuantumLaminarFlow.streamlines framework) 0
  / INR (length (QuantumLaminarFlow.streamlines framework)).

(** [prev.slice(-100)]: the last 100 entries, all of them when there are
    fewer. *)
Definition slice_last {M} (count : nat) (prev : list M) : list M :=
  drop (length prev - count) prev.

(** [setMetricsHistory(prev => [...prev.slice(-100), newMetric])] *)
Definition pushMetric {M} (prev : list M) (newMetric : M) : list M :=
  (slice_last 100 prev ++ [newMetric])%list.

End Animation.

(** * Properties *)

(** Evaluate the list and record structure of a construction, leaving the
    arithmetic on real numbers as it is written. *)
Ltac run :=
  cbv -[Rplus Rminus Rmult Rdiv Rinv Ropp sqrt Rabs pow cos sin exp PI
        Rlt_dec Rgt_dec IZR INR Rltb Rgtb Rmax Rmin].

Lemma Rltb_true x y : x < y -> Rltb x y = true.
Proof. intros H. unfold Rltb. destruct (Rlt_dec x y); [reflexivity | contradiction]. Qed.

Lemma Rltb_false x y : ~ x < y -> Rltb x y = false.
Proof. intros H. unfold Rltb. destruct (Rlt_dec x y); [contradiction | reflexivity]. Qed.

Lemma Rgtb_true x y : x > y -> Rgtb x y = true.
Proof. intros H. unfold Rgtb. destruct (Rgt_dec x y); [reflexivity | contradiction]. Qed.

Lemma Rgtb_false x y : ~ x > y -> Rgtb x y = false.
Proof. intros H. unfold Rgtb. destruct (Rgt_dec x y); [contradiction | reflexivity]. Qed.

Lemma sqrt2_pos : 0 < sqrt 2.
Proof. apply sqrt_lt_R0. lra. Qed.

Lemma sqrt2_sqr : sqrt 2 * sqrt 2 = 2.
Proof. apply sqrt_def. lra. Qed.

(** ** Qubit *)

Section QubitFacts.
Variable random : nat -> R.

(** C2. [measure] draws one sample [r = random n]; when [r < |state[0]|^2]
    it returns 0 and leaves the state [[1, 0]], otherwise it returns 1 and
    leaves the state [[0, 1]].  So the result is 0 or 1 and the state
    afterwards is the basis state of the result. *)
Theorem measure_collapses (q : Qubit.t) (n : nat) :
  let r := random n in
  let prob0 := Rabs (fst (Qubit.state q)) ^ 2 in
  (r < prob0 ->
     Qubit.measure random q n = ((0%nat, Qubit.set_state (1, 0) q), S n))
  /\ (~ r < prob0 ->
     Qubit.measure random q n = ((1%nat, Qubit.set_state (0, 1) q), S n))
  /\ exists (b : nat) (q' : Qubit.t),
       Qubit.measure random q n = ((b, q'), S n)
       /\ (b = 0%nat /\ Qubit.state q' = (1, 0)
           \/ b = 1%nat /\ Qubit.state q' = (0, 1)).
Proof.
  intros r prob0.
  assert (Hlt : r < prob0 ->
            Qubit.measure random q n = ((0%nat, Qubit.set_state (1, 0) q), S n)).
  { intros H. unfold Qubit.measure, bind, Qubit.draw.
    fold r prob0. now rewrite (Rltb_true _ _ H). }
  assert (Hge : ~ r < prob0 ->
            Qubit.measure random q n = ((1%nat, Qubit.set_state (0, 1) q), S n)).
  { intros H. unfold Qubit.measure, bind, Qubit.draw.
    fold r prob0. now rewrite (Rltb_false _ _ H). }
  repeat split; try assumption.
  destruct (Rlt_dec r prob0) as [H | H].
  - exists 0%nat, (Qubit.set_state (1, 0) q). split; [auto | left; split; reflexivity].
  - exists 1%nat, (Qubit.set_state (0, 1) q). split; [auto | right; split; reflexivity].
Qed.
End QubitFacts.

(** A sample below [|1|^2]: the qubit [[1, 0]] measures 0. *)
Lemma measure_collapses_witness :
  0.25 < Rabs 1 ^ 2
  /\ Qubit.measure (fun _ => 0.25) (Qubit.new "A0") 0%nat
     = ((0%nat, Qubit.set_state (1, 0) (Qubit.new "A0")), 1%nat).
Proof.
  assert (H : 0.25 < Rabs 1 ^ 2) by (rewrite Rabs_R1; lra).
  split; [exact H | ].
  exact (proj1 (measure_collapses (fun _ => 0.25) (Qubit.new "A0") 0%nat) H).
Defined.

(** In exact arithmetic two Hadamard gates give back [[1, 0]]. *)
Lemma hadamard_hadamard_state (q : Qubit.t) :
  Qubit.state q = (1, 0) ->
  Qubit.state (Qubit.hadamard (Qubit.hadamard q)) = (1, 0).
Proof.
  intros Hq. unfold Qubit.hadamard at 2. rewrite Hq.
  unfold Qubit.hadamard. cbn.
  pose proof sqrt2_pos as Hpos. pose proof sqrt2_sqr as Hsqr.
  f_equal.
  - apply (Rmult_eq_reg_r (sqrt 2 * sqrt 2)); [ | nra].
    field_simplify; [ | lra]. nra.
  - field. lra.
Qed.

(** ** The two construction scenarios *)

Lemma half_state : ((1 + 0) / sqrt 2, (1 - 0) / sqrt 2) = (1 / sqrt 2, 1 / sqrt 2).
Proof. pose proof sqrt2_pos. f_equal; field; lra. Qed.

Lemma half_prob : Rabs (1 / sqrt 2) ^ 2 = 0.5.
Proof.
  rewrite pow2_abs. pose proof sqrt2_pos as Hpos. pose proof sqrt2_sqr as Hsqr.
  apply (Rmult_eq_reg_r (sqrt 2 * sqrt 2)); [ | nra].
  field_simplify; [ | lra]. nra.
Qed.

(** [getSystemProbability] reads only the states. *)
Lemma getSystemProbability_states (c : QuantumCircuit.t) :
  QuantumCircuit.getSystemProbability c
  = fold_left (fun prob s => prob * Rabs (snd s) ^ 2)
              (map Qubit.state (QuantumCircuit.qubits c)) 1.
Proof.
  unfold QuantumCircuit.getSystemProbability.
  generalize 1. induction (QuantumCircuit.qubits c) as [ | q qs IH]; intros r.
  - reflexivity.
  - cbn. apply IH.
Qed.

Lemma hadamard_only_states :
  map Qubit.state
      (QuantumCircuit.qubits (QuantumCircuit.new 5 "A" (Some Scenario.hadamardOnly)))
  = List.repeat (1 / sqrt 2, 1 / sqrt 2) 5.
Proof. run. now rewrite half_state. Qed.

(** C3 (amended). A 5-qubit circuit built with only [hadamard] selected has
    every qubit in state [[1/sqrt 2, 1/sqrt 2]] (both components positive), so
    [prob1 = 0.5] for each, and [getSystemProbability()] is [0.5^5 = 0.03125]
    in exact arithmetic. *)
Theorem hadamard_only_circuit :
  let c := QuantumCircuit.new 5 "A" (Some Scenario.hadamardOnly) in
  length (QuantumCircuit.qubits c) = 5%nat
  /\ Forall (fun q => Qubit.state q = (1 / sqrt 2, 1 / sqrt 2)
                      /\ Qubit.getProbability1 q = 0.5)
            (QuantumCircuit.qubits c)
  /\ QuantumCircuit.getSystemProbability c = 0.03125.
Proof.
  intros c. pose proof hadamard_only_states as Hs. fold c in Hs.
  split; [ | split].
  - rewrite <- (length_map Qubit.state), Hs. reflexivity.
  - apply (Forall_fmap Qubit.state
             (fun s => s = (1 / sqrt 2, 1 / sqrt 2) /\ Rabs (snd s) ^ 2 = 0.5)).
    change (Qubit.state <$> QuantumCircuit.qubits c)
      with (map Qubit.state (QuantumCircuit.qubits c)).
    rewrite Hs. repeat constructor; cbn [snd]; apply half_prob.
  - rewrite getSystemProbability_states, Hs. cbn [List.repeat fold_left snd].
    rewrite half_prob. lra.
Qed.

(** C3, as stated, fails: the second component of every state is
    [+1/sqrt 2], not [-1/sqrt 2]. *)
Lemma hadamard_only_counterexample :
  ~ (let c := QuantumCircuit.new 5 "A" (Some Scenario.hadamardOnly) in
     Forall (fun q => Qubit.state q = (1 / sqrt 2, - 1 / sqrt 2)
                      /\ Qubit.getProbability1 q = 0.5)
            (QuantumCircuit.qubits c)
     /\ QuantumCircuit.getSystemProbability c = 0.03125).
Proof.
  intros [H _].
  apply (Forall_fmap Qubit.state
           (fun s => s = (1 / sqrt 2, - 1 / sqrt 2) /\ Rabs (snd s) ^ 2 = 0.5))
    in H.
  change (Qubit.state <$> ?l) with (map Qubit.state l) in H.
  rewrite hadamard_only_states in H.
  apply Forall_inv in H. destruct H as [H _].
  apply (f_equal snd) in H. cbn [snd] in H.
  pose proof sqrt2_pos as Hpos.
  assert (H1 : 1 / sqrt 2 * sqrt 2 = - (1) / sqrt 2 * sqrt 2) by (now rewrite H).
  field_simplify in H1; lra.
Qed.

(** C8. A 5-qubit circuit built with only the CCNOT toggle (0, 1, 2) selected:
    both controls have [prob1 = 0], the [pauliX] of the target is not applied
    and qubit 2 keeps the state [[1, 0]]; qubits 0, 1 and 2 are entangled. *)
Theorem ccnot_only_circuit (circuitId : string) :
  let c := QuantumCircuit.new 5 circuitId (Some Scenario.ccnotOnly) in
  let qs := QuantumCircuit.qubits c in
  Qubit.state <$> qs !! 2%nat = Some (1, 0)
  /\ Qubit.appliedGates <$> qs !! 2%nat = Some []
  /\ Qubit.getProbability1 <$> qs !! 0%nat = Some 0
  /\ Qubit.getProbability1 <$> qs !! 1%nat = Some 0
  /\ Qubit.entangled <$> qs !! 0%nat = Some true
  /\ Qubit.entangled <$> qs !! 1%nat = Some true
  /\ Qubit.entangled <$> qs !! 2%nat = Some true.
Proof.
  assert (Hno : Rgtb (Rabs 0 ^ 2) (5 * / 10) = false).
  { apply Rgtb_false. rewrite Rabs_R0. lra. }
  run. rewrite Hno.
  assert (Hz : Rabs 0 ^ 2 = 0) by (rewrite Rabs_R0; lra).
  rewrite ?Hz. repeat split; reflexivity.
Qed.

(** The statements that mention binary64 values. *)
Module Rounding.
Import PrimFloat.

(** C7. Two Hadamard gates on a qubit in state [[1, 0]] give [[1, 0]]
    again: exactly so in real arithmetic, and in binary64 arithmetic as
    [[0.99999999999999989, 0]], which is 2^-53 below 1. *)
Theorem hadamard_twice (q : Qubit.t) :
  Qubit.state q = (1, 0)%R ->
  Qubit.state (Qubit.hadamard (Qubit.hadamard q)) = (1, 0)%R
  /\ (let s := Binary64.hadamard (Binary64.hadamard (1, 0)%float) in
      snd s = 0%float
      /\ (1 - fst s = 0x1p-53)%float
      /\ (abs (fst s - 1) <=? 0x1p-52)%float = true).
Proof.
  intros Hq. split; [now apply hadamard_hadamard_state | ].
  vm_compute. repeat split; reflexivity.
Qed.

Lemma hadamard_twice_witness :
  Qubit.state (Qubit.new "A0") = (1, 0)%R
  /\ Qubit.state (Qubit.hadamard (Qubit.hadamard (Qubit.new "A0"))) = (1, 0)%R.
Proof.
  split; [reflexivity | ].
  exact (proj1 (hadamard_twice (Qubit.new "A0") eq_refl)).
Defined.
(** In binary64 arithmetic the scenario of C3 gives a system probability
    just below [0.03125 = 2^-5]: each [prob1] is [0.49999999999999989]. *)
Lemma hadamard_only_binary64 :
  let p := Binary64.getSystemProbability Binary64.hadamardOnly in
  (p <? 0x1p-5)%float = true
  /\ (0x1p-5 - p <=? 0x1p-50)%float = true
  /\ forallb (fun s => (Binary64.getProbability1 s <? 0x1p-1)%float)
             Binary64.hadamardOnly = true.
Proof. vm_compute. repeat split; reflexivity. Qed.

End Rounding.

(** ** QuantumCircuit: what the methods leave unchanged *)

Module CircuitFacts.
Import QuantumCircuit CircuitInvariant.

Create HintDb keeps_id.

Lemma keeps_id_compose m1 m2 :
  keeps_id m1 -> keeps_id m2 -> keeps_id (fun q => m1 (m2 q)).
Proof. intros H1 H2 q. now rewrite H1, H2. Qed.

Lemma keeps_id_set_state s : keeps_id (Qubit.set_state s).
Proof. now intros q. Qed.
Lemma keeps_id_set_phase p : keeps_id (Qubit.set_phase p).
Proof. now intros q. Qed.
Lemma keeps_id_set_entangled b : keeps_id (Qubit.set_entangled b).
Proof. now intros q. Qed.
Lemma keeps_id_push_entangledWith p : keeps_id (Qubit.push_entangledWith p).
Proof. now intros q. Qed.
Lemma keeps_id_push_appliedGates g : keeps_id (Qubit.push_appliedGates g).
Proof. now intros q. Qed.
Lemma keeps_id_hadamard : keeps_id Qubit.hadamard.
Proof. intros q. unfold Qubit.hadamard. now destruct (Qubit.state q). Qed.
Lemma keeps_id_pauliX : keeps_id Qubit.pauliX.
Proof. now intros q. Qed.
Lemma keeps_id_pauliY : keeps_id Qubit.pauliY.
Proof. intros q. unfold Qubit.pauliY. now destruct (Qubit.state q). Qed.
Lemma keeps_id_pauliZ : keeps_id Qubit.pauliZ.
Proof. now intros q. Qed.
Lemma keeps_id_rotationX theta : keeps_id (Qubit.rotationX theta).
Proof. intros q. unfold Qubit.rotationX. now destruct (Qubit.state q). Qed.
Lemma keeps_id_rotationY theta : keeps_id (Qubit.rotationY theta).
Proof. intros q. unfold Qubit.rotationY. now destruct (Qubit.state q). Qed.
Lemma keeps_id_rotationZ theta : keeps_id (Qubit.rotationZ theta).
Proof. intros q. unfold Qubit.rotationZ. now destruct (Qubit.state q). Qed.
Lemma keeps_id_tGate : keeps_id Qubit.tGate.
Proof. now intros q. Qed.
Lemma keeps_id_reset : keeps_id Qubit.reset.
Proof. now intros q. Qed.

#[local] Hint Resolve keeps_id_set_state keeps_id_set_phase keeps_id_set_entangled
  keeps_id_push_entangledWith keeps_id_push_appliedGates keeps_id_hadamard
  keeps_id_pauliX keeps_id_pauliY keeps_id_pauliZ keeps_id_rotationX
  keeps_id_rotationY keeps_id_rotationZ keeps_id_tGate keeps_id_reset
  : keeps_id.

Lemma ids_alter m i (qs : list Qubit.t) :
  keeps_id m -> map Qubit.id (alter m i qs) = map Qubit.id qs.
Proof.
  intros Hm. revert i. induction qs as [ | q qs IH]; intros [ | i]; cbn;
    try reflexivity.
  - now rewrite Hm.
  - now rewrite IH.
Qed.

Lemma ids_imap (f : nat -> Qubit.t -> Qubit.t) (qs : list Qubit.t) :
  (forall i, keeps_id (f i)) -> map Qubit.id (imap f qs) = map Qubit.id qs.
Proof.
  revert f. induction qs as [ | q qs IH]; intros f Hf; cbn; [reflexivity | ].
  rewrite Hf. f_equal. apply IH. intros i. apply Hf.
Qed.

Lemma frame_refl c : frame c c.
Proof. now constructor. Qed.

Lemma frame_trans c1 c2 c3 : frame c1 c2 -> frame c2 c3 -> frame c1 c3.
Proof. intros [] []. constructor; congruence. Qed.

Lemma only_qubits_refl c : only_qubits c c.
Proof. constructor; [apply frame_refl | reflexivity | reflexivity]. Qed.

Lemma only_qubits_trans c1 c2 c3 :
  only_qubits c1 c2 -> only_qubits c2 c3 -> only_qubits c1 c3.
Proof.
  intros [F1 H1 C1] [F2 H2 C2].
  constructor; [eapply frame_trans; eassumption | congruence | congruence].
Qed.

Lemma only_qubits_on_qubit i m c :
  keeps_id m -> only_qubits c (on_qubit i m c).
Proof.
  intros Hm. constructor; [constructor | | ]; try reflexivity.
  cbn. now apply ids_alter.
Qed.

(** A [forEach] whose body keeps a relation to the initial state keeps it. *)
Lemma forEach_from_invariant {A St} (P : St -> Prop)
    (body : A -> nat -> St -> St) (arr : list A) :
  (forall a i s, P s -> P (body a i s)) ->
  forall i s, P s -> P (forEach_from body i arr s).
Proof.
  intros Hbody. induction arr as [ | a arr IH]; intros i s Hs; cbn.
  - exact Hs.
  - apply IH, Hbody, Hs.
Qed.

Lemma forEach_invariant {A St} (P : St -> Prop)
    (body : A -> nat -> St -> St) (arr : list A) (s : St) :
  (forall a i s, P s -> P (body a i s)) -> P s -> P (forEach body arr s).
Proof. intros Hbody. now apply forEach_from_invariant. Qed.

Ltac chain :=
  repeat first
    [ apply only_qubits_refl
    | eapply only_qubits_trans;
      [ | apply only_qubits_on_qubit; auto with keeps_id ] ].

Lemma only_qubits_entangleQubits i j c : only_qubits c (entangleQubits i j c).
Proof.
  unfold entangleQubits.
  destruct ((i <? numQubits c)%nat && (j <? numQubits c)%nat); chain.
Qed.

Lemma only_qubits_swap i j c : only_qubits c (swap i j c).
Proof.
  unfold swap.
  destruct ((i <? numQubits c)%nat && (j <? numQubits c)%nat);
    [ | apply only_qubits_refl].
  destruct (qubits c !! i), (qubits c !! j); chain.
Qed.

Lemma only_qubits_ccnot c1 c2 tgt c : only_qubits c (ccnot c1 c2 tgt c).
Proof.
  unfold ccnot.
  destruct ((c1 <? numQubits c)%nat && (c2 <? numQubits c)%nat
            && (tgt <? numQubits c)%nat); [ | apply only_qubits_refl].
  set (c' := entangleQubits c1 c2 _).
  assert (H : only_qubits c c').
  { subst c'. repeat (eapply only_qubits_trans;
                      [ | apply only_qubits_entangleQubits]).
    apply only_qubits_refl. }
  destruct (qubits c' !! c1), (qubits c' !! c2); try exact H.
  destruct (Rgtb _ _ && Rgtb _ _); [ | exact H].
  eapply only_qubits_trans; [exact H | ].
  apply only_qubits_on_qubit; auto with keeps_id.
Qed.

Lemma only_qubits_createIntraCircuitEntanglement c :
  only_qubits c (createIntraCircuitEntanglement c).
Proof.
  unfold createIntraCircuitEntanglement.
  apply (forEach_invariant (only_qubits c)); [ | apply only_qubits_refl].
  intros [i j] _ s Hs.
  destruct ((i <? numQubits s)%nat && (j <? numQubits s)%nat); [ | exact Hs].
  eapply only_qubits_trans; [exact Hs | apply only_qubits_entangleQubits].
Qed.

Lemma keeps_id_applySelectedGates g i : keeps_id (applySelectedGates g i).
Proof.
  intros q. unfold applySelectedGates.
  repeat match goal with
         | |- context [if ?b then _ else _] => destruct b
         end;
    repeat first [ rewrite keeps_id_tGate | rewrite keeps_id_rotationZ
                 | rewrite keeps_id_rotationY | rewrite keeps_id_rotationX
                 | rewrite keeps_id_pauliZ | rewrite keeps_id_pauliY
                 | rewrite keeps_id_pauliX | rewrite keeps_id_hadamard ];
    reflexivity.
Qed.

Lemma only_qubits_setupCircuit c : only_qubits c (setupCircuit c).
Proof.
  unfold setupCircuit. destruct (selectedGates c) as [g | ];
    [ | apply only_qubits_refl].
  apply (forEach_invariant (only_qubits c)).
  { intros [ | ] i s Hs; [ | exact Hs].
    eapply only_qubits_trans; [exact Hs | apply only_qubits_ccnot]. }
  apply (forEach_invariant (only_qubits c)).
  { intros [ | ] i s Hs; [ | exact Hs].
    eapply only_qubits_trans; [exact Hs | apply only_qubits_swap]. }
  eapply only_qubits_trans; [ | apply only_qubits_createIntraCircuitEntanglement].
  constructor; [constructor | | ]; try reflexivity.
  cbn. apply ids_imap. intros i. apply keeps_id_applySelectedGates.
Qed.

Lemma only_qubits_evolve dt c : only_qubits c (evolve dt c).
Proof.
  constructor; [constructor | | ]; try reflexivity.
  cbn. apply ids_imap. intros i q. now rewrite keeps_id_rotationZ.
Qed.

Lemma only_qubits_keeps_history c c' : only_qubits c c' -> keeps_history c c'.
Proof. intros [F H _]. now constructor. Qed.

Lemma keeps_history_refl c : keeps_history c c.
Proof. apply only_qubits_keeps_history, only_qubits_refl. Qed.

Lemma keeps_history_trans c1 c2 c3 :
  keeps_history c1 c2 -> keeps_history c2 c3 -> keeps_history c1 c3.
Proof.
  intros [F1 H1] [F2 H2].
  constructor; [eapply frame_trans; eassumption | congruence].
Qed.

Lemma keeps_history_connect conn a b a0 b0 :
  keeps_history a0 a -> keeps_history b0 b ->
  keeps_history a0 (fst (connect conn (a, b)))
  /\ keeps_history b0 (snd (connect conn (a, b))).
Proof.
  intros Ha Hb. unfold connect. destruct conn as [thisQubit otherQubit].
  destruct ((thisQubit <? numQubits a)%nat && (otherQubit <? numQubits b)%nat);
    [ | now split].
  destruct (qubits a !! thisQubit), (qubits b !! otherQubit); try now split.
  cbn [fst snd]. split.
  - eapply keeps_history_trans; [exact Ha | ].
    apply only_qubits_keeps_history. chain.
  - eapply keeps_history_trans; [exact Hb | ].
    apply only_qubits_keeps_history. chain.
Qed.

Lemma keeps_history_createInterCircuitEntanglement this otherCircuit connections :
  keeps_history this
    (fst (createInterCircuitEntanglement this otherCircuit connections))
  /\ keeps_history otherCircuit
    (snd (createInterCircuitEntanglement this otherCircuit connections)).
Proof.
  unfold createInterCircuitEntanglement.
  apply (forEach_invariant
           (fun cs => keeps_history this (fst cs)
                      /\ keeps_history otherCircuit (snd cs))).
  - intros conn _ [a b] [Ha Hb]. now apply keeps_history_connect.
  - split; [ | apply keeps_history_refl].
    constructor; [constructor | ]; reflexivity.
Qed.

Lemma frame_resetCircuit c : frame c (resetCircuit c).
Proof.
  unfold resetCircuit.
  eapply frame_trans; [ | apply only_qubits_setupCircuit].
  constructor; try reflexivity.
  cbn. rewrite map_map. apply map_ext. intros q. apply keeps_id_reset.
Qed.

Lemma resetCircuit_cleared c :
  measurementHistory (resetCircuit c) = []
  /\ interCircuitConnections (resetCircuit c) = [].
Proof.
  unfold resetCircuit.
  match goal with |- context [setupCircuit ?c0] =>
    destruct (only_qubits_setupCircuit c0) as [_ H C] end.
  rewrite H, C. now split.
Qed.

(** ** Measuring all qubits *)

Lemma mapR_cons {A B} (f : A -> Rand B) (a : A) (l : list A) (n : nat) :
  mapR f (a :: l) n
  = let '(b, n1) := f a n in
    let '(bs, n2) := mapR f l n1 in (b :: bs, n2).
Proof. reflexivity. Qed.

Section MeasureAllFacts.
Variable random : nat -> R.

Lemma measure_cases (q : Qubit.t) (n : nat) :
  exists b s,
    Qubit.measure random q n = ((b, Qubit.set_state s q), S n)
    /\ (b = 0%nat \/ b = 1%nat).
Proof.
  unfold Qubit.measure, bind, Qubit.draw.
  destruct (Rltb _ _); cbn; eauto.
Qed.

Lemma mapR_measure (qs : list Qubit.t) (n : nat) :
  let r := mapR (Qubit.measure random) qs n in
  length (fst r) = length qs
  /\ map (fun m => Qubit.id (snd m)) (fst r) = map Qubit.id qs
  /\ Forall (fun m => fst m = 0%nat \/ fst m = 1%nat) (fst r).
Proof.
  revert n. induction qs as [ | q qs IH]; intros n.
  - repeat split; constructor.
  - rewrite mapR_cons.
    destruct (measure_cases q n) as (b & s & -> & Hb).
    specialize (IH (S n)).
    destruct (mapR (Qubit.measure random) qs (S n)) as [ms n'].
    cbn [fst snd map length] in *. destruct IH as (Hlen & Hids & Hbits).
    repeat split; [now rewrite Hlen | now rewrite Hids | now constructor].
Qed.

(** What [measureAll] returns and what it makes of the history. *)
Lemma measureAll_spec (now : Z) (c : t) (n : nat) :
  let r := measureAll random now c n in
  let results := fst (fst r) in
  let c' := snd (fst r) in
  frame c c'
  /\ length results = length (qubits c)
  /\ Forall (fun b => b = 0%nat \/ b = 1%nat) results
  /\ interCircuitConnections c' = interCircuitConnections c
  /\ exists probabilities,
       let h := (measurementHistory c
                 ++ [BuildMeasurement now results probabilities])%list in
       length probabilities = length (qubits c)
       /\ measurementHistory c' = if (100 <? length h)%nat then tail h else h.
Proof.
  unfold measureAll, bind.
  pose proof (mapR_measure (qubits c) n) as H. cbn in H.
  destruct (mapR (Qubit.measure random) (qubits c) n) as [measured n'].
  cbn [fst snd] in H. destruct H as (Hlen & Hids & Hbits).
  cbn [ret fst snd].
  set (results := map fst measured).
  set (snap := BuildMeasurement now results _).
  assert (Hres : length results = length (qubits c))
    by (subst results; now rewrite length_map).
  assert (Hbits' : Forall (fun b => b = 0%nat \/ b = 1%nat) results).
  { subst results. clear -Hbits. induction Hbits; cbn; constructor; auto. }
  cbn [measurementHistory set_measurementHistory set_qubits].
  assert (Hframe : forall h,
            frame c (set_measurementHistory h (set_qubits (map snd measured) c))).
  { intros h. constructor; try reflexivity. cbn. now rewrite map_map. }
  split; [ | split; [exact Hres | split; [exact Hbits' | split]]].
  - destruct (100 <? _)%nat; [ | apply Hframe].
    apply (Hframe (tail _)).
  - now destruct (100 <? _)%nat.
  - exists (probabilities snap). split.
    + subst snap. cbn. now rewrite !length_map.
    + fold snap. now destruct (100 <? _)%nat.
Qed.

Lemma measureAll_bounded (now : Z) (c : t) (n : nat) :
  (length (measurementHistory c) <= 100)%nat ->
  (length (measurementHistory (snd (fst (measureAll random now c n)))) <= 100)%nat.
Proof.
  intros Hle.
  destruct (measureAll_spec now c n) as (_ & _ & _ & _ & probs & _ & ->).
  match goal with |- context [BuildMeasurement ?a ?b ?c] =>
    generalize (BuildMeasurement a b c) end.
  intros snap.
  destruct (100 <? length (measurementHistory c ++ [snap])%list)%nat eqn:Hfull.
  - destruct (measurementHistory c) as [ | m h]; cbn in *; [lia | ].
    rewrite length_app in *. cbn in *. lia.
  - apply Nat.ltb_ge in Hfull. exact Hfull.
Qed.
End MeasureAllFacts.

(** ** Invariants of the circuits a program can reach *)

Lemma frame_wf c c' : frame c c' -> wf c -> wf c'.
Proof.
  intros [Hn Hid Hg _ Hids] [Hgates Hwf]. unfold wf.
  rewrite Hn, Hid, Hg, Hids. now split.
Qed.

Lemma frame_new numQubits circuitId selectedGates :
  let c := new numQubits circuitId selectedGates in
  QuantumCircuit.numQubits c = numQubits
  /\ QuantumCircuit.circuitId c = circuitId
  /\ QuantumCircuit.selectedGates c = selectedGates
  /\ measurementHistory c = []
  /\ interCircuitConnections c = []
  /\ wf c.
Proof.
  unfold new.
  match goal with |- context [setupCircuit ?c0] =>
    destruct (only_qubits_setupCircuit c0) as [F H C];
    pose proof (frame_wf _ _ F) as Hwf; destruct F as [F1 F2 F3 F4 F5] end.
  cbn in *. split; [ | split; [ | split; [ | split; [ | split]]]];
    try assumption.
  apply Hwf. split; [reflexivity | ]. cbn. now rewrite map_map.
Qed.

Lemma step_frame c c' : step c c' -> frame c c'.
Proof.
  intros [c0 dt | c0 random now n | c0 | c0 other conns | this c0 conns
          | c0 | c0 c1 c2 tgt | c0 i j | c0 | c0 i j].
  - apply only_qubits_evolve.
  - apply (measureAll_spec random now c0 n).
  - apply frame_resetCircuit.
  - apply keeps_history_createInterCircuitEntanglement.
  - apply keeps_history_createInterCircuitEntanglement.
  - apply only_qubits_setupCircuit.
  - apply only_qubits_ccnot.
  - apply only_qubits_swap.
  - apply only_qubits_createIntraCircuitEntanglement.
  - apply only_qubits_entangleQubits.
Qed.

Lemma step_bounded c c' :
  step c c' ->
  (length (measurementHistory c) <= 100)%nat ->
  (length (measurementHistory c') <= 100)%nat.
Proof.
  intros [c0 dt | c0 random now n | c0 | c0 other conns | this c0 conns
          | c0 | c0 c1 c2 tgt | c0 i j | c0 | c0 i j] Hle.
  - now rewrite (only_history _ _ (only_qubits_evolve dt c0)).
  - now apply measureAll_bounded.
  - rewrite (proj1 (resetCircuit_cleared c0)). cbn. lia.
  - now rewrite (keeps_measurementHistory _ _
        (proj1 (keeps_history_createInterCircuitEntanglement c0 other conns))).
  - now rewrite (keeps_measurementHistory _ _
        (proj2 (keeps_history_createInterCircuitEntanglement this c0 conns))).
  - now rewrite (only_history _ _ (only_qubits_setupCircuit c0)).
  - now rewrite (only_history _ _ (only_qubits_ccnot c1 c2 tgt c0)).
  - now rewrite (only_history _ _ (only_qubits_swap i j c0)).
  - now rewrite (only_history _ _ (only_qubits_createIntraCircuitEntanglement c0)).
  - now rewrite (only_history _ _ (only_qubits_entangleQubits i j c0)).
Qed.

Lemma reachable_frame c0 c : reachable c0 c -> frame c0 c.
Proof.
  induction 1 as [ | c1 c2 c3 Hstep _ IH]; [apply frame_refl | ].
  eapply frame_trans; [apply step_frame, Hstep | exact IH].
Qed.

Lemma reachable_bounded c0 c :
  reachable c0 c ->
  (length (measurementHistory c0) <= 100)%nat ->
  (length (measurementHistory c) <= 100)%nat.
Proof.
  induction 1 as [ | c1 c2 c3 Hstep _ IH]; [auto | ].
  intros Hle. apply IH. eapply step_bounded; eassumption.
Qed.

Lemma resetCircuit_fresh c :
  wf c -> resetCircuit c = new (numQubits c) (circuitId c) (selectedGates c).
Proof.
  intros [Hgates Hids]. unfold resetCircuit, new. f_equal.
  unfold set_interCircuitConnections, set_measurementHistory, set_qubits.
  cbn. rewrite Hgates. f_equal.
  transitivity (map Qubit.new (map Qubit.id (qubits c))).
  - rewrite map_map. reflexivity.
  - rewrite Hids, map_map. reflexivity.
Qed.

Lemma reachable_new numQubits circuitId selectedGates c :
  reachable (new numQubits circuitId selectedGates) c ->
  QuantumCircuit.numQubits c = numQubits
  /\ QuantumCircuit.circuitId c = circuitId
  /\ QuantumCircuit.selectedGates c = selectedGates
  /\ length (qubits c) = numQubits
  /\ wf c
  /\ (length (measurementHistory c) <= 100)%nat.
Proof.
  intros Hreach.
  destruct (frame_new numQubits circuitId selectedGates)
    as (Hn & Hid & Hsel & Hhist & _ & Hwf).
  pose proof (reachable_frame _ _ Hreach) as F.
  pose proof (frame_wf _ _ F Hwf) as Hwf'.
  destruct F as [Fn Fid _ Fsel _].
  split; [congruence | split; [congruence | split; [congruence | ]]].
  split; [ | split; [exact Hwf' | ]].
  - destruct Hwf' as [_ Hids]. apply (f_equal (@length _)) in Hids.
    rewrite !length_map, length_seq in Hids. congruence.
  - apply (reachable_bounded _ _ Hreach). rewrite Hhist. cbn. lia.
Qed.

(** C6. [resetCircuit()] on a circuit, whatever was done to it since its
    construction, gives the very circuit that the constructor gives for the
    same [numQubits], [circuitId] and gate selection: the same states, phases,
    flags, partner lists and applied-gate lists; [measurementHistory] and
    [interCircuitConnections] are empty. *)
Theorem resetCircuit_is_fresh numQubits circuitId selectedGates c :
  reachable (new numQubits circuitId selectedGates) c ->
  resetCircuit c = new numQubits circuitId selectedGates
  /\ measurementHistory (resetCircuit c) = []
  /\ interCircuitConnections (resetCircuit c) = [].
Proof.
  intros Hreach.
  destruct (reachable_new _ _ _ _ Hreach) as (Hn & Hid & Hsel & _ & Hwf & _).
  split; [ | apply resetCircuit_cleared].
  rewrite (resetCircuit_fresh c Hwf). congruence.
Qed.

Lemma resetCircuit_is_fresh_witness :
  reachable (new 5 "A" (Some Scenario.mixedA))
            (evolve 0.1 (new 5 "A" (Some Scenario.mixedA)))
  /\ resetCircuit (evolve 0.1 (new 5 "A" (Some Scenario.mixedA)))
     = new 5 "A" (Some Scenario.mixedA).
Proof.
  pose (H := rtc_once _ _ (step_evolve (new 5 "A" (Some Scenario.mixedA)) 0.1)).
  split; [exact H | ].
  exact (proj1 (resetCircuit_is_fresh 5 "A" (Some Scenario.mixedA) _ H)).
Defined.

(** C10. The measurement history of a 5-qubit circuit never has more than
    100 entries, whatever methods were called on the circuit.  A call of
    [measureAll()] returns 5 results, each 0 or 1, appends one snapshot with
    these results to the history and, when that makes 101 entries, drops the
    oldest. *)
Theorem measurementHistory_bounded circuitId selectedGates c :
  reachable (new 5 circuitId selectedGates) c ->
  (length (measurementHistory c) <= 100)%nat
  /\ forall random now n,
       let r := measureAll random now c n in
       let results := fst (fst r) in
       let c' := snd (fst r) in
       length results = 5%nat
       /\ Forall (fun b => b = 0%nat \/ b = 1%nat) results
       /\ (exists probabilities,
             let h := (measurementHistory c
                       ++ [BuildMeasurement now results probabilities])%list in
             length probabilities = 5%nat
             /\ measurementHistory c'
                = if (100 <? length h)%nat then tail h else h)
       /\ (length (measurementHistory c') <= 100)%nat.
Proof.
  intros Hreach.
  destruct (reachable_new _ _ _ _ Hreach) as (_ & _ & _ & Hlen & _ & Hle).
  split; [exact Hle | ].
  intros random now n r results c'.
  destruct (measureAll_spec random now c n)
    as (_ & Hres & Hbits & _ & probs & Hprobs & Hhist).
  fold r in Hres, Hbits, Hhist. fold results in Hres, Hbits, Hhist.
  fold c' in Hhist.
  split; [congruence | split; [exact Hbits | split]].
  - exists probs. split; [congruence | exact Hhist].
  - apply (measureAll_bounded random now c n Hle).
Qed.

(** A run of [k] calls of [measureAll] is a sequence of steps. *)
Lemma reachable_measured random now k c :
  reachable c (fst (Scenario.measured random now k c)).
Proof.
  unfold Scenario.measured. induction k as [ | k IH]; [apply rtc_refl | ].
  change (Nat.iter (S k) ?f ?x) with (f (Nat.iter k f x)).
  cbn beta. cbn [fst].
  eapply rtc_r; [exact IH | apply step_measureAll].
Qed.

(** Each call adds one entry until there are 100. *)
Lemma length_measured random now k c :
  (length (measurementHistory c) <= 100)%nat ->
  length (measurementHistory (fst (Scenario.measured random now k c)))
  = Nat.min (length (measurementHistory c) + k) 100.
Proof.
  intros Hle. unfold Scenario.measured. induction k as [ | k IH]; [cbn; lia | ].
  change (Nat.iter (S k) ?f ?x) with (f (Nat.iter k f x)).
  cbn beta. cbn [fst].
  match goal with |- context [measureAll random now ?ck ?nk] =>
    destruct (measureAll_spec random now ck nk)
      as (_ & _ & _ & _ & probs & _ & ->);
    set (h := measurementHistory ck) in * end.
  rewrite length_app. cbn [length].
  destruct (Nat.ltb_spec 100 (length h + 1)) as [Hlt | Hge].
  - destruct h as [ | m h']; [cbn in Hlt; lia | ].
    cbn [app tail length] in *. rewrite length_app. cbn [length]. lia.
  - rewrite length_app. cbn [length]. lia.
Qed.

Lemma measurementHistory_bounded_witness :
  reachable (new 5 "A" (Some Scenario.mixedA))
    (fst (Scenario.measured (fun _ => 0.25%R) 0%Z 101%nat
            (new 5 "A" (Some Scenario.mixedA))))
  /\ (length (measurementHistory
                (fst (Scenario.measured (fun _ => 0.25%R) 0%Z 101%nat
                        (new 5 "A" (Some Scenario.mixedA))))) <= 100)%nat
  /\ length (measurementHistory
               (fst (Scenario.measured (fun _ => 0.25%R) 0%Z 101%nat
                       (new 5 "A" (Some Scenario.mixedA))))) = 100%nat.
Proof.
  pose (H := reachable_measured (fun _ => 0.25%R) 0%Z 101
               (new 5 "A" (Some Scenario.mixedA))).
  split; [exact H | ].
  split;
    [exact (proj1 (measurementHistory_bounded "A" (Some Scenario.mixedA) _ H))
    | ].
  destruct (frame_new 5 "A" (Some Scenario.mixedA)) as (_ & _ & _ & E & _).
  cbn zeta in E.
  rewrite (length_measured (fun _ => 0.25%R) 0%Z 101
             (new 5 "A" (Some Scenario.mixedA)))
    by (rewrite E; cbn; lia).
  rewrite E. reflexivity.
Defined.

End CircuitFacts.

(** ** Cross-circuit entanglement *)

Module EntanglementFacts.
Import QuantumCircuit CircuitInvariant.

(** The [forEach] of [createInterCircuitEntanglement] is a left fold. *)
Lemma forEach_from_fold {A St} (body : A -> St -> St) (arr : list A) i (s : St) :
  forEach_from (fun a _ s => body a s) i arr s
  = fold_left (fun s a => body a s) arr s.
Proof.
  revert i s. induction arr as [ | a arr IH]; intros i s; cbn; [reflexivity | ].
  apply IH.
Qed.

Lemma createInterCircuitEntanglement_fold this otherCircuit connections :
  createInterCircuitEntanglement this otherCircuit connections
  = fold_left (fun cs conn => connect conn cs) connections
      (set_interCircuitConnections connections this, otherCircuit).
Proof. apply forEach_from_fold. Qed.

Lemma connect_shape conn a b :
  let r := connect conn (a, b) in
  (sized a -> sized (fst r)) /\ (sized b -> sized (snd r))
  /\ circuitId (fst r) = circuitId a /\ circuitId (snd r) = circuitId b.
Proof.
  unfold connect, sized. destruct conn as [i j].
  destruct ((i <? numQubits a)%nat && (j <? numQubits b)%nat); [ | now cbn].
  destruct (qubits a !! i), (qubits b !! j); try now cbn.
  cbn. rewrite !length_alter. auto.
Qed.

(** A connection leaves the qubits it does not name as they are. *)
Lemma connect_other_qubits i' j' a b :
  let r := connect (i', j') (a, b) in
  (forall i, i <> i' -> qubits (fst r) !! i = qubits a !! i)
  /\ (forall j, j <> j' -> qubits (snd r) !! j = qubits b !! j).
Proof.
  unfold connect.
  destruct ((i' <? numQubits a)%nat && (j' <? numQubits b)%nat); [ | now cbn].
  destruct (qubits a !! i'), (qubits b !! j'); try now cbn.
  cbn. split; intros k Hk; rewrite !list_lookup_alter_ne; auto.
Qed.

(** A connection between two qubits in range. *)
Lemma connect_pair i j a b qa qb :
  sized a -> sized b ->
  qubits a !! i = Some qa -> qubits b !! j = Some qb ->
  let r := connect (i, j) (a, b) in
  let avg := avgState (Qubit.state qa) (Qubit.state qb) in
  qubits (fst r) !! i
  = Some (Qubit.push_entangledWith
            (Qubit.Id (circuitId b ++ string_of_nat j))
            (Qubit.set_entangled true (Qubit.set_state avg qa)))
  /\ qubits (snd r) !! j
     = Some (Qubit.push_entangledWith
               (Qubit.Id (circuitId a ++ string_of_nat i))
               (Qubit.set_entangled true (Qubit.set_state avg qb))).
Proof.
  unfold sized. intros Ha Hb Hqa Hqb.
  assert (Hi : (i <? numQubits a)%nat = true).
  { apply Nat.ltb_lt. rewrite <- Ha. eapply lookup_lt_Some, Hqa. }
  assert (Hj : (j <? numQubits b)%nat = true).
  { apply Nat.ltb_lt. rewrite <- Hb. eapply lookup_lt_Some, Hqb. }
  unfold connect. rewrite Hi, Hj, Hqa, Hqb. cbn.
  rewrite !list_lookup_alter_eq, Hqa, Hqb. now cbn.
Qed.

Lemma fold_connect_shape connections a b :
  let r := fold_left (fun cs conn => connect conn cs) connections (a, b) in
  (sized a -> sized (fst r)) /\ (sized b -> sized (snd r))
  /\ circuitId (fst r) = circuitId a /\ circuitId (snd r) = circuitId b.
Proof.
  revert a b. induction connections as [ | conn rest IH]; intros a b;
    cbn [fold_left].
  - cbn. auto.
  - destruct (connect_shape conn a b) as (Sa & Sb & Ia & Ib).
    destruct (connect conn (a, b)) as [a' b']. cbn [fst snd] in *.
    destruct (IH a' b') as (Sa' & Sb' & Ia' & Ib').
    split; [auto | split; [auto | split]].
    + now rewrite Ia'.
    + now rewrite Ib'.
Qed.

Lemma fold_connect_other_qubits connections a b :
  let r := fold_left (fun cs conn => connect conn cs) connections (a, b) in
  (forall i, ~ In i (map fst connections) -> qubits (fst r) !! i = qubits a !! i)
  /\ (forall j, ~ In j (map snd connections) ->
                qubits (snd r) !! j = qubits b !! j).
Proof.
  revert a b. induction connections as [ | [i' j'] rest IH]; intros a b;
    cbn [fold_left map fst snd].
  - auto.
  - destruct (connect_other_qubits i' j' a b) as (Ha & Hb).
    destruct (connect (i', j') (a, b)) as [a' b']. cbn [fst snd In] in *.
    destruct (IH a' b') as (Ha' & Hb').
    split; intros k Hk.
    + rewrite Ha' by tauto. apply Ha. intros ->. tauto.
    + rewrite Hb' by tauto. apply Hb. intros ->. tauto.
Qed.

Lemma fold_connect_pair connections : forall a b i j qa qb,
  sized a -> sized b ->
  NoDup (map fst connections) -> NoDup (map snd connections) ->
  In (i, j) connections ->
  qubits a !! i = Some qa -> qubits b !! j = Some qb ->
  let r := fold_left (fun cs conn => connect conn cs) connections (a, b) in
  let avg := avgState (Qubit.state qa) (Qubit.state qb) in
  qubits (fst r) !! i
  = Some (Qubit.push_entangledWith
            (Qubit.Id (circuitId b ++ string_of_nat j))
            (Qubit.set_entangled true (Qubit.set_state avg qa)))
  /\ qubits (snd r) !! j
     = Some (Qubit.push_entangledWith
               (Qubit.Id (circuitId a ++ string_of_nat i))
               (Qubit.set_entangled true (Qubit.set_state avg qb))).
Proof.
  induction connections as [ | [i' j'] rest IH];
    intros a b i j qa qb Sa Sb Hfst Hsnd Hin Hqa Hqb; [destruct Hin | ].
  cbn [map fst snd] in Hfst, Hsnd.
  apply NoDup_cons in Hfst as [Hi' Hfst]. apply NoDup_cons in Hsnd as [Hj' Hsnd].
  rewrite list_elem_of_In in Hi', Hj'.
  cbn [fold_left].
  destruct Hin as [Heq | Hin].
  - inversion Heq; subst i' j'.
    destruct (connect_pair i j a b qa qb Sa Sb Hqa Hqb) as (Ea & Eb).
    destruct (connect (i, j) (a, b)) as [a' b']. cbn [fst snd] in Ea, Eb.
    destruct (fold_connect_other_qubits rest a' b') as (Ka & Kb).
    cbn zeta. rewrite Ka, Kb by assumption. now split.
  - assert (Hi : i <> i').
    { intros ->. apply Hi'. change i' with (fst (i', j)). now apply in_map. }
    assert (Hj : j <> j').
    { intros ->. apply Hj'. change j' with (snd (i, j')). now apply in_map. }
    destruct (connect_other_qubits i' j' a b) as (Ka & Kb).
    destruct (connect_shape (i', j') a b) as (Sa' & Sb' & Ia & Ib).
    destruct (connect (i', j') (a, b)) as [a' b']. cbn [fst snd] in *.
    rewrite <- Ia, <- Ib.
    apply IH; auto.
    + now rewrite Ka.
    + now rewrite Kb.
Qed.

(** C4 (amended). For a list of connections in which no qubit of either
    circuit occurs twice, and every pair [(i, j)] of the list that is in
    range: after the call, qubit [i] of the receiving circuit and qubit [j]
    of the other circuit hold the same state, the componentwise sum of their
    two previous states divided by [sqrt 2]; both are marked entangled; each
    has the other's id [`${circuitId}${index}`] appended to [entangledWith]. *)
Theorem createInterCircuitEntanglement_pair
    (this otherCircuit : t) (connections : list (nat * nat))
    (i j : nat) (qa qb : Qubit.t) :
  length (qubits this) = numQubits this ->
  length (qubits otherCircuit) = numQubits otherCircuit ->
  NoDup (map fst connections) -> NoDup (map snd connections) ->
  In (i, j) connections ->
  qubits this !! i = Some qa -> qubits otherCircuit !! j = Some qb ->
  let r := createInterCircuitEntanglement this otherCircuit connections in
  let avg := ((fst (Qubit.state qa) + fst (Qubit.state qb)) / sqrt 2,
              (snd (Qubit.state qa) + snd (Qubit.state qb)) / sqrt 2) in
  exists qa' qb',
    qubits (fst r) !! i = Some qa' /\ qubits (snd r) !! j = Some qb'
    /\ Qubit.state qa' = avg /\ Qubit.state qb' = avg
    /\ Qubit.entangled qa' = true /\ Qubit.entangled qb' = true
    /\ Qubit.entangledWith qa'
       = (Qubit.entangledWith qa
          ++ [Qubit.Id (circuitId otherCircuit ++ string_of_nat j)])%list
    /\ Qubit.entangledWith qb'
       = (Qubit.entangledWith qb
          ++ [Qubit.Id (circuitId this ++ string_of_nat i)])%list.
Proof.
  intros Sa Sb Hfst Hsnd Hin Hqa Hqb r avg.
  subst r. rewrite createInterCircuitEntanglement_fold.
  destruct (fold_connect_pair connections
              (set_interCircuitConnections connections this) otherCircuit
              i j qa qb Sa Sb Hfst Hsnd Hin Hqa Hqb) as (Ea & Eb).
  eexists _, _. split; [exact Ea | split; [exact Eb | ]].
  repeat split.
Qed.

Lemma createInterCircuitEntanglement_pair_witness :
  let this := new 5 "A" None in
  let otherCircuit := new 5 "B" None in
  let r := createInterCircuitEntanglement this otherCircuit [(2, 2)%nat] in
  In (2, 2)%nat [(2, 2)%nat]
  /\ exists qa' qb',
       qubits (fst r) !! 2%nat = Some qa' /\ qubits (snd r) !! 2%nat = Some qb'
       /\ Qubit.state qa' = ((1 + 1) / sqrt 2, (0 + 0) / sqrt 2)
       /\ Qubit.state qb' = ((1 + 1) / sqrt 2, (0 + 0) / sqrt 2)
       /\ Qubit.entangled qa' = true /\ Qubit.entangled qb' = true
       /\ Qubit.entangledWith qa' = [Qubit.Id "B2"]
       /\ Qubit.entangledWith qb' = [Qubit.Id "A2"].
Proof.
  intros this otherCircuit r.
  assert (Hin : In (2, 2)%nat [(2, 2)%nat]) by (left; reflexivity).
  split; [exact Hin | ].
  exact (createInterCircuitEntanglement_pair this otherCircuit [(2, 2)%nat]
           2 2 (Qubit.new "A2") (Qubit.new "B2")
           eq_refl eq_refl (NoDup_singleton 2%nat) (NoDup_singleton 2%nat)
           Hin eq_refl eq_refl).
Defined.

Lemma sqrt2_neq_2 : sqrt 2 <> 2.
Proof. pose proof sqrt2_sqr as Hs. intros H. rewrite H in Hs. lra. Qed.

(** C4, as stated, fails twice.  With the single connection [(2, 2)] between
    two fresh circuits, qubit 2 gets the state [[2/sqrt 2, 0]], not the
    componentwise average [[1, 0]].  With the connections [(0, 0)] and
    [(0, 1)], which share qubit 0 of the receiving circuit, qubit 0 of the
    receiving circuit and qubit 0 of the other circuit end in different
    states. *)
Lemma createInterCircuitEntanglement_counterexample :
  (let r := createInterCircuitEntanglement (new 5 "A" None) (new 5 "B" None)
              [(2, 2)%nat] in
   Qubit.state <$> qubits (fst r) !! 2%nat <> Some ((1 + 1) / 2, (0 + 0) / 2))
  /\ (let r := createInterCircuitEntanglement (new 5 "A" None) (new 5 "B" None)
                 [(0, 0)%nat; (0, 1)%nat] in
      Qubit.state <$> qubits (fst r) !! 0%nat
      <> Qubit.state <$> qubits (snd r) !! 0%nat).
Proof.
  pose proof sqrt2_pos as Hpos. pose proof sqrt2_sqr as Hsqr.
  split.
  - run. intros H. injection H as H _.
    assert (H1 : (1 + 1) / sqrt 2 * sqrt 2 = (1 + 1) * / 2 * sqrt 2)
      by (now rewrite H).
    field_simplify in H1; [ | lra]. apply sqrt2_neq_2. lra.
  - run. intros H. injection H as H _.
    assert (H1 : ((1 + 1) / sqrt 2 + 1) / sqrt 2 * sqrt 2
                 = (1 + 1) / sqrt 2 * sqrt 2) by (now rewrite H).
    field_simplify in H1; [ | lra | lra]. nra.
Qed.

End EntanglementFacts.

(** ** Streamlines *)

Module StreamlineFacts.
Import QuantumLaminarFlow StreamlineInvariant.

Lemma fold_left_Rplus (l : list R) (a : R) : fold_left Rplus l a = a + Rsum l.
Proof.
  unfold Rsum. revert a. induction l as [ | x l IH]; intros a; cbn.
  - lra.
  - rewrite IH, (IH (0 + x)). lra.
Qed.

Lemma Rsum_cons (x : R) (l : list R) : Rsum (x :: l) = x + Rsum l.
Proof. unfold Rsum at 1. cbn. rewrite fold_left_Rplus. lra. Qed.

Lemma Rsum_div (l : list R) (s : R) :
  Rsum (map (fun p => p / s) l) = Rsum l / s.
Proof.
  induction l as [ | x l IH]; cbn [map].
  - unfold Rsum. cbn. lra.
  - rewrite !Rsum_cons, IH. lra.
Qed.

Lemma Rsum_pos (l : list R) :
  l <> [] -> Forall (fun p => 0.1 <= p) l -> 0 < Rsum l.
Proof.
  intros Hne Hall.
  assert (H : 0.1 * INR (length l) <= Rsum l).
  { clear Hne. induction Hall as [ | x l Hx _ IH].
    - unfold Rsum. cbn. lra.
    - rewrite Rsum_cons. cbn [length]. rewrite S_INR. lra. }
  destruct l as [ | x l]; [congruence | ].
  cbn [length] in H. rewrite S_INR in H.
  pose proof (pos_INR (length l)). lra.
Qed.

Lemma imap_Forall {A B} (P : B -> Prop) (f : nat -> A -> B) (l : list A) :
  (forall i a, P (f i a)) -> Forall P (imap f l).
Proof.
  revert f. induction l as [ | a l IH]; intros f Hf; cbn; constructor.
  - apply Hf.
  - apply IH. intros i b. apply Hf.
Qed.

(** The weights of a non-empty path are normalised. *)
Lemma computeQuantumProbabilityDensity_sum this coords streamlineId :
  coords <> [] ->
  Rsum (computeQuantumProbabilityDensity this coords streamlineId) = 1.
Proof.
  intros Hne. unfold computeQuantumProbabilityDensity.
  destruct (length coords =? 0)%nat eqn:Hlen.
  { apply Nat.eqb_eq in Hlen. destruct coords; [congruence | discriminate]. }
  match goal with |- context [Rgtb (Rsum ?l) 0] => set (probDensity := l) end.
  assert (Hpos : 0 < Rsum probDensity).
  { apply Rsum_pos.
    - subst probDensity. destruct coords; [congruence | discriminate].
    - apply imap_Forall. intros i a. apply Rmax_l. }
  rewrite (Rgtb_true _ _ Hpos), Rsum_div. field. lra.
Qed.

Section Random.
Variable random : nat -> R.

Lemma mapR_Forall {A B} (P : B -> Prop) (f : A -> Rand B) (l : list A) :
  (forall a n, P (fst (f a n))) -> forall n, Forall P (fst (mapR f l n)).
Proof.
  intros Hf. induction l as [ | a l IH]; intros n.
  - constructor.
  - rewrite CircuitFacts.mapR_cons. specialize (Hf a n).
    destruct (f a n) as [b n1]. specialize (IH n1).
    destruct (mapR f l n1) as [bs n2]. now constructor.
Qed.

Lemma mapR_fmap {A B C} (g : B -> C) (h : A -> C) (f : A -> Rand B)
    (l : list A) :
  (forall a n, g (fst (f a n)) = h a) ->
  forall n, map g (fst (mapR f l n)) = map h l.
Proof.
  intros Hf. induction l as [ | a l IH]; intros n.
  - reflexivity.
  - rewrite CircuitFacts.mapR_cons. specialize (Hf a n).
    destruct (f a n) as [b n1]. specialize (IH n1).
    destruct (mapR f l n1) as [bs n2]. cbn in *. now rewrite Hf, IH.
Qed.

Lemma defineStreamline_normalised this i n :
  match fst (defineStreamline random this i n) with
  | Some s => normalised s
  | None => True
  end.
Proof.
  unfold defineStreamline, bind.
  match goal with |- context [let '(a, n') := ?m n in _] =>
    destruct (m n) as [start n1] end.
  destruct (1 <? length (integrateStreamline this start))%nat eqn:Hlen;
    cbn [ret fst]; [ | exact I].
  assert (Hne : integrateStreamline this start <> []).
  { apply Nat.ltb_lt in Hlen. intros E. rewrite E in Hlen.
    cbn [length] in Hlen. lia. }
  split; [exact Hne | now apply computeQuantumProbabilityDensity_sum].
Qed.

Lemma defineQuantumStreamlines_normalised this n :
  Forall normalised (fst (defineQuantumStreamlines random this n)).
Proof.
  unfold defineQuantumStreamlines, bind.
  match goal with |- context [mapR ?f ?l n] =>
    pose proof (mapR_Forall
                  (fun o => match o with Some s => normalised s | None => True end)
                  f l (defineStreamline_normalised this) n) as H;
    destruct (mapR f l n) as [made n1] end.
  cbn in *. induction H as [ | [s | ] made Hs _ IH]; cbn.
  - constructor.
  - now constructor.
  - exact IH.
Qed.

Lemma new_normalised gridSize domainSize quantumCircuitA quantumCircuitB n :
  Forall normalised
    (streamlines
       (fst (new random gridSize domainSize quantumCircuitA quantumCircuitB n))).
Proof.
  unfold new, bind.
  match goal with |- context [initializeInfoLayersWithQuantum random ?t n] =>
    destruct (initializeInfoLayersWithQuantum random t n) as [layers n1] end.
  match goal with |- context [defineQuantumStreamlines random ?t n1] =>
    pose proof (defineQuantumStreamlines_normalised t n1) as H;
    destruct (defineQuantumStreamlines random t n1) as [sl n2] end.
  exact H.
Qed.

(** [evolve] does not write to any [probabilityDensity] array. *)
Lemma evolve_probabilityDensity dt this n :
  map QuantumStreamline.probabilityDensity
      (streamlines (fst (evolve random dt this n)))
  = map QuantumStreamline.probabilityDensity (streamlines this).
Proof.
  unfold evolve, bind.
  match goal with |- context [mapR ?f ?l n] =>
    pose proof (mapR_fmap QuantumStreamline.probabilityDensity
                  QuantumStreamline.probabilityDensity f l) as H;
    destruct (mapR f l n) as [sl n1] eqn:E end.
  cbn [ret fst streamlines set_streamlines].
  specialize (H ltac:(intros s k; unfold bind;
                      match goal with |- context [imapR ?g ?cs k] =>
                        destruct (imapR g cs k) end; reflexivity) n).
  rewrite E in H. cbn [fst] in H. rewrite H.
  destruct (circuitB_if_dual _); reflexivity.
Qed.

(** C5. The [probabilityDensity] of a non-empty path sums to 1 (exactly, in
    real arithmetic); so it does for every streamline that the constructor
    of [QuantumLaminarFlow] makes; and [evolve(dt)] leaves every
    [probabilityDensity] array as it is, so that the sums stay 1 after any
    number of calls. *)
Theorem probabilityDensity_sums_to_one :
  (forall this coords streamlineId,
      coords <> [] ->
      Rsum (computeQuantumProbabilityDensity this coords streamlineId) = 1)
  /\ (forall gridSize domainSize quantumCircuitA quantumCircuitB n,
        Forall (fun s => QuantumStreamline.coordinates s <> []
                         /\ Rsum (QuantumStreamline.probabilityDensity s) = 1)
          (streamlines (fst (new random gridSize domainSize
                               quantumCircuitA quantumCircuitB n))))
  /\ (forall dt this n,
        map QuantumStreamline.probabilityDensity
            (streamlines (fst (evolve random dt this n)))
        = map QuantumStreamline.probabilityDensity (streamlines this))
  /\ (forall dt this n,
        Forall (fun s => Rsum (QuantumStreamline.probabilityDensity s) = 1)
               (streamlines this) ->
        Forall (fun s => Rsum (QuantumStreamline.probabilityDensity s) = 1)
               (streamlines (fst (evolve random dt this n)))).
Proof.
  split; [exact computeQuantumProbabilityDensity_sum | ].
  split; [exact new_normalised | ].
  split; [exact evolve_probabilityDensity | ].
  intros dt this n H.
  apply (Forall_fmap QuantumStreamline.probabilityDensity
           (fun pd => Rsum pd = 1)).
  apply (Forall_fmap QuantumStreamline.probabilityDensity
           (fun pd => Rsum pd = 1)) in H.
  change (QuantumStreamline.probabilityDensity <$> ?l)
    with (map QuantumStreamline.probabilityDensity l) in *.
  now rewrite evolve_probabilityDensity.
Qed.
End Random.

Lemma probabilityDensity_sums_to_one_witness :
  [(1, 1); (2, 1)] <> []
  /\ Rsum (computeQuantumProbabilityDensity Scenario.bareFlow
             [(1, 1); (2, 1)] 3) = 1.
Proof.
  assert (H : [(1, 1); (2, 1)] <> []) by discriminate.
  split; [exact H | ].
  exact (proj1 (probabilityDensity_sums_to_one (fun _ => 0.5))
           Scenario.bareFlow [(1, 1); (2, 1)] 3%nat H).
Defined.

End StreamlineFacts.

(** ** The wormhole reconstruction *)

Module WormholeFacts.
Import Types Wormhole WormholeInvariant.

Lemma tanh_bounds (x : R) : 0 < x -> 0 < tanh x < 1.
Proof.
  intros Hx. unfold tanh, sinh, cosh.
  pose proof (exp_pos x) as Hp. pose proof (exp_pos (- x)) as Hn.
  assert (Hlt : exp (- x) < exp x) by (apply exp_increasing; lra).
  split.
  - apply Rdiv_lt_0_compat; lra.
  - apply (Rmult_lt_reg_r ((exp x + exp (- x)) / 2)); [lra | ].
    field_simplify; lra.
Qed.

Lemma normalise_bounded rec : r_coherence rec = 0 -> bounded (normalise rec).
Proof.
  intros H0. unfold normalise, bounded, Rgtb.
  destruct (Rgt_dec (geometric_weight rec) 0) as [Hgt | _]; cbn.
  - assert (Hpos : 0 < geometric_weight rec / 100) by lra.
    pose proof (tanh_bounds _ Hpos). lra.
  - rewrite H0. lra.
Qed.

Lemma forEach_opt_invariant {A St} (P : A -> Prop) (Q : St -> Prop)
    (body : A -> St -> option St) (arr : list A) :
  (forall a s, P a -> Q s -> exists s', body a s = Some s' /\ Q s') ->
  Forall P arr ->
  forall s, Q s -> exists s', forEach_opt body arr s = Some s' /\ Q s'.
Proof.
  intros Hbody Harr. induction Harr as [ | a arr Ha _ IH]; intros s Hs; cbn.
  - eauto.
  - destruct (Hbody a s Ha Hs) as (s1 & -> & Hs1). cbn. now apply IH.
Qed.

Lemma fold_fragment_ok qubit_idx state recs :
  (qubit_idx < 5)%nat -> complete state ->
  r_coherence (fst recs) = 0 /\ r_coherence (snd recs) = 0 ->
  exists recs',
    fold_fragment qubit_idx state recs = Some recs'
    /\ r_coherence (fst recs') = 0 /\ r_coherence (snd recs') = 0.
Proof.
  intros Hidx Hlen [HA HB]. destruct recs as [recA recB]. cbn [fst snd] in *.
  unfold fold_fragment, complete in *.
  destruct (lookup_lt_is_Some_2 (fragment_qubits state) qubit_idx) as [qa Hqa];
    [lia | ].
  destruct (lookup_lt_is_Some_2 (fragment_qubits state) (qubit_idx + 5))
    as [qb Hqb]; [lia | ].
  rewrite Hqa, Hqb.
  destruct (Rgtb (alpha state) 0.3), (Rgtb (beta state) 0.3); cbn;
    eexists; (split; [reflexivity | ]); cbn; auto.
Qed.

Lemma reconstructQubit_ok fragmented_states qubit_idx :
  (qubit_idx < 5)%nat -> Forall complete fragmented_states ->
  exists recs,
    reconstructQubit fragmented_states qubit_idx = Some recs
    /\ bounded (fst recs) /\ bounded (snd recs).
Proof.
  intros Hidx Hall. unfold reconstructQubit.
  destruct (forEach_opt_invariant complete
              (fun recs => r_coherence (fst recs) = 0
                           /\ r_coherence (snd recs) = 0)
              (fold_fragment qubit_idx) fragmented_states)
    with (s := (emptyReconstruction, emptyReconstruction))
    as (recs & -> & HA & HB).
  - intros a s Ha Hs. now apply fold_fragment_ok.
  - exact Hall.
  - now cbn.
  - cbn. eexists. split; [reflexivity | ].
    cbn. split; now apply normalise_bounded.
Qed.

Lemma fold_squares_nonneg (l : list R) (mean a : R) :
  a <= fold_left (fun sum val => sum + (val - mean) ^ 2) l a.
Proof.
  revert a. induction l as [ | x l IH]; intros a; cbn [fold_left]; [lra | ].
  eapply Rle_trans; [ | apply IH].
  pose proof (pow2_ge_0 (x - mean)). lra.
Qed.

Lemma calculateExplorationFactor_bounds qubits :
  0 <= calculateExplorationFactor qubits <= 1.
Proof.
  unfold calculateExplorationFactor.
  set (ids := flat_map contributing_fragment_ids qubits).
  destruct (length ids <? 20)%nat eqn:Hlen; [lra | ].
  apply Nat.ltb_ge in Hlen.
  match goal with |- context [Rmin _ (?v / _)] => set (variance := v) end.
  assert (Hvar : 0 <= variance).
  { subst variance. apply Rmult_le_pos; [apply fold_squares_nonneg | ].
    apply Rlt_le, Rinv_0_lt_compat. rewrite length_map.
    apply lt_0_INR. lia. }
  split.
  - apply Rmin_glb; lra.
  - eapply Rle_trans; [apply Rmin_l | lra].
Qed.

(** The mean of five coherences. *)
Lemma fidelity_bounds (qubits : list ReconstructedQubit) :
  length qubits = 5%nat -> Forall bounded qubits ->
  0 <= fold_left (fun sum q => sum + r_coherence q) qubits 0 / 5 < 1.
Proof.
  intros Hlen Hall.
  destruct qubits as [ | q0 [ | q1 [ | q2 [ | q3 [ | q4 [ | ? ?]]]]]];
    try discriminate.
  repeat match goal with
         | H : Forall _ (_ :: _) |- _ => apply Forall_cons in H as [? H]
         end.
  unfold bounded in *. cbn. lra.
Qed.

(** [reconstructWithWormholeGeometry] on a system whose fragments are
    complete. *)
Lemma reconstruct_ok system :
  Forall complete (fragmented_states system) ->
  exists result,
    reconstructWithWormholeGeometry system = Some result
    /\ 0 <= wormhole_efficiency result <= 1
    /\ length (r_qubits (circuit_A result)) = 5%nat
    /\ length (r_qubits (circuit_B result)) = 5%nat
    /\ Forall bounded (r_qubits (circuit_A result))
    /\ Forall bounded (r_qubits (circuit_B result)).
Proof.
  intros Hall. unfold reconstructWithWormholeGeometry.
  destruct (mapM (reconstructQubit (fragmented_states system)) (seq 0 5))
    as [recs | ] eqn:Hrecs.
  2:{ exfalso. apply eq_None_not_Some in Hrecs. apply Hrecs, mapM_is_Some.
      apply Forall_forall. intros idx Hin. apply list_elem_of_In, in_seq in Hin.
      destruct (reconstructQubit_ok (fragmented_states system) idx)
        as (r & Hr & _); [lia | exact Hall | ].
      cbn. rewrite Hr. eauto. }
  apply mapM_Some in Hrecs.
  assert (Hlen : length recs = 5%nat)
    by (now rewrite <- (Forall2_length _ _ _ Hrecs)).
  assert (Hb : Forall (fun r => bounded (fst r) /\ bounded (snd r)) recs).
  { eapply Forall2_Forall_r; [exact Hrecs | ].
    apply Forall_forall. intros idx Hin r Hr.
    apply list_elem_of_In, in_seq in Hin.
    destruct (reconstructQubit_ok (fragmented_states system) idx)
      as (r' & Hr' & HA & HB); [lia | exact Hall | ].
    rewrite Hr in Hr'. now inversion Hr'. }
  assert (HbA : Forall bounded (map fst recs)).
  { apply Forall_fmap. eapply Forall_impl; [exact Hb | ]. now intros r [? ?]. }
  assert (HbB : Forall bounded (map snd recs)).
  { apply Forall_fmap. eapply Forall_impl; [exact Hb | ]. now intros r [? ?]. }
  cbn. eexists. split; [reflexivity | ]. cbn.
  pose proof (fidelity_bounds (map fst recs)) as FA.
  pose proof (fidelity_bounds (map snd recs)) as FB.
  rewrite !length_map in *. specialize (FA Hlen HbA). specialize (FB Hlen HbB).
  pose proof (calculateExplorationFactor_bounds (map fst recs)) as EA.
  pose proof (calculateExplorationFactor_bounds (map snd recs)) as EB.
  repeat split; try assumption; lra.
Qed.

Lemma length_spacetime_curvature :
  length (spacetime_curvature QuantumWormhole.new) = 1000%nat.
Proof.
  unfold QuantumWormhole.new, QuantumWormhole.calculateSpacetimeCurvature,
    QuantumWormhole.calculateThroatGeometry.
  cbn [spacetime_curvature]. now rewrite !length_map, length_seq.
Qed.

Lemma length_majorana_field :
  length (majorana_field QuantumWormhole.new) = 1000%nat.
Proof.
  unfold QuantumWormhole.new, QuantumWormhole.initializeMajoranaField,
    QuantumWormhole.calculateThroatGeometry.
  cbn [majorana_field]. now rewrite length_imap, length_map, length_seq.
Qed.

Lemma fragment_ok circuitA circuitB i :
  length (qubits circuitA) = 5%nat -> length (qubits circuitB) = 5%nat ->
  exists state,
    fragment QuantumWormhole.new circuitA circuitB i = Some state
    /\ complete state.
Proof.
  intros HA HB. unfold fragment.
  rewrite length_spacetime_curvature, length_majorana_field.
  assert (Hi : (i mod 1000 < 1000)%nat) by (apply Nat.mod_upper_bound; lia).
  destruct (lookup_lt_is_Some_2 (spacetime_curvature QuantumWormhole.new)
              (i mod 1000)) as [wormhole_point ->];
    [now rewrite length_spacetime_curvature | ].
  destruct (lookup_lt_is_Some_2 (majorana_field QuantumWormhole.new)
              (i mod 1000)) as [majorana ->];
    [now rewrite length_majorana_field | ].
  cbn [mbind option_bind]. eexists. split; [reflexivity | ].
  unfold complete. cbn [fragment_qubits].
  rewrite length_app, !length_map, HA, HB. reflexivity.
Qed.

Lemma createWormholeFragmentationSystem_ok circuitA circuitB :
  length (qubits circuitA) = 5%nat -> length (qubits circuitB) = 5%nat ->
  exists system,
    createWormholeFragmentationSystem circuitA circuitB = Some system
    /\ length (fragmented_states system) = 1024%nat
    /\ Forall complete (fragmented_states system).
Proof.
  intros HA HB. unfold createWormholeFragmentationSystem.
  destruct (mapM (fragment QuantumWormhole.new circuitA circuitB) (seq 0 1024))
    as [states | ] eqn:Hstates.
  2:{ exfalso. apply eq_None_not_Some in Hstates. apply Hstates, mapM_is_Some.
      apply Forall_forall. intros i _.
      destruct (fragment_ok circuitA circuitB i HA HB) as (st & Hst & _).
      cbn. rewrite Hst. eauto. }
  apply mapM_Some in Hstates.
  cbn [mbind option_bind]. eexists. split; [reflexivity | ].
  cbn [fragmented_states]. split.
  - rewrite <- (Forall2_length _ _ _ Hstates). apply length_seq.
  - eapply Forall2_Forall_r; [exact Hstates | ].
    apply Forall_forall. intros i _ st Hst.
    destruct (fragment_ok circuitA circuitB i HA HB) as (st' & Hst' & Hc).
    rewrite Hst in Hst'. now inversion Hst'.
Qed.

(** C1. For two 5-qubit circuits, [createWormholeFragmentationSystem] returns
    a system and [reconstructWithWormholeGeometry] returns a result for it,
    whose [wormhole_efficiency] is in [[0, 1]] and whose ten reconstructed
    qubits, five in [circuit_A] and five in [circuit_B], each have a
    [coherence] in [[0, 1)]. *)
Theorem reconstruction_bounds (circuitA circuitB : Circuit) :
  length (qubits circuitA) = 5%nat -> length (qubits circuitB) = 5%nat ->
  exists system result,
    createWormholeFragmentationSystem circuitA circuitB = Some system
    /\ reconstructWithWormholeGeometry system = Some result
    /\ 0 <= wormhole_efficiency result <= 1
    /\ length (r_qubits (circuit_A result)) = 5%nat
    /\ length (r_qubits (circuit_B result)) = 5%nat
    /\ Forall (fun q => 0 <= r_coherence q < 1)
              (r_qubits (circuit_A result) ++ r_qubits (circuit_B result)).
Proof.
  intros HA HB.
  destruct (createWormholeFragmentationSystem_ok circuitA circuitB HA HB)
    as (system & Hsystem & _ & Hcomplete).
  destruct (reconstruct_ok system Hcomplete)
    as (result & Hresult & Heff & HlenA & HlenB & HbA & HbB).
  exists system, result. repeat split; try assumption; try apply Heff.
  apply Forall_app. now split.
Qed.

Lemma reconstruction_bounds_witness :
  length (qubits Scenario.typedA) = 5%nat
  /\ length (qubits Scenario.typedB) = 5%nat
  /\ exists system result,
       createWormholeFragmentationSystem Scenario.typedA Scenario.typedB
       = Some system
       /\ reconstructWithWormholeGeometry system = Some result
       /\ 0 <= wormhole_efficiency result <= 1
       /\ length (r_qubits (circuit_A result)) = 5%nat
       /\ length (r_qubits (circuit_B result)) = 5%nat
       /\ Forall (fun q => 0 <= r_coherence q < 1)
                 (r_qubits (circuit_A result) ++ r_qubits (circuit_B result)).
Proof.
  split; [reflexivity | split; [reflexivity | ]].
  exact (reconstruction_bounds Scenario.typedA Scenario.typedB eq_refl eq_refl).
Defined.

End WormholeFacts.

(** ** Base64 *)

Module Base64Facts.
Import Base64 Base64Invariant.

(** Induction on a text three characters at a time. *)
Lemma string_ind3 (P : string -> Prop) :
  P EmptyString ->
  (forall a, P (String a EmptyString)) ->
  (forall a b, P (String a (String b EmptyString))) ->
  (forall a b c s, P s -> P (String a (String b (String c s)))) ->
  forall s, P s.
Proof.
  intros H0 H1 H2 H3. fix IH 1.
  intros [ | a [ | b [ | c s]]]; [apply H0 | apply H1 | apply H2 | ].
  apply H3, IH.
Qed.

Lemma good_all : forallb good (map N.of_nat (seq 0 64)) = true.
Proof. vm_compute. reflexivity. Qed.

Lemma good_sextet (n : N) : (n < 64)%N -> good n = true.
Proof.
  intros Hn. pose proof good_all as H. rewrite forallb_forall in H.
  apply H. rewrite <- (N2Nat.id n). apply in_map, in_seq. lia.
Qed.

Lemma dec_enc (n : N) : (n < 64)%N -> dec (enc n) = Some n.
Proof.
  intros Hn. pose proof (good_sextet n Hn) as H. unfold good in H.
  apply andb_prop in H as [H _]. apply andb_prop in H as [H _].
  destruct (dec (enc n)) as [m | ]; [ | discriminate].
  apply N.eqb_eq in H. now subst.
Qed.

Lemma enc_not_padding (n : N) : (n < 64)%N -> Ascii.eqb (enc n) "=" = false.
Proof.
  intros Hn. pose proof (good_sextet n Hn) as H. unfold good in H.
  apply andb_prop in H as [H _]. apply andb_prop in H as [_ H].
  now apply negb_true_iff in H.
Qed.

Lemma enc_not_whitespace (n : N) : (n < 64)%N -> is_whitespace (enc n) = false.
Proof.
  intros Hn. pose proof (good_sextet n Hn) as H. unfold good in H.
  apply andb_prop in H as [_ H]. now apply negb_true_iff in H.
Qed.

(** The four 6-bit groups of three bytes, and the bytes back. *)
Lemma sextets (a b c : N) :
  (a < 256)%N -> (b < 256)%N -> (c < 256)%N ->
  (a / 4 < 64 /\ a mod 4 * 16 + b / 16 < 64
   /\ b mod 16 * 4 + c / 64 < 64 /\ c mod 64 < 64
   /\ a mod 4 * 16 < 64 /\ b mod 16 * 4 < 64)%N.
Proof.
  intros Ha Hb Hc.
  pose proof (N.mod_lt a 4). pose proof (N.mod_lt b 16).
  pose proof (N.mod_lt c 64).
  assert (a / 4 < 64)%N by (apply N.Div0.div_lt_upper_bound; lia).
  assert (b / 16 < 16)%N by (apply N.Div0.div_lt_upper_bound; lia).
  assert (c / 64 < 4)%N by (apply N.Div0.div_lt_upper_bound; lia).
  lia.
Qed.

Lemma split_div (x y k : N) : (y < k -> (x * k + y) / k = x)%N.
Proof. intros H. symmetry. apply (N.div_unique _ k x y); lia. Qed.

Lemma split_mod (x y k : N) : (y < k -> (x * k + y) mod k = y)%N.
Proof. intros H. symmetry. apply (N.mod_unique _ k x y); lia. Qed.

Lemma bytes_back (a b c : N) :
  (b < 256)%N -> (c < 256)%N ->
  (a / 4 * 4 + (a mod 4 * 16 + b / 16) / 16 = a
   /\ (a mod 4 * 16 + b / 16) mod 16 * 16 + (b mod 16 * 4 + c / 64) / 4 = b
   /\ (b mod 16 * 4 + c / 64) mod 4 * 64 + c mod 64 = c)%N.
Proof.
  intros Hb Hc.
  assert (Hb1 : (b / 16 < 16)%N) by (apply N.Div0.div_lt_upper_bound; lia).
  assert (Hc1 : (c / 64 < 4)%N) by (apply N.Div0.div_lt_upper_bound; lia).
  rewrite !split_div, !split_mod by assumption.
  pose proof (N.div_mod' a 4). pose proof (N.div_mod' b 16).
  pose proof (N.div_mod' c 64). lia.
Qed.

Lemma bytes_back2 (a b : N) :
  (b < 256)%N ->
  (a / 4 * 4 + (a mod 4 * 16 + b / 16) / 16 = a
   /\ (a mod 4 * 16 + b / 16) mod 16 * 16 + (b mod 16 * 4) / 4 = b)%N.
Proof.
  intros Hb.
  destruct (bytes_back a b 0 Hb) as (H1 & H2 & _); [lia | ].
  change (0 / 64)%N with 0%N in H2. rewrite N.add_0_r in H2. now split.
Qed.

Lemma byte_back1 (a : N) : (a / 4 * 4 + (a mod 4 * 16) / 16 = a)%N.
Proof.
  destruct (bytes_back a 0 0) as (H1 & _); [lia | lia | ].
  change (0 / 16)%N with 0%N in H1. now rewrite N.add_0_r in H1.
Qed.

Lemma remove_whitespace_cons (c : ascii) (s : string) :
  is_whitespace c = false ->
  remove_whitespace (String c s) = String c (remove_whitespace s).
Proof. intros H. cbn [remove_whitespace]. now rewrite H. Qed.

Lemma remove_padding_cons (c : ascii) (s : string) :
  Ascii.eqb c "=" = false ->
  remove_padding (String c s) = String c (remove_padding s).
Proof.
  destruct c as [[] [] [] [] [] [] [] []]; intros H;
    solve [reflexivity | discriminate H].
Qed.

(** The characters [btoa] writes for the bytes [a], [b], [c]. *)
Ltac sextet_facts a b c :=
  let H := fresh "S" in
  pose proof (sextets (N_of_ascii a) (N_of_ascii b) (N_of_ascii c)
                (N_ascii_bounded a) (N_ascii_bounded b) (N_ascii_bounded c))
    as (?S1 & ?S2 & ?S3 & ?S4 & ?S5 & ?S6).

Lemma btoa_no_whitespace (s : string) : remove_whitespace (btoa s) = btoa s.
Proof.
  induction s as [ | a | a b | a b c s IH] using string_ind3.
  - reflexivity.
  - sextet_facts a a a. cbn [btoa].
    rewrite !remove_whitespace_cons by auto using enc_not_whitespace.
    reflexivity.
  - sextet_facts a b b. cbn [btoa].
    rewrite !remove_whitespace_cons by auto using enc_not_whitespace.
    reflexivity.
  - sextet_facts a b c. cbn [btoa].
    rewrite !remove_whitespace_cons by auto using enc_not_whitespace.
    now rewrite IH.
Qed.

Lemma btoa_length (s : string) : (String.length (btoa s) mod 4 = 0)%nat.
Proof.
  induction s as [ | a | a b | a b c s IH] using string_ind3;
    try reflexivity.
  cbn [btoa String.length].
  change (S (S (S (S ?n)))) with (4 + n)%nat.
  now rewrite <- Nat.Div0.add_mod_idemp_l.
Qed.

Lemma ascii_back (a : ascii) (n : N) : n = N_of_ascii a -> ascii_of_N n = a.
Proof. intros ->. apply ascii_N_embedding. Qed.

(** Without its padding, the text of [btoa s] has a length that is not 1
    modulo 4 and decodes to [s]. *)
Lemma decode_btoa (s : string) :
  (String.length (remove_padding (btoa s)) mod 4 <> 1)%nat
  /\ decode (remove_padding (btoa s)) = Some s.
Proof.
  induction s as [ | a | a b | a b c s [IHlen IH]] using string_ind3.
  - split; [cbn; lia | reflexivity].
  - sextet_facts a a a. cbn [btoa].
    rewrite !remove_padding_cons by auto using enc_not_padding.
    change (remove_padding "==") with EmptyString.
    split; [cbn; lia | ].
    cbn [decode]. rewrite !dec_enc by assumption. cbn [mbind option_bind].
    now rewrite (ascii_back a) by apply byte_back1.
  - sextet_facts a b b. cbn [btoa].
    rewrite !remove_padding_cons by auto using enc_not_padding.
    change (remove_padding "=") with EmptyString.
    split; [cbn; lia | ].
    cbn [decode]. rewrite !dec_enc by assumption. cbn [mbind option_bind].
    destruct (bytes_back2 (N_of_ascii a) (N_of_ascii b) (N_ascii_bounded b))
      as (Ha & Hb).
    now rewrite (ascii_back a), (ascii_back b) by assumption.
  - sextet_facts a b c. cbn [btoa].
    rewrite !remove_padding_cons by auto using enc_not_padding.
    split.
    + cbn [String.length]. change (S (S (S (S ?n)))) with (4 + n)%nat.
      now rewrite <- Nat.Div0.add_mod_idemp_l.
    + cbn [decode]. rewrite !dec_enc by assumption. cbn [mbind option_bind].
      rewrite IH. cbn [mbind option_bind].
      destruct (bytes_back (N_of_ascii a) (N_of_ascii b) (N_of_ascii c)
                  (N_ascii_bounded b) (N_ascii_bounded c)) as (Ha & Hb & Hc).
      now rewrite (ascii_back a), (ascii_back b), (ascii_back c)
        by assumption.
Qed.

(** [atob(btoa(s))] is [s], for every text [s] of bytes. *)
Lemma atob_btoa (s : string) : atob (btoa s) = Some s.
Proof.
  unfold atob. rewrite btoa_no_whitespace, btoa_length.
  cbn [Nat.eqb]. destruct (decode_btoa s) as (Hlen & Hdec).
  destruct (Nat.eqb_spec (String.length (remove_padding (btoa s)) mod 4) 1);
    [contradiction | exact Hdec].
Qed.

End Base64Facts.

(** ** JSON *)

Module JSONFacts.
Import JSON JSONInvariant.

(** Induction on a value, with the hypothesis for every element of an array
    and every member of an object. *)
Lemma value_ind' (P : value -> Prop) :
  P Null ->
  (forall b, P (Bool b)) ->
  (forall s, P (Str s)) ->
  (forall elements, Forall P elements -> P (Arr elements)) ->
  (forall members, Forall (fun m => P (snd m)) members -> P (Obj members)) ->
  forall v, P v.
Proof.
  intros HNull HBool HStr HArr HObj. fix IH 1.
  intros [ | b | s | elements | members].
  - apply HNull.
  - apply HBool.
  - apply HStr.
  - apply HArr. induction elements as [ | v l IHl]; constructor.
    + apply IH.
    + apply IHl.
  - apply HObj. induction members as [ | [k v] l IHl]; constructor.
    + apply IH.
    + apply IHl.
Qed.

Lemma append_assoc (s1 s2 s3 : string) : (s1 ++ s2) ++ s3 = s1 ++ (s2 ++ s3).
Proof. induction s1 as [ | c s1 IH]; cbn; [reflexivity | now rewrite IH]. Qed.

Lemma append_empty_r (s : string) : s ++ EmptyString = s.
Proof. induction s as [ | c s IH]; cbn; [reflexivity | now rewrite IH]. Qed.

Lemma length_append (s1 s2 : string) :
  String.length (s1 ++ s2) = (String.length s1 + String.length s2)%nat.
Proof. induction s1 as [ | c s1 IH]; cbn; [reflexivity | now rewrite IH]. Qed.

Lemma stringify_Arr (l : list value) :
  stringify (Arr l) = "[" ++ stringify_elements l ++ "]".
Proof. reflexivity. Qed.

Lemma stringify_Obj (l : list (string * value)) :
  stringify (Obj l) = "{" ++ stringify_members l ++ "}".
Proof. reflexivity. Qed.

Lemma depth_Arr (l : list value) : depth (Arr l) = S (depth_elements l).
Proof. reflexivity. Qed.

Lemma depth_Obj (l : list (string * value)) :
  depth (Obj l) = S (depth_members l).
Proof.
  cbn. f_equal. induction l as [ | [k v] l IH]; cbn;
    [reflexivity | now rewrite IH].
Qed.

Lemma stringify_opening (v : value) :
  exists c s, stringify v = String c s /\ opening c.
Proof.
  unfold opening. destruct v as [ | [ | ] | s | l | l];
    try (eexists _, _; split; [reflexivity | tauto]).
Qed.

Lemma parse_value_array (fuel : nat) (c : ascii) (s : string) :
  opening c ->
  parse_value (S fuel) (String "[" (String c s))
  = '(elements, rest) ← parse_elements fuel (String c s);
    Some (Arr elements, rest).
Proof. intros [-> | [-> | [-> | [-> | [-> | ->]]]]]; reflexivity. Qed.

Lemma parse_value_object (fuel : nat) (s : string) :
  parse_value (S fuel) (String "{" (String "034" s))
  = '(members, rest) ← parse_members fuel (String "034" s);
    Some (Obj members, rest).
Proof. reflexivity. Qed.

Lemma plain_char_not_quote (c : ascii) :
  plain_char c = true -> Ascii.eqb c "034" = false.
Proof.
  unfold plain_char. intros H. apply negb_true_iff in H.
  apply orb_false_elim in H as [H _]. now apply orb_false_elim in H as [H _].
Qed.

Lemma parse_chars_plain (s rest : string) :
  plain s = true -> parse_chars (s ++ String "034" rest) = Some (s, rest).
Proof.
  induction s as [ | c s IH]; intros H.
  - reflexivity.
  - cbn [plain] in H. apply andb_prop in H as [Hc Hs].
    cbn [append parse_chars].
    rewrite (plain_char_not_quote c Hc), Hc, (IH Hs). reflexivity.
Qed.

Lemma parse_elements_stringify (l : list value) :
  Forall reads l -> forallb plain_value l = true -> l <> [] ->
  forall fuel rest,
    (depth_elements l <= fuel)%nat ->
    parse_elements fuel (stringify_elements l ++ String "]" rest)
    = Some (l, rest).
Proof.
  induction l as [ | v l IH]; intros Hall Hplain Hne fuel rest Hfuel;
    [congruence | ].
  apply Forall_cons in Hall as [Hv Hall].
  cbn [forallb] in Hplain. apply andb_prop in Hplain as [Hpv Hpl].
  cbn [depth_elements fold_right] in Hfuel. fold (depth_elements l) in Hfuel.
  destruct fuel as [ | fuel]; [lia | ].
  cbn [parse_elements].
  destruct l as [ | v' l'].
  - cbn [stringify_elements].
    rewrite (Hv Hpv fuel (String "]" rest)) by lia. reflexivity.
  - change (stringify_elements (v :: v' :: l'))
      with (stringify v ++ "," ++ stringify_elements (v' :: l')).
    rewrite append_assoc.
    change (("," ++ stringify_elements (v' :: l')) ++ String "]" rest)
      with (String "," (stringify_elements (v' :: l') ++ String "]" rest)).
    rewrite (Hv Hpv fuel) by lia. cbn [mbind option_bind].
    rewrite (IH Hall Hpl) by (congruence || lia). reflexivity.
Qed.

Lemma parse_members_stringify (l : list (string * value)) :
  Forall (fun m => reads (snd m)) l ->
  forallb (fun m => plain (fst m) && plain_value (snd m)) l = true ->
  l <> [] ->
  forall fuel rest,
    (depth_members l <= fuel)%nat ->
    parse_members fuel (stringify_members l ++ String "}" rest)
    = Some (l, rest).
Proof.
  induction l as [ | [k v] l IH]; intros Hall Hplain Hne fuel rest Hfuel;
    [congruence | ].
  apply Forall_cons in Hall as [Hv Hall]. cbn [snd] in Hv.
  cbn [forallb fst snd] in Hplain. apply andb_prop in Hplain as [Hp Hpl].
  apply andb_prop in Hp as [Hpk Hpv].
  cbn [depth_members fold_right snd] in Hfuel. fold (depth_members l) in Hfuel.
  destruct fuel as [ | fuel]; [lia | ].
  assert (Hhead : forall tail,
            parse_members (S fuel)
              ((quote k ++ ":" ++ stringify v ++ tail))
            = '(v0, rest0) ← parse_value fuel (stringify v ++ tail);
              match rest0 with
              | String "}" rest' => Some ([(k, v0)], rest')
              | String "," rest' =>
                  '(ms, rest'') ← parse_members fuel rest';
                  Some ((k, v0) :: ms, rest'')
              | _ => None
              end).
  { intros tail. unfold quote. cbn [append parse_members].
    rewrite append_assoc. cbn [append].
    rewrite (parse_chars_plain k _ Hpk). reflexivity. }
  destruct l as [ | [k' v'] l'].
  - change (stringify_members [(k, v)])
      with (quote k ++ ":" ++ stringify v).
    rewrite !append_assoc. rewrite Hhead.
    rewrite (Hv Hpv fuel (String "}" rest)) by lia. reflexivity.
  - change (stringify_members ((k, v) :: (k', v') :: l'))
      with (quote k ++ ":" ++ stringify v ++ ","
            ++ stringify_members ((k', v') :: l')).
    rewrite !append_assoc. rewrite Hhead.
    rewrite (Hv Hpv fuel) by lia. cbn [mbind option_bind].
    change ("," ++ ?x) with (String "," x). cbn match.
    rewrite (IH Hall Hpl) by (congruence || lia). reflexivity.
Qed.

Lemma stringify_elements_opening (v : value) (l : list value) :
  exists c s, stringify_elements (v :: l) = String c s /\ opening c.
Proof.
  destruct (stringify_opening v) as (c & s & Hs & Hc).
  destruct l as [ | v' l'].
  - exists c, s. now split.
  - exists c, (s ++ "," ++ stringify_elements (v' :: l')).
    split; [ | exact Hc].
    change (stringify_elements (v :: v' :: l'))
      with (stringify v ++ "," ++ stringify_elements (v' :: l')).
    now rewrite Hs.
Qed.

Lemma stringify_members_opening (m : string * value)
    (l : list (string * value)) :
  exists s, stringify_members (m :: l) = String "034" s.
Proof. destruct m as [k v], l as [ | [k' v'] l']; eexists; reflexivity. Qed.

(** The reader gives back every value whose strings are plain. *)
Lemma reads_all (v : value) : reads v.
Proof.
  induction v as [ | b | s | l IH | l IH] using value_ind';
    intros Hplain fuel rest Hfuel;
    (destruct fuel as [ | fuel]; [cbn in Hfuel; lia | ]).
  - reflexivity.
  - destruct b; reflexivity.
  - cbn [stringify]. unfold quote. cbn [append parse_value].
    rewrite append_assoc. cbn [append].
    now rewrite (parse_chars_plain s rest Hplain).
  - rewrite stringify_Arr. cbn [append]. rewrite append_assoc.
    cbn [append]. rewrite depth_Arr in Hfuel.
    destruct l as [ | v l']; [reflexivity | ].
    pose proof (parse_elements_stringify (v :: l') IH Hplain
                  ltac:(discriminate) fuel rest ltac:(lia)) as Hl.
    destruct (stringify_elements_opening v l') as (c & s & Hs & Hc).
    rewrite Hs in *. cbn [append] in *.
    rewrite (parse_value_array fuel c _ Hc), Hl. reflexivity.
  - rewrite stringify_Obj. cbn [append]. rewrite append_assoc.
    cbn [append]. rewrite depth_Obj in Hfuel.
    destruct l as [ | m l']; [reflexivity | ].
    pose proof (parse_members_stringify (m :: l') IH Hplain
                  ltac:(discriminate) fuel rest ltac:(lia)) as Hl.
    destruct (stringify_members_opening m l') as (s & Hs).
    rewrite Hs in *. cbn [append] in *.
    rewrite parse_value_object, Hl. reflexivity.
Qed.

Lemma stringify_nonempty (v : value) : (1 <= String.length (stringify v))%nat.
Proof.
  destruct (stringify_opening v) as (c & s & -> & _). cbn. lia.
Qed.

Lemma depth_le_length (v : value) :
  (depth v <= String.length (stringify v))%nat.
Proof.
  induction v as [ | b | s | l IH | l IH] using value_ind'.
  - cbn. lia.
  - destruct b; cbn; lia.
  - cbn. lia.
  - rewrite depth_Arr, stringify_Arr. cbn [append String.length].
    rewrite length_append. cbn [String.length].
    assert (H : (depth_elements l <= S (String.length (stringify_elements l)))%nat).
    { induction IH as [ | v l' Hv _ IHl]; [cbn; lia | ].
      cbn [depth_elements fold_right]. fold (depth_elements l').
      destruct l' as [ | v' l''].
      - cbn [stringify_elements depth_elements fold_right]. lia.
      - change (stringify_elements (v :: v' :: l''))
          with (stringify v ++ "," ++ stringify_elements (v' :: l'')).
        rewrite length_append. cbn [append String.length]. lia. }
    lia.
  - rewrite depth_Obj, stringify_Obj. cbn [append String.length].
    rewrite length_append. cbn [String.length].
    assert (H : (depth_members l <= S (String.length (stringify_members l)))%nat).
    { induction IH as [ | [k v] l' Hv _ IHl]; [cbn; lia | ].
      cbn [depth_members fold_right snd] in *. fold (depth_members l').
      destruct l' as [ | [k' v'] l''].
      - cbn [stringify_members depth_members fold_right].
        rewrite !length_append. cbn [String.length]. lia.
      - change (stringify_members ((k, v) :: (k', v') :: l''))
          with (quote k ++ ":" ++ stringify v ++ ","
                ++ stringify_members ((k', v') :: l'')).
        rewrite !length_append. cbn [append String.length]. lia. }
    lia.
Qed.

(** [JSON.parse(JSON.stringify(v))] is [v]. *)
Lemma parse_stringify (v : value) :
  plain_value v = true -> parse (stringify v) = Some v.
Proof.
  intros Hplain. unfold parse.
  pose proof (depth_le_length v) as Hdepth.
  rewrite <- (append_empty_r (stringify v)) at 2.
  rewrite (reads_all v Hplain) by lia. reflexivity.
Qed.

End JSONFacts.

(** ** The seed *)

Module SeedFacts.
Import Seed.

Lemma object_of_flags_plain (l : list bool) :
  JSON.plain_value (object_of_flags l) = true.
Proof.
  unfold object_of_flags. cbn [JSON.plain_value].
  induction l as [ | b l IH]; [reflexivity | exact IH].
Qed.

Lemma object_of_gates_plain (g : SelectedGates.t) :
  JSON.plain_value (object_of_gates g) = true.
Proof.
  unfold object_of_gates. cbn [JSON.plain_value forallb fst snd].
  rewrite !object_of_flags_plain. reflexivity.
Qed.

Lemma object_of_configuration_plain (cfg : GateConfiguration) :
  JSON.plain_value (object_of_configuration cfg) = true.
Proof.
  unfold object_of_configuration. cbn [JSON.plain_value forallb fst snd].
  rewrite !object_of_gates_plain. reflexivity.
Qed.

Lemma btoa_nonempty (s : string) :
  s <> EmptyString -> Base64.btoa s <> EmptyString.
Proof. destruct s as [ | a [ | b [ | c s]]]; [congruence | | | ]; discriminate. Qed.

(** The object of a configuration determines the configuration. *)
Lemma object_of_configuration_inj (cfg1 cfg2 : GateConfiguration) :
  object_of_configuration cfg1 = object_of_configuration cfg2 -> cfg1 = cfg2.
Proof.
  assert (Hflags : forall l1 l2,
            map JSON.Bool l1 = map JSON.Bool l2 -> l1 = l2).
  { induction l1 as [ | b l1 IH]; intros [ | b2 l2] H;
      try discriminate; [reflexivity | ].
    injection H as -> H. f_equal. now apply IH. }
  assert (Hgates : forall g1 g2, object_of_gates g1 = object_of_gates g2 -> g1 = g2).
  { intros [] [] H. unfold object_of_gates, object_of_flags in H. cbn in H.
    injection H as H1 H2 H3 H4 H5 H6 H7 H8 H9 H10.
    f_equal; now apply Hflags. }
  destruct cfg1 as [a1 b1 e1 i1], cfg2 as [a2 b2 e2 i2].
  unfold object_of_configuration. cbn -[object_of_gates].
  intros H.
  assert (HA : object_of_gates a1 = object_of_gates a2) by congruence.
  assert (HB : object_of_gates b1 = object_of_gates b2) by congruence.
  assert (HE : e1 = e2) by congruence.
  assert (HI : i1 = i2) by congruence.
  subst. f_equal; now apply Hgates.
Qed.

(** C9. Decoding the seed of a gate configuration gives back the object that
    was encoded: [atob] undoes [btoa], [JSON.parse] undoes [JSON.stringify],
    and [handleLoadSeed] hands the four original values to the setters. *)
Theorem seed_round_trip (cfg : GateConfiguration) :
  Base64.atob (handleGenerateSeed cfg)
  = Some (JSON.stringify (object_of_configuration cfg))
  /\ JSON.parse (JSON.stringify (object_of_configuration cfg))
     = Some (object_of_configuration cfg)
  /\ handleLoadSeed (handleGenerateSeed cfg)
     = Loaded (Some (object_of_gates (selectedGatesA cfg)))
              (Some (object_of_gates (selectedGatesB cfg)))
              (Some (JSON.Bool (circuitBEnabled cfg)))
              (Some (JSON.Bool (interCircuitEntanglementEnabled cfg))).
Proof.
  assert (Hatob : Base64.atob (handleGenerateSeed cfg)
                  = Some (JSON.stringify (object_of_configuration cfg)))
    by apply Base64Facts.atob_btoa.
  assert (Hparse : JSON.parse (JSON.stringify (object_of_configuration cfg))
                   = Some (object_of_configuration cfg))
    by apply JSONFacts.parse_stringify, object_of_configuration_plain.
  split; [exact Hatob | split; [exact Hparse | ]].
  unfold handleLoadSeed.
  destruct (String.eqb_spec (handleGenerateSeed cfg) EmptyString) as [E | _].
  { exfalso. revert E. apply btoa_nonempty.
    destruct (JSONFacts.stringify_opening (object_of_configuration cfg))
      as (c & s & -> & _). discriminate. }
  rewrite Hatob, Hparse. reflexivity.
Qed.

(** The round trip on [Scenario.mixed], a configuration with true and false
    flags under every key of both circuits. *)
Lemma seed_round_trip_mixed :
  handleLoadSeed (handleGenerateSeed Scenario.mixed)
  = Loaded (Some (object_of_gates Scenario.mixedA))
           (Some (object_of_gates Scenario.mixedB))
           (Some (JSON.Bool true)) (Some (JSON.Bool false)).
Proof. exact (proj2 (proj2 (seed_round_trip Scenario.mixed))). Defined.

End SeedFacts.

(** * Further properties of the code *)

(** ** Qubit gates *)

Module QubitExtra.

Lemma sin2_cos2' (x : R) : sin x * sin x + cos x * cos x = 1.
Proof. pose proof (sin2_cos2 x) as H. unfold Rsqr in H. exact H. Qed.

(** X1. Two [pauliX] or two [pauliZ] gates give the state back; two
    [pauliY] gates negate both components, four give the state back.  Each
    call appends its label to [appliedGates]. *)
Theorem pauli_twice (q : Qubit.t) :
  Qubit.state (Qubit.pauliX (Qubit.pauliX q)) = Qubit.state q
  /\ Qubit.state (Qubit.pauliZ (Qubit.pauliZ q)) = Qubit.state q
  /\ Qubit.state (Qubit.pauliY (Qubit.pauliY q))
     = (- fst (Qubit.state q), - snd (Qubit.state q))
  /\ Qubit.state (Qubit.pauliY (Qubit.pauliY (Qubit.pauliY (Qubit.pauliY q))))
     = Qubit.state q
  /\ Qubit.appliedGates (Qubit.pauliX (Qubit.pauliX q))
     = (Qubit.appliedGates q ++ ["X"; "X"])%list.
Proof.
  destruct q as [i [a b] p e w g].
  unfold Qubit.pauliX, Qubit.pauliY, Qubit.pauliZ. cbn.
  repeat split; try (f_equal; lra).
  now rewrite <- app_assoc.
Qed.

(** X2. [hadamard], the three Pauli gates, [rotationX] and [rotationY] keep
    [getProbability0() + getProbability1()], the squared norm of the state. *)
Theorem norm_preserved (q : Qubit.t) (theta : R) :
  let total q := Qubit.getProbability0 q + Qubit.getProbability1 q in
  total (Qubit.hadamard q) = total q
  /\ total (Qubit.pauliX q) = total q
  /\ total (Qubit.pauliY q) = total q
  /\ total (Qubit.pauliZ q) = total q
  /\ total (Qubit.rotationX theta q) = total q
  /\ total (Qubit.rotationY theta q) = total q.
Proof.
  destruct q as [i [a b] p e w g]. intros total. subst total.
  unfold Qubit.getProbability0, Qubit.getProbability1, Qubit.hadamard,
    Qubit.pauliX, Qubit.pauliY, Qubit.pauliZ, Qubit.rotationX, Qubit.rotationY.
  cbn -[pow]. rewrite !pow2_abs.
  pose proof sqrt2_pos as Hpos. pose proof sqrt2_sqr as Hsqr.
  pose proof (sin2_cos2' (theta / 2)) as Htrig.
  set (c := cos (theta / 2)) in *. set (s := sin (theta / 2)) in *.
  repeat split; try ring.
  - apply (Rmult_eq_reg_r (sqrt 2 * sqrt 2)); [ | nra].
    field_simplify; [ | lra]. nra.
  - nra.
  - nra.
Qed.

(** X3. [tGate] multiplies the second component by [sqrt 2] and adds [PI/4]
    to the phase, so it doubles [getProbability1()] and keeps
    [getProbability0()]; [rotationZ(theta)] scales the first component by
    [cos(theta/2)] and the second by [cos(theta/2) + sin(theta/2)].  Neither
    keeps the norm. *)
Theorem phase_gates_scale (q : Qubit.t) (theta : R) :
  Qubit.state (Qubit.tGate q)
  = (fst (Qubit.state q), sqrt 2 * snd (Qubit.state q))
  /\ Qubit.phase (Qubit.tGate q) = Qubit.phase q + PI / 4
  /\ Qubit.getProbability1 (Qubit.tGate q) = 2 * Qubit.getProbability1 q
  /\ Qubit.getProbability0 (Qubit.tGate q) = Qubit.getProbability0 q
  /\ Qubit.state (Qubit.rotationZ theta q)
     = (fst (Qubit.state q) * cos (theta / 2),
        snd (Qubit.state q) * (cos (theta / 2) + sin (theta / 2)))
  /\ Qubit.phase (Qubit.rotationZ theta q) = Qubit.phase q + theta.
Proof.
  destruct q as [i [a b] p e w g].
  unfold Qubit.tGate, Qubit.rotationZ, Qubit.getProbability0,
    Qubit.getProbability1. cbn -[pow].
  rewrite cos_PI4, sin_PI4, sin_PI2, !pow2_abs.
  pose proof sqrt2_pos as Hpos. pose proof sqrt2_sqr as Hsqr.
  assert (Hinv : 1 / sqrt 2 + 1 / sqrt 2 = sqrt 2).
  { apply (Rmult_eq_reg_r (sqrt 2)); [ | lra]. field_simplify; lra. }
  assert (Hb : b * (1 / sqrt 2) + b * (1 / sqrt 2) = sqrt 2 * b).
  { replace (b * (1 / sqrt 2) + b * (1 / sqrt 2))
      with (b * (1 / sqrt 2 + 1 / sqrt 2)) by ring.
    rewrite Hinv. ring. }
  rewrite Hb. repeat split; try reflexivity.
  - nra.
  - f_equal. ring.
Qed.

(** X4. Measuring a qubit that has just been measured gives the same result
    and leaves the same state, whenever the second sample is in [[0, 1)]. *)
Theorem measure_again (random : nat -> R) (q : Qubit.t) (n : nat) :
  0 <= random (S n) < 1 ->
  let first := Qubit.measure random q n in
  Qubit.measure random (snd (fst first)) (snd first)
  = (fst first, S (S n)).
Proof.
  intros [H0 H1] first. subst first.
  unfold Qubit.measure, bind, Qubit.draw, ret.
  destruct (Rltb (random n) _); cbn -[pow].
  - rewrite Rabs_R1. rewrite Rltb_true by lra. reflexivity.
  - rewrite Rabs_R0. rewrite Rltb_false by lra. reflexivity.
Qed.

Lemma measure_again_witness :
  0 <= 0.5 < 1
  /\ Qubit.measure (fun _ => 0.5)
       (snd (fst (Qubit.measure (fun _ => 0.5) (Qubit.new "A0") 0%nat)))
       (snd (Qubit.measure (fun _ => 0.5) (Qubit.new "A0") 0%nat))
     = (fst (Qubit.measure (fun _ => 0.5) (Qubit.new "A0") 0%nat), 2%nat).
Proof.
  assert (H : 0 <= 0.5 < 1) by lra.
  split; [exact H | ].
  exact (measure_again (fun _ => 0.5) (Qubit.new "A0") 0%nat H).
Defined.

End QubitExtra.

(** ** QuantumCircuit: gates between qubits *)

Module CircuitExtra.
Import QuantumCircuit CircuitInvariant CircuitShape CircuitFacts.

Lemma circuit_eq (c c' : t) :
  numQubits c' = numQubits c -> circuitId c' = circuitId c ->
  qubits c' = qubits c -> gates c' = gates c ->
  measurementHistory c' = measurementHistory c ->
  selectedGates c' = selectedGates c ->
  interCircuitConnections c' = interCircuitConnections c ->
  c' = c.
Proof. destruct c, c'. cbn. congruence. Qed.

Lemma only_qubits_eq (c c' : t) :
  only_qubits c c' -> qubits c' = qubits c -> c' = c.
Proof.
  intros [[Hn Hid Hg Hs _] Hh Hc] Hq. now apply circuit_eq.
Qed.

Lemma sized_lt (c : t) i q :
  length (qubits c) = numQubits c -> qubits c !! i = Some q ->
  (i <? numQubits c)%nat = true.
Proof.
  intros Hlen Hq. apply Nat.ltb_lt. rewrite <- Hlen.
  eapply lookup_lt_Some, Hq.
Qed.

Lemma swap_lookups (c : t) i j qi qj :
  length (qubits c) = numQubits c -> i <> j ->
  qubits c !! i = Some qi -> qubits c !! j = Some qj ->
  qubits (swap i j c) !! i
  = Some (Qubit.set_phase (Qubit.phase qj) (Qubit.set_state (Qubit.state qj) qi))
  /\ qubits (swap i j c) !! j
     = Some (Qubit.set_phase (Qubit.phase qi) (Qubit.set_state (Qubit.state qi) qj))
  /\ (forall k, k <> i -> k <> j -> qubits (swap i j c) !! k = qubits c !! k)
  /\ length (qubits (swap i j c)) = numQubits (swap i j c).
Proof.
  intros Hlen Hij Hi Hj. unfold swap.
  rewrite (sized_lt c i qi Hlen Hi), (sized_lt c j qj Hlen Hj), Hi, Hj.
  cbn. repeat split.
  - rewrite list_lookup_alter_ne, list_lookup_alter_eq by auto.
    rewrite list_lookup_alter_ne, list_lookup_alter_eq by auto.
    now rewrite Hi.
  - rewrite list_lookup_alter_eq, list_lookup_alter_ne by auto.
    rewrite list_lookup_alter_eq, list_lookup_alter_ne by auto.
    now rewrite Hj.
  - intros k Hki Hkj. now rewrite !list_lookup_alter_ne by auto.
  - now rewrite !length_alter.
Qed.

(** X5. [swap(i, j)] on two different qubits in range exchanges their
    [state] and [phase] and nothing else: flags, partner lists, applied-gate
    lists and ids stay in place, the other qubits are untouched, and a
    second [swap(i, j)] gives the circuit back. *)
Theorem swap_exchanges (c : t) (i j : nat) (qi qj : Qubit.t) :
  length (qubits c) = numQubits c -> i <> j ->
  qubits c !! i = Some qi -> qubits c !! j = Some qj ->
  qubits (swap i j c) !! i
  = Some (Qubit.Build (Qubit.id qi) (Qubit.state qj) (Qubit.phase qj)
            (Qubit.entangled qi) (Qubit.entangledWith qi)
            (Qubit.appliedGates qi))
  /\ qubits (swap i j c) !! j
     = Some (Qubit.Build (Qubit.id qj) (Qubit.state qi) (Qubit.phase qi)
               (Qubit.entangled qj) (Qubit.entangledWith qj)
               (Qubit.appliedGates qj))
  /\ (forall k, k <> i -> k <> j -> qubits (swap i j c) !! k = qubits c !! k)
  /\ swap i j (swap i j c) = c.
Proof.
  intros Hlen Hij Hi Hj.
  destruct (swap_lookups c i j qi qj Hlen Hij Hi Hj) as (Si & Sj & Sk & Slen).
  split; [exact Si | split; [exact Sj | split; [exact Sk | ]]].
  destruct (swap_lookups (swap i j c) i j _ _ Slen Hij Si Sj)
    as (Ti & Tj & Tk & _).
  apply only_qubits_eq.
  - eapply only_qubits_trans; apply only_qubits_swap.
  - apply list_eq. intros k.
    destruct (decide (k = i)) as [-> | Hki];
      [rewrite Ti, Hi; now destruct qi | ].
    destruct (decide (k = j)) as [-> | Hkj];
      [rewrite Tj, Hj; now destruct qj | ].
    now rewrite Tk, Sk.
Qed.

Lemma swap_exchanges_witness :
  (0 <> 1)%nat
  /\ qubits (new 5 "A" None) !! 0%nat = Some (Qubit.new "A0")
  /\ qubits (new 5 "A" None) !! 1%nat = Some (Qubit.new "A1")
  /\ swap 0 1 (swap 0 1 (new 5 "A" None)) = new 5 "A" None.
Proof.
  assert (H : (0 <> 1)%nat) by discriminate.
  split; [exact H | ]. split; [reflexivity | ]. split; [reflexivity | ].
  exact (proj2 (proj2 (proj2
    (swap_exchanges (new 5 "A" None) 0 1 (Qubit.new "A0") (Qubit.new "A1")
       eq_refl H eq_refl eq_refl)))).
Defined.

(** X6. [entangleQubits(i, j)] does nothing when an index is out of range.
    In range (and [i <> j]) it flags both qubits and appends each index to
    the other's [entangledWith], without looking for an entry already there:
    a second call appends the partner a second time. *)
Theorem entangleQubits_appends (c : t) (i j : nat) :
  ((numQubits c <= i)%nat \/ (numQubits c <= j)%nat ->
     entangleQubits i j c = c)
  /\ (forall qi qj,
        length (qubits c) = numQubits c -> i <> j ->
        qubits c !! i = Some qi -> qubits c !! j = Some qj ->
        let c2 := entangleQubits i j (entangleQubits i j c) in
        qubits (entangleQubits i j c) !! i
        = Some (Qubit.push_entangledWith (Qubit.Index j)
                  (Qubit.set_entangled true qi))
        /\ qubits (entangleQubits i j c) !! j
           = Some (Qubit.push_entangledWith (Qubit.Index i)
                     (Qubit.set_entangled true qj))
        /\ Qubit.entangledWith <$> qubits c2 !! i
           = Some (Qubit.entangledWith qi
                   ++ [Qubit.Index j; Qubit.Index j])%list).
Proof.
  split.
  - intros Hout. unfold entangleQubits.
    destruct (Nat.ltb_spec i (numQubits c)), (Nat.ltb_spec j (numQubits c));
      cbn; try reflexivity; lia.
  - intros qi qj Hlen Hij Hi Hj c2. subst c2.
    assert (Hstep : forall c qi qj,
              length (qubits c) = numQubits c ->
              qubits c !! i = Some qi -> qubits c !! j = Some qj ->
              qubits (entangleQubits i j c) !! i
              = Some (Qubit.push_entangledWith (Qubit.Index j)
                        (Qubit.set_entangled true qi))
              /\ qubits (entangleQubits i j c) !! j
                 = Some (Qubit.push_entangledWith (Qubit.Index i)
                           (Qubit.set_entangled true qj))
              /\ length (qubits (entangleQubits i j c))
                 = numQubits (entangleQubits i j c)).
    { clear c qi qj Hlen Hi Hj. intros c qi qj Hlen Hi Hj.
      unfold entangleQubits.
      rewrite (sized_lt c i qi Hlen Hi), (sized_lt c j qj Hlen Hj). cbn.
      repeat split.
      - rewrite list_lookup_alter_ne, list_lookup_alter_eq by auto.
        rewrite list_lookup_alter_ne, list_lookup_alter_eq by auto.
        now rewrite Hi.
      - rewrite list_lookup_alter_eq, list_lookup_alter_ne by auto.
        rewrite list_lookup_alter_eq, list_lookup_alter_ne by auto.
        now rewrite Hj.
      - now rewrite !length_alter. }
    destruct (Hstep c qi qj Hlen Hi Hj) as (Ei & Ej & Elen).
    split; [exact Ei | split; [exact Ej | ]].
    destruct (Hstep _ _ _ Elen Ei Ej) as (Fi & _ & _).
    rewrite Fi. cbn. now rewrite <- app_assoc.
Qed.

Lemma entangleQubits_appends_witness :
  ((numQubits (new 5 "A" None) <= 7)%nat
   \/ (numQubits (new 5 "A" None) <= 1)%nat)
  /\ entangleQubits 7 1 (new 5 "A" None) = new 5 "A" None
  /\ length (qubits (new 5 "A" None)) = numQubits (new 5 "A" None)
  /\ (0 <> 1)%nat
  /\ qubits (new 5 "A" None) !! 0%nat = Some (Qubit.new "A0")
  /\ qubits (new 5 "A" None) !! 1%nat = Some (Qubit.new "A1")
  /\ qubits (entangleQubits 0 1 (new 5 "A" None)) !! 0%nat
     = Some (Qubit.push_entangledWith (Qubit.Index 1)
               (Qubit.set_entangled true (Qubit.new "A0")))
  /\ qubits (entangleQubits 0 1 (new 5 "A" None)) !! 1%nat
     = Some (Qubit.push_entangledWith (Qubit.Index 0)
               (Qubit.set_entangled true (Qubit.new "A1")))
  /\ Qubit.entangledWith
       <$> qubits (entangleQubits 0 1 (entangleQubits 0 1 (new 5 "A" None)))
           !! 0%nat
     = Some [Qubit.Index 1; Qubit.Index 1].
Proof.
  assert (H : (numQubits (new 5 "A" None) <= 7)%nat
              \/ (numQubits (new 5 "A" None) <= 1)%nat)
    by (left; cbn; lia).
  assert (Hij : (0 <> 1)%nat) by discriminate.
  split; [exact H | ].
  split; [exact (proj1 (entangleQubits_appends (new 5 "A" None) 7 1) H) | ].
  split; [reflexivity | ]. split; [exact Hij | ].
  split; [reflexivity | ]. split; [reflexivity | ].
  exact (proj2 (entangleQubits_appends (new 5 "A" None) 0 1)
           (Qubit.new "A0") (Qubit.new "A1") eq_refl Hij eq_refl eq_refl).
Defined.

(** *** Entanglement flags after construction *)

Lemma keeps_entangled_set_state st : keeps_entangled (Qubit.set_state st).
Proof. now intros q. Qed.
Lemma keeps_entangled_set_phase p : keeps_entangled (Qubit.set_phase p).
Proof. now intros q. Qed.
Lemma keeps_entangled_set_true : keeps_entangled (Qubit.set_entangled true).
Proof. now intros q. Qed.
Lemma keeps_entangled_push p : keeps_entangled (Qubit.push_entangledWith p).
Proof. now intros q. Qed.
Lemma keeps_entangled_pauliX : keeps_entangled Qubit.pauliX.
Proof. now intros q. Qed.

#[local] Hint Resolve keeps_entangled_set_state keeps_entangled_set_phase
  keeps_entangled_set_true keeps_entangled_push keeps_entangled_pauliX
  : keeps_id.

Lemma all_entangled_on_qubit i m c :
  keeps_entangled m -> all_entangled c -> all_entangled (on_qubit i m c).
Proof.
  intros Hm [Hlen Hall]. split; cbn.
  - now rewrite length_alter.
  - apply Forall_alter; [exact Hall | ]. intros q _. apply Hm.
Qed.

Ltac entangled_chain :=
  repeat first
    [ assumption
    | apply all_entangled_on_qubit; [auto with keeps_id | ] ].

Lemma all_entangled_entangleQubits i j c :
  all_entangled c -> all_entangled (entangleQubits i j c).
Proof.
  intros H. unfold entangleQubits.
  destruct ((i <? numQubits c)%nat && (j <? numQubits c)%nat);
    entangled_chain.
Qed.

Lemma all_entangled_swap i j c : all_entangled c -> all_entangled (swap i j c).
Proof.
  intros H. unfold swap.
  destruct ((i <? numQubits c)%nat && (j <? numQubits c)%nat); [ | exact H].
  destruct (qubits c !! i), (qubits c !! j); entangled_chain.
Qed.

Lemma all_entangled_ccnot c1 c2 tgt c :
  all_entangled c -> all_entangled (ccnot c1 c2 tgt c).
Proof.
  intros H. unfold ccnot.
  destruct ((c1 <? numQubits c)%nat && (c2 <? numQubits c)%nat
            && (tgt <? numQubits c)%nat); [ | exact H].
  set (c' := entangleQubits c1 c2 _).
  assert (H' : all_entangled c')
    by (subst c'; now repeat apply all_entangled_entangleQubits).
  destruct (qubits c' !! c1), (qubits c' !! c2); try exact H'.
  destruct (Rgtb _ _ && Rgtb _ _); [ | exact H'].
  apply all_entangled_on_qubit; [apply keeps_entangled_pauliX | exact H'].
Qed.

Lemma all_entangled_createIntraCircuitEntanglement c :
  numQubits c = 5%nat -> length (qubits c) = 5%nat ->
  all_entangled (createIntraCircuitEntanglement c).
Proof.
  destruct c as [n id qs g h sel ic]. cbn. intros -> Hlen.
  destruct qs as [ | q0 [ | q1 [ | q2 [ | q3 [ | q4 [ | ? ?]]]]]];
    try discriminate.
  split; [reflexivity | ]. cbn. repeat constructor.
Qed.

(** X7. In a 5-qubit circuit built with a gate selection, whatever the
    selection, every qubit ends with [entangled = true] (the pairs (0,1),
    (2,3), (1,4) of [createIntraCircuitEntanglement] cover the five qubits,
    and no later gate clears the flag); built with [null], no qubit is
    entangled and all states are [[1, 0]]. *)
Theorem construction_entangles (circuitId : string) (g : SelectedGates.t) :
  Forall (fun q => Qubit.entangled q = true)
         (qubits (new 5 circuitId (Some g)))
  /\ Forall (fun q => Qubit.entangled q = false /\ Qubit.state q = (1, 0))
            (qubits (new 5 circuitId None)).
Proof.
  split; [ | cbn; repeat constructor].
  unfold new, setupCircuit. cbn [selectedGates].
  apply (forEach_invariant all_entangled).
  { intros [ | ] i s Hs; [now apply all_entangled_ccnot | exact Hs]. }
  apply (forEach_invariant all_entangled).
  { intros [ | ] i s Hs; [now apply all_entangled_swap | exact Hs]. }
  apply all_entangled_createIntraCircuitEntanglement; [reflexivity | ].
  cbn [qubits set_qubits]. now rewrite length_imap, length_map, length_seq.
Qed.

(** *** One tick of [evolve] *)

Lemma evolve_lookup dt c i q :
  qubits c !! i = Some q ->
  qubits (evolve dt c) !! i
  = Some (Qubit.rotationZ
            (0.008 * sin (Qubit.phase q + (0.1 + INR i * 0.03) * dt))
            (Qubit.set_phase (Qubit.phase q + (0.1 + INR i * 0.03) * dt) q)).
Proof.
  intros Hq. unfold evolve. cbn [qubits set_qubits].
  now rewrite list_lookup_imap, Hq.
Qed.

Lemma rotationZ_fields theta q :
  Qubit.appliedGates (Qubit.rotationZ theta q)
  = (Qubit.appliedGates q ++ ["Rz"])%list
  /\ Qubit.entangled (Qubit.rotationZ theta q) = Qubit.entangled q
  /\ Qubit.entangledWith (Qubit.rotationZ theta q) = Qubit.entangledWith q
  /\ Qubit.id (Qubit.rotationZ theta q) = Qubit.id q
  /\ Qubit.phase (Qubit.rotationZ theta q) = Qubit.phase q + theta.
Proof. unfold Qubit.rotationZ. now destruct (Qubit.state q). Qed.

(** X8. One call of [evolve(dt)] moves the phase of qubit [i] by
    [omega * dt + 0.008 * sin(phase + omega * dt)] with
    [omega = 0.1 + 0.03 * i], and appends one ['Rz'] to its [appliedGates];
    flags, partner lists and ids are kept.  So after [k] calls every
    applied-gate list is [k] entries longer. *)
Theorem evolve_appends (c : t) (dt : R) (i : nat) (q : Qubit.t) :
  qubits c !! i = Some q ->
  (exists q1,
      qubits (evolve dt c) !! i = Some q1
      /\ Qubit.phase q1
         = Qubit.phase q + (0.1 + INR i * 0.03) * dt
           + 0.008 * sin (Qubit.phase q + (0.1 + INR i * 0.03) * dt))
  /\ forall k, exists qk,
        qubits (Nat.iter k (evolve dt) c) !! i = Some qk
        /\ Qubit.appliedGates qk
           = (Qubit.appliedGates q ++ List.repeat "Rz" k)%list
        /\ Qubit.entangled qk = Qubit.entangled q
        /\ Qubit.entangledWith qk = Qubit.entangledWith q
        /\ Qubit.id qk = Qubit.id q.
Proof.
  intros Hq. split.
  - eexists. split; [apply evolve_lookup, Hq | ].
    now rewrite (proj2 (proj2 (proj2 (proj2 (rotationZ_fields _ _))))).
  - induction k as [ | k (qk & Hk & Hg & He & Hw & Hi)].
    + exists q. cbn. rewrite app_nil_r. auto.
    + cbn [Nat.iter]. eexists. split; [apply evolve_lookup, Hk | ].
      destruct (rotationZ_fields
                  (0.008 * sin (Qubit.phase qk + (0.1 + INR i * 0.03) * dt))
                  (Qubit.set_phase
                     (Qubit.phase qk + (0.1 + INR i * 0.03) * dt) qk))
        as (Rg & Re & Rw & Ri & _).
      rewrite Rg, Re, Rw, Ri. cbn [Qubit.appliedGates Qubit.entangled
        Qubit.entangledWith Qubit.id Qubit.set_phase].
      rewrite Hg, He, Hw, Hi, <- app_assoc, <- repeat_cons. auto.
Qed.

Lemma evolve_appends_witness :
  qubits (new 5 "A" None) !! 3%nat = Some (Qubit.new "A3")
  /\ exists qk,
       qubits (Nat.iter 2 (evolve 0.1) (new 5 "A" None)) !! 3%nat = Some qk
       /\ Qubit.appliedGates qk = ["Rz"; "Rz"]
       /\ Qubit.entangled qk = false
       /\ Qubit.entangledWith qk = []
       /\ Qubit.id qk = "A3".
Proof.
  split; [reflexivity | ].
  exact (proj2 (evolve_appends (new 5 "A" None) 0.1 3 (Qubit.new "A3") eq_refl)
           2%nat).
Defined.

(** *** [measureAll] *)

Section MeasureAllExtra.
Variable random : nat -> R.

Lemma measure_basis (q : Qubit.t) (n : nat) :
  exists b,
    Qubit.measure random q n = ((b, Qubit.set_state (basis b) q), S n)
    /\ (b = 0%nat \/ b = 1%nat).
Proof.
  unfold Qubit.measure, bind, Qubit.draw.
  destruct (Rltb _ _); [exists 0%nat | exists 1%nat]; cbn; auto.
Qed.

Lemma mapR_measure_basis (qs : list Qubit.t) (n : nat) :
  let r := mapR (Qubit.measure random) qs n in
  snd r = (n + length qs)%nat
  /\ length (fst r) = length qs
  /\ map snd (fst r)
     = zip_with (fun q b => Qubit.set_state (basis b) q) qs (map fst (fst r))
  /\ Forall (fun b => b = 0%nat \/ b = 1%nat) (map fst (fst r)).
Proof.
  revert n. induction qs as [ | q qs IH]; intros n.
  - cbn. repeat split; [lia | constructor].
  - rewrite mapR_cons.
    destruct (measure_basis q n) as (b & -> & Hb).
    specialize (IH (S n)).
    destruct (mapR (Qubit.measure random) qs (S n)) as [ms n'].
    cbn [fst snd map length zip_with] in *.
    destruct IH as (Hn & Hlen & Hst & Hbits).
    repeat split; [lia | now rewrite Hlen | now rewrite <- Hst
                  | now constructor].
Qed.

Lemma getProbability1_basis (qs : list Qubit.t) (bs : list nat) :
  length bs = length qs ->
  Forall (fun b => b = 0%nat \/ b = 1%nat) bs ->
  map Qubit.getProbability1
      (zip_with (fun q b => Qubit.set_state (basis b) q) qs bs)
  = map INR bs.
Proof.
  revert bs. induction qs as [ | q qs IH]; intros [ | b bs] Hlen Hbits;
    try discriminate; [reflexivity | ].
  inversion Hbits as [ | ? ? Hb Hbs]; subst.
  cbn [zip_with map]. f_equal; [ | apply IH; [now injection Hlen | exact Hbs]].
  unfold Qubit.getProbability1.
  destruct Hb as [-> | ->]; cbn -[pow Rabs].
  - rewrite Rabs_R0. ring.
  - rewrite Rabs_R1. ring.
Qed.

(** X9. [measureAll] consumes one random sample per qubit, leaves qubit [k]
    in the basis state of its result ([[1, 0]] for 0, [[0, 1]] for 1) with
    every other field as it was, and the entry it appends to
    [measurementHistory] holds as [probabilities] the results themselves:
    they are read after the collapse. *)
Theorem measureAll_snapshot (now : Z) (c : t) (n : nat) :
  let r := measureAll random now c n in
  let results := fst (fst r) in
  let c' := snd (fst r) in
  snd r = (n + length (qubits c))%nat
  /\ qubits c'
     = zip_with (fun q b => Qubit.set_state (basis b) q) (qubits c) results
  /\ map Qubit.getProbability1 (qubits c') = map INR results
  /\ list.last (measurementHistory c')
     = Some (BuildMeasurement now results (map INR results)).
Proof.
  unfold measureAll, bind.
  pose proof (mapR_measure_basis (qubits c) n) as H.
  destruct (mapR (Qubit.measure random) (qubits c) n) as [ms n'].
  cbn [fst snd] in H. destruct H as (Hn & Hlen & Hst & Hbits).
  assert (Hp : map Qubit.getProbability1 (map snd ms) = map INR (map fst ms)).
  { rewrite Hst. apply getProbability1_basis; [ | exact Hbits].
    now rewrite length_map. }
  cbn [ret fst snd qubits set_qubits set_measurementHistory measurementHistory].
  rewrite Hp.
  set (m := BuildMeasurement now (map fst ms) (map INR (map fst ms))).
  assert (Hlast : list.last
            (if (100 <? length (measurementHistory c ++ [m]))%nat
             then tail (measurementHistory c ++ [m])
             else (measurementHistory c ++ [m])%list) = Some m).
  { destruct (measurementHistory c) as [ | x old].
    - reflexivity.
    - destruct (100 <? _)%nat; [cbn [app tail] | ]; apply last_snoc. }
  destruct (100 <? length (measurementHistory c ++ [m]))%nat;
    cbn [fst snd qubits set_qubits set_measurementHistory measurementHistory];
    auto.
Qed.

End MeasureAllExtra.

(** *** [createInterCircuitEntanglement] *)

#[local] Hint Resolve keeps_id_set_state keeps_id_set_phase
  keeps_id_set_entangled keeps_id_push_entangledWith : keeps_id.

Lemma only_qubits_connect conn a b a0 b0 :
  only_qubits a0 a -> only_qubits b0 b ->
  only_qubits a0 (fst (connect conn (a, b)))
  /\ only_qubits b0 (snd (connect conn (a, b))).
Proof.
  intros Ha Hb. unfold connect. destruct conn as [thisQubit otherQubit].
  destruct ((thisQubit <? numQubits a)%nat && (otherQubit <? numQubits b)%nat);
    [ | now split].
  destruct (qubits a !! thisQubit), (qubits b !! otherQubit); try now split.
  cbn [fst snd]. split.
  - eapply only_qubits_trans; [exact Ha | ]. chain.
  - eapply only_qubits_trans; [exact Hb | ]. chain.
Qed.

Lemma connect_out_of_range i j a b :
  (numQubits a <= i \/ numQubits b <= j)%nat ->
  connect (i, j) (a, b) = (a, b).
Proof.
  intros H. unfold connect.
  replace ((i <? numQubits a)%nat && (j <? numQubits b)%nat) with false;
    [reflexivity | ].
  symmetry. apply andb_false_iff.
  destruct H; [left | right]; apply Nat.ltb_ge; lia.
Qed.

(** X10. [createInterCircuitEntanglement] stores the whole connection list
    in the receiving circuit's [interCircuitConnections], also the pairs
    that are out of range, and never writes the other circuit's list; when
    every pair is out of range, no qubit of either circuit changes. *)
Theorem createInterCircuitEntanglement_records
    (this otherCircuit : t) (connections : list (nat * nat)) :
  let r := createInterCircuitEntanglement this otherCircuit connections in
  interCircuitConnections (fst r) = connections
  /\ interCircuitConnections (snd r) = interCircuitConnections otherCircuit
  /\ (Forall (fun conn => (numQubits this <= fst conn
                           \/ numQubits otherCircuit <= snd conn)%nat)
             connections ->
      qubits (fst r) = qubits this /\ qubits (snd r) = qubits otherCircuit).
Proof.
  cbn zeta.
  assert (H : only_qubits (set_interCircuitConnections connections this)
                (fst (createInterCircuitEntanglement this otherCircuit
                        connections))
              /\ only_qubits otherCircuit
                   (snd (createInterCircuitEntanglement this otherCircuit
                           connections))).
  { unfold createInterCircuitEntanglement.
    apply (forEach_invariant
             (fun cs =>
                only_qubits (set_interCircuitConnections connections this)
                            (fst cs)
                /\ only_qubits otherCircuit (snd cs))).
    - intros conn _ [a b] [Ha Hb]. now apply only_qubits_connect.
    - split; apply only_qubits_refl. }
  destruct H as [Ha Hb].
  split; [exact (only_connections _ _ Ha) | ].
  split; [exact (only_connections _ _ Hb) | ].
  intros Hout.
  rewrite EntanglementFacts.createInterCircuitEntanglement_fold.
  assert (Hfold : forall l a b,
             Forall (fun conn => (numQubits a <= fst conn
                                  \/ numQubits b <= snd conn)%nat) l ->
             fold_left (fun cs conn => connect conn cs) l (a, b) = (a, b)).
  { induction l as [ | [i j] l IH]; intros a b Hl; [reflexivity | ].
    inversion Hl as [ | ? ? Hij Hl']; subst. cbn [fold_left].
    rewrite connect_out_of_range by exact Hij. now apply IH. }
  rewrite Hfold by exact Hout. now split.
Qed.

Lemma createInterCircuitEntanglement_records_witness :
  Forall (fun conn => (5 <= fst conn \/ 5 <= snd conn)%nat) [(5, 0); (1, 7)]%nat
  /\ qubits (fst (createInterCircuitEntanglement (new 5 "A" None)
                    (new 5 "B" None) [(5, 0); (1, 7)]%nat))
     = qubits (new 5 "A" None)
  /\ interCircuitConnections
       (fst (createInterCircuitEntanglement (new 5 "A" None)
               (new 5 "B" None) [(5, 0); (1, 7)]%nat))
     = [(5, 0); (1, 7)]%nat.
Proof.
  assert (H : Forall (fun conn => (5 <= fst conn \/ 5 <= snd conn)%nat)
                [(5, 0); (1, 7)]%nat).
  { repeat constructor; cbn; lia. }
  pose proof (createInterCircuitEntanglement_records (new 5 "A" None)
                (new 5 "B" None) [(5, 0); (1, 7)]%nat) as (Hc & _ & Hq).
  split; [exact H | ]. split; [exact (proj1 (Hq H)) | exact Hc].
Defined.

(** *** The shape of a circuit over its life *)

(** X11. Whatever sequence of method calls follows the constructor, the
    circuit keeps [numQubits], [circuitId] and [selectedGates], has exactly
    [numQubits] qubits, qubit [i] has the id [circuitId] followed by [i], and
    [getCurrentProbabilities] reports one entry per qubit, each under the
    qubit's own id. *)
Theorem reachable_shape (n : nat) (cid : string)
    (g : option SelectedGates.t) (c : t) :
  reachable (new n cid g) c ->
  numQubits c = n /\ circuitId c = cid /\ selectedGates c = g
  /\ length (qubits c) = n
  /\ (forall i, (i < n)%nat ->
        exists q, qubits c !! i = Some q
                  /\ Qubit.id q = (cid ++ string_of_nat i)%string)
  /\ length (getCurrentProbabilities c) = n
  /\ map id (getCurrentProbabilities c) = map Qubit.id (qubits c).
Proof.
  intros Hreach.
  destruct (reachable_new _ _ _ _ Hreach) as (Hn & Hid & Hg & Hlen & Hwf & _).
  destruct Hwf as [_ Hids]. rewrite Hn, Hid in Hids.
  assert (Hq : forall i, (i < n)%nat ->
             exists q, qubits c !! i = Some q
                       /\ Qubit.id q = (cid ++ string_of_nat i)%string).
  { intros i Hi.
    destruct (lookup_lt_is_Some_2 (qubits c) i) as [q Hq]; [lia | ].
    exists q. split; [exact Hq | ].
    assert (H : map Qubit.id (qubits c) !! i = Some (Qubit.id q))
      by (change (map Qubit.id (qubits c)) with (Qubit.id <$> qubits c);
          now rewrite list_lookup_fmap, Hq).
    rewrite Hids in H.
    change (map (fun i => (cid ++ string_of_nat i)%string) (seq 0 n))
      with ((fun i => (cid ++ string_of_nat i)%string) <$> seq 0 n) in H.
    rewrite list_lookup_fmap, lookup_seq_lt in H by exact Hi.
    cbn in H. now injection H. }
  repeat split; try assumption.
  - unfold getCurrentProbabilities. now rewrite length_imap.
  - apply list_eq. intros i.
    change (map id (getCurrentProbabilities c))
      with (id <$> getCurrentProbabilities c).
    change (map Qubit.id (qubits c)) with (Qubit.id <$> qubits c).
    unfold getCurrentProbabilities.
    rewrite !list_lookup_fmap, list_lookup_imap.
    destruct (qubits c !! i) as [q | ] eqn:E; [ | reflexivity].
    cbn. f_equal.
    assert (Hi : (i < n)%nat)
      by (rewrite <- Hlen; eapply lookup_lt_Some; exact E).
    destruct (Hq i Hi) as (q' & E' & Hid').
    rewrite Hid. congruence.
Qed.

Lemma reachable_shape_witness :
  reachable (new 5 "A" None) (evolve 0.1 (new 5 "A" None))
  /\ length (qubits (evolve 0.1 (new 5 "A" None))) = 5%nat.
Proof.
  assert (H : reachable (new 5 "A" None) (evolve 0.1 (new 5 "A" None)))
    by exact (rtc_once _ _ (step_evolve (new 5 "A" None) 0.1)).
  split; [exact H | ].
  exact (proj1 (proj2 (proj2 (proj2
           (reachable_shape 5 "A" None _ H))))).
Defined.

End CircuitExtra.

Module FlowExtra.
Import QuantumLaminarFlow FlowShape.

Lemma Rltb_false_inv x y : Rltb x y = false -> y <= x.
Proof. unfold Rltb. destruct (Rlt_dec x y); [discriminate | lra]. Qed.

Lemma Rgtb_false_inv x y : Rgtb x y = false -> x <= y.
Proof. unfold Rgtb. destruct (Rgt_dec x y); [discriminate | lra]. Qed.

(** *** [integrateStreamline] *)

Lemma integrate_loop_path this steps :
  forall cur coords,
  exists rest,
    integrate_loop this steps cur coords = (coords ++ rest)%list
    /\ (length rest <= steps)%nat
    /\ Forall (inside this) rest.
Proof.
  induction steps as [ | steps IH]; intros cur coords.
  - exists []. cbn. rewrite app_nil_r. repeat split; [lia | constructor].
  - cbn [integrate_loop].
    set (v := interpolateVelocity this cur).
    set (p := (fst cur + fst v * 0.025, snd cur + snd v * 0.025)).
    destruct (Rltb (fst p) 0.1) eqn:E1; cbn [orb];
      [exists []; rewrite app_nil_r; repeat split; [cbn; lia | constructor] | ].
    destruct (Rgtb (fst p) (Lx this - 0.1)) eqn:E2; cbn [orb];
      [exists []; rewrite app_nil_r; repeat split; [cbn; lia | constructor] | ].
    destruct (Rltb (snd p) 0.1) eqn:E3; cbn [orb];
      [exists []; rewrite app_nil_r; repeat split; [cbn; lia | constructor] | ].
    destruct (Rgtb (snd p) (Ly this - 0.1)) eqn:E4; cbn [orb];
      [exists []; rewrite app_nil_r; repeat split; [cbn; lia | constructor] | ].
    destruct (Rltb _ 0.001);
      [exists []; rewrite app_nil_r; repeat split; [cbn; lia | constructor] | ].
    destruct (IH p (coords ++ [p])%list) as (rest & -> & Hlen & Hin).
    exists (p :: rest). rewrite <- app_assoc. cbn [app length].
    repeat split; [lia | ]. constructor; [ | exact Hin].
    apply Rltb_false_inv in E1, E3. apply Rgtb_false_inv in E2, E4.
    unfold inside. lra.
Qed.

(** X12. The path that [integrateStreamline] returns starts with the start
    point itself, whether or not it lies in the domain, has at most 500
    further points, and each further point is at least 0.1 away from every
    side of the domain. *)
Theorem integrateStreamline_path (this : t) (startPoint : R * R) :
  exists rest,
    integrateStreamline this startPoint = startPoint :: rest
    /\ (length rest <= 500)%nat
    /\ Forall (inside this) rest.
Proof.
  destruct (integrate_loop_path this 500 startPoint [startPoint])
    as (rest & E & Hlen & Hin).
  exists rest. split; [exact E | split; assumption].
Qed.

(** *** [computeQuantumPhase] *)

Lemma last_default_lookup (d : list R) :
  d <> [] -> d !! (length d - 1)%nat = Some (List.last d 0).
Proof.
  induction d as [ | x d IH]; [congruence | intros _].
  destruct d as [ | y d]; [reflexivity | ].
  specialize (IH ltac:(discriminate)).
  cbn [length] in *. replace (S (S (length d)) - 1)%nat with (S (length d)) by lia.
  replace (S (length d) - 1)%nat with (length d) in IH by lia.
  exact IH.
Qed.

Lemma segment_nonneg p q : 0 <= segment p q.
Proof. unfold segment. apply sqrt_pos. Qed.

Lemma distances_from_prefix (rest : list (R * R)) :
  forall prev d i x,
    d !! i = Some x -> distances_from prev rest d !! i = Some x.
Proof.
  induction rest as [ | r rest IH]; intros prev d i x H.
  - exact H.
  - cbn [distances_from]. apply IH. now apply lookup_app_l_Some.
Qed.

Lemma distances_from_spec (rest : list (R * R)) :
  forall prev d,
    d <> [] ->
    let D := distances_from prev rest d in
    length D = (length d + length rest)%nat
    /\ forall k p q,
         (prev :: rest) !! k = Some p ->
         (prev :: rest) !! S k = Some q ->
         exists a,
           D !! (length d - 1 + k)%nat = Some a
           /\ D !! (length d + k)%nat = Some (a + segment p q).
Proof.
  induction rest as [ | r rest IH]; intros prev d Hd; cbn zeta.
  - cbn [distances_from length]. split; [lia | ].
    intros k p q _ H. destruct k; discriminate.
  - cbn [distances_from].
    set (d' := (d ++ [List.last d 0 + segment prev r])%list).
    assert (Hd' : d' <> []) by (subst d'; destruct d; discriminate).
    assert (Hlen' : length d' = S (length d))
      by (subst d'; rewrite length_app; cbn; lia).
    destruct (IH r d' Hd') as [HL HK]. rewrite Hlen' in HL, HK.
    pose proof (distances_from_prefix rest r d') as Hpre.
    split; [cbn [length]; lia | ].
    intros [ | k] p q Hp Hq.
    + cbn in Hp, Hq. injection Hp as <-. injection Hq as <-.
      exists (List.last d 0). split.
      * apply Hpre. subst d'. apply lookup_app_l_Some.
        rewrite Nat.add_0_r. now apply last_default_lookup.
      * apply Hpre. subst d'. rewrite Nat.add_0_r.
        rewrite lookup_app_r by lia. now rewrite Nat.sub_diag.
    + destruct (HK k p q Hp Hq) as (a & Ha & Hb).
      exists a. assert (length d <> 0)%nat by (destruct d; cbn; congruence).
      replace (length d - 1 + S k)%nat with (S (length d) - 1 + k)%nat by lia.
      replace (length d + S k)%nat with (S (length d) + k)%nat by lia.
      now split.
Qed.

(** X13. [computeQuantumPhase] returns one phase per point of the path, and
    from each point to the next the phase grows by 2.5 times the length of
    the segment between them: it never decreases along a path. *)
Theorem computeQuantumPhase_increments
    (this : t) (coords : list (R * R)) (streamlineId : nat) :
  length (computeQuantumPhase this coords streamlineId) = length coords
  /\ forall k p q,
       coords !! k = Some p ->
       coords !! S k = Some q ->
       exists a b,
         computeQuantumPhase this coords streamlineId !! k = Some a
         /\ computeQuantumPhase this coords streamlineId !! S k = Some b
         /\ b - a = 2.5 * segment p q
         /\ a <= b.
Proof.
  unfold computeQuantumPhase.
  destruct (length coords <? 2)%nat eqn:Hlen.
  - split; [apply repeat_length | ].
    intros k p q _ Hq. apply Nat.ltb_lt in Hlen.
    apply lookup_lt_Some in Hq. lia.
  - destruct coords as [ | c0 rest]; [discriminate | ].
    destruct (distances_from_spec rest c0 [0] ltac:(discriminate)) as [HL HK].
    cbn [length] in HL, HK.
    match goal with |- context [map ?f _] => set (f0 := f) end.
    split; [rewrite length_map, HL; cbn; lia | ].
    intros k p q Hp Hq.
    destruct (HK k p q Hp Hq) as (a & Ha & Hb).
    replace (1 - 1 + k)%nat with k in Ha by lia.
    replace (1 + k)%nat with (S k) in Hb by lia.
    exists (f0 a), (f0 (a + segment p q)).
    change (map f0 ?l) with (f0 <$> l).
    rewrite !list_lookup_fmap, Ha, Hb.
    pose proof (segment_nonneg p q).
    subst f0. cbn. repeat split; lra.
Qed.

Lemma computeQuantumPhase_increments_witness :
  [(1, 1); (4, 5)] !! 0%nat = Some (1, 1)
  /\ [(1, 1); (4, 5)] !! 1%nat = Some (4, 5)
  /\ exists a b,
       computeQuantumPhase Scenario.bareFlow [(1, 1); (4, 5)] 3 !! 0%nat
       = Some a
       /\ computeQuantumPhase Scenario.bareFlow [(1, 1); (4, 5)] 3 !! 1%nat
          = Some b
       /\ b - a = 2.5 * segment (1, 1) (4, 5)
       /\ a <= b.
Proof.
  split; [reflexivity | ]. split; [reflexivity | ].
  exact (proj2 (computeQuantumPhase_increments Scenario.bareFlow
                  [(1, 1); (4, 5)] 3%nat) 0%nat (1, 1) (4, 5) eq_refl eq_refl).
Defined.

(** *** The flow that the constructor returns *)

Lemma mapR_spec {A B} (P : B -> Prop) (k : nat) (f : A -> Rand B)
    (l : list A) :
  (forall a n, P (fst (f a n)) /\ snd (f a n) = (n + k)%nat) ->
  forall n,
    Forall P (fst (mapR f l n))
    /\ length (fst (mapR f l n)) = length l
    /\ snd (mapR f l n) = (n + k * length l)%nat.
Proof.
  intros Hf. induction l as [ | a l IH]; intros n.
  - cbn. repeat split; [constructor | lia].
  - rewrite CircuitFacts.mapR_cons. destruct (Hf a n) as [Hp Hn].
    destruct (f a n) as [b n1]. destruct (IH n1) as (HF & HL & HS).
    destruct (mapR f l n1) as [bs n2]. cbn [fst snd length] in *.
    repeat split; [now constructor | now rewrite HL | lia].
Qed.

Lemma Rsum_nonneg (l : list R) : Forall (fun p => 0 <= p) l -> 0 <= Rsum l.
Proof.
  induction 1 as [ | x l Hx _ IH].
  - unfold Rsum. cbn. lra.
  - rewrite StreamlineFacts.Rsum_cons. lra.
Qed.

Lemma Rsum_elem_le (l : list R) :
  Forall (fun p => 0 <= p) l -> Forall (fun p => p <= Rsum l) l.
Proof.
  induction 1 as [ | x l Hx Hl IH].
  - constructor.
  - rewrite StreamlineFacts.Rsum_cons. pose proof (Rsum_nonneg l Hl).
    constructor; [lra | ].
    eapply Forall_impl; [exact IH | ]. cbn. intros p Hp. lra.
Qed.

Lemma density_length this coords streamlineId :
  length (computeQuantumProbabilityDensity this coords streamlineId)
  = length coords.
Proof.
  unfold computeQuantumProbabilityDensity.
  destruct (length coords =? 0)%nat eqn:E.
  - apply Nat.eqb_eq in E. now rewrite E.
  - destruct (Rgtb _ _); rewrite ?length_map, length_imap; reflexivity.
Qed.

Lemma density_range this coords streamlineId :
  Forall (fun p => 0 < p <= 1)
         (computeQuantumProbabilityDensity this coords streamlineId).
Proof.
  destruct coords as [ | c0 coords]; [constructor | ].
  assert (Hpos : Forall (fun p => 0 < p)
            (computeQuantumProbabilityDensity this (c0 :: coords)
               streamlineId)).
  { unfold computeQuantumProbabilityDensity.
    cbn [length Nat.eqb].
    match goal with |- context [Rgtb (Rsum ?l) 0] => set (probDensity := l) end.
    assert (Hall : Forall (fun p => 0.1 <= p) probDensity)
      by (apply StreamlineFacts.imap_Forall; intros i a; apply Rmax_l).
    assert (Hsum : 0 < Rsum probDensity)
      by (apply StreamlineFacts.Rsum_pos; [discriminate | exact Hall]).
    rewrite (Rgtb_true _ _ Hsum). apply List.Forall_map.
    eapply Forall_impl; [exact Hall | ]. intros p Hp. cbn beta in *.
    apply Rdiv_lt_0_compat; [lra | exact Hsum]. }
  assert (Hle : Forall (fun p => p <= 1)
            (computeQuantumProbabilityDensity this (c0 :: coords)
               streamlineId)).
  { pose proof (Rsum_elem_le
                  (computeQuantumProbabilityDensity this (c0 :: coords)
                     streamlineId)) as H.
    rewrite StreamlineFacts.computeQuantumProbabilityDensity_sum in H
      by discriminate.
    apply H. eapply Forall_impl; [exact Hpos | ].
    intros p Hp. cbn beta in *. lra. }
  apply Forall_and. now split.
Qed.

Lemma totalLength_from_ge (rest : list (R * R)) :
  forall prev acc, acc <= totalLength_from prev rest acc.
Proof.
  induction rest as [ | p rest IH]; intros prev acc; cbn [totalLength_from].
  - lra.
  - eapply Rle_trans; [ | apply IH].
    match goal with |- _ <= _ + sqrt ?x => pose proof (sqrt_pos x) end. lra.
Qed.

Lemma getSystemProbability_nonneg c :
  0 <= QuantumCircuit.getSystemProbability c.
Proof.
  unfold QuantumCircuit.getSystemProbability.
  assert (H : forall qs a, 0 <= a ->
            0 <= fold_left (fun prob q => prob * Qubit.getProbability1 q) qs a).
  { induction qs as [ | q qs IH]; intros a Ha; cbn [fold_left]; [exact Ha | ].
    apply IH. apply Rmult_le_pos; [exact Ha | ].
    unfold Qubit.getProbability1. apply pow2_ge_0. }
  apply H. lra.
Qed.

Lemma computeCoherenceLength_lower this coords :
  0.5 <= computeCoherenceLength this coords.
Proof.
  unfold computeCoherenceLength.
  destruct (length coords <? 2)%nat; [lra | ].
  match goal with |- _ <= ?T * exp ?e * ?q + _ =>
    assert (HT : 0 <= T);
    [ | assert (Hq : 0 <= q);
        [ | pose proof (exp_pos e);
            pose proof (Rmult_le_pos _ _ (Rmult_le_pos T (exp e) HT
                          ltac:(lra)) Hq); lra ] ]
  end.
  - destruct coords as [ | p rest]; [lra | apply totalLength_from_ge].
  - pose proof (getSystemProbability_nonneg (quantumCircuitA this)).
    destruct (circuitB_if_dual this) as [b | ]; [ | lra].
    pose proof (getSystemProbability_nonneg b). lra.
Qed.

Section Random.
Variable random : nat -> R.

Lemma defineStreamline_shape this i n :
  match fst (defineStreamline random this i n) with
  | Some s => constructed this s
  | None => True
  end
  /\ snd (defineStreamline random this i n) = (n + 2)%nat.
Proof.
  unfold defineStreamline, bind.
  match goal with |- context [let '(a, n') := ?m n in _] =>
    assert (Hn : snd (m n) = (n + 2)%nat)
      by (destruct (dualCircuitMode this);
          [destruct (i <? _)%nat | ]; cbn; lia);
    destruct (m n) as [start n1] end.
  cbn [snd] in Hn. subst n1.
  destruct (integrateStreamline_path this start) as (rest & E & Hlen & Hin).
  destruct (1 <? length (integrateStreamline this start))%nat eqn:H1;
    cbn [ret fst snd]; [ | now split].
  split; [ | reflexivity].
  apply Nat.ltb_lt in H1.
  unfold constructed, aligned.
  cbn [QuantumStreamline.coordinates QuantumStreamline.probabilityDensity
       QuantumStreamline.phase QuantumStreamline.coherenceLength].
  split; [split; [lia | split] | split; [ | split]].
  - apply density_length.
  - apply computeQuantumPhase_increments.
  - apply computeCoherenceLength_lower.
  - apply density_range.
  - exists start, rest. now rewrite E.
Qed.

Lemma length_omap_le {A} (l : list (option A)) :
  (length (omap (fun s => s) l) <= length l)%nat.
Proof. induction l as [ | [a | ] l IH]; cbn; lia. Qed.

Lemma Forall_omap {A} (P : A -> Prop) (l : list (option A)) :
  Forall (fun o => match o with Some s => P s | None => True end) l ->
  Forall P (omap (fun s => s) l).
Proof.
  induction 1 as [ | [s | ] l Hs _ IH]; cbn; [constructor | | exact IH].
  now constructor.
Qed.

Lemma defineQuantumStreamlines_shape this n :
  let r := defineQuantumStreamlines random this n in
  let numStreamlines := if dualCircuitMode this then 20%nat else 15%nat in
  (length (fst r) <= numStreamlines)%nat
  /\ snd r = (n + 2 * numStreamlines)%nat
  /\ Forall (constructed this) (fst r).
Proof.
  cbn zeta. unfold defineQuantumStreamlines, bind.
  match goal with |- context [mapR ?f ?l n] =>
    destruct (mapR_spec
                (fun o => match o with
                          | Some s => constructed this s
                          | None => True
                          end)
                2 f l (defineStreamline_shape this) n)
      as (HF & HL & HS);
    destruct (mapR f l n) as [made n1] end.
  cbn [ret fst snd] in *. rewrite length_seq in HL, HS.
  split; [ | split; [lia | now apply Forall_omap]].
  rewrite <- HL. apply length_omap_le.
Qed.

Lemma initializeInfoLayersWithQuantum_shape this n :
  let r := initializeInfoLayersWithQuantum random this n in
  length (fst r) = numLayers this
  /\ snd r = (n + nx this * ny this * numLayers this)%nat
  /\ Forall (layer_ok (nx this) (ny this)) (fst r)
  /\ map MasaInformativaLayer.depth (fst r)
     = map (fun layerIdx => INR layerIdx * 2.0) (seq 0 (numLayers this)).
Proof.
  cbn zeta. unfold initializeInfoLayersWithQuantum.
  match goal with |- context [mapR ?f ?l n] =>
    set (layer := f);
    assert (Hlayer : forall a m,
              (layer_ok (nx this) (ny this) (fst (layer a m))
               /\ MasaInformativaLayer.depth (fst (layer a m)) = INR a * 2.0)
              /\ snd (layer a m) = (m + nx this * ny this)%nat)
  end.
  { intros layerIdx m. subst layer. cbv beta delta [bind].
    match goal with |- context [mapR ?f ?l m] =>
      set (row := f);
      assert (Hrow : forall i k,
                (length (fst (row i k)) = nx this
                 /\ Forall (fun c : R * (R * R) => 0.01 <= fst c)
                           (fst (row i k)))
                /\ snd (row i k) = (k + nx this)%nat)
    end.
    { intros i k. subst row. cbn beta.
      match goal with |- context [mapR ?f ?l k] =>
        destruct (mapR_spec (fun c : R * (R * R) => 0.01 <= fst c) 1 f l
                    ltac:(intros j k'; cbv beta delta [Qubit.draw]; cbn;
                          split; [apply Rmax_l | lia]) k)
          as (HF & HL & HS)
      end.
      rewrite length_seq in HL, HS. repeat split; [exact HL | exact HF | lia]. }
    destruct (mapR_spec
                (fun r : list (R * (R * R)) =>
                   length r = nx this
                   /\ Forall (fun c : R * (R * R) => 0.01 <= fst c) r)
                (nx this) row (seq 0 (ny this)) Hrow m)
      as (HF & HL & HS).
    destruct (mapR row (seq 0 (ny this)) m) as [cells m1].
    cbn [ret fst snd] in *. rewrite length_seq in HL, HS.
    split; [ | lia]. split; [ | reflexivity].
    unfold layer_ok. cbn [MasaInformativaLayer.density
                            MasaInformativaLayer.velocityField].
    rewrite !length_map. repeat split; try exact HL.
    - apply List.Forall_map. eapply Forall_impl; [exact HF | ].
      cbn. intros r [Hr1 Hr2]. rewrite length_map. split; [exact Hr1 | ].
      now apply List.Forall_map.
    - apply List.Forall_map. eapply Forall_impl; [exact HF | ].
      cbn. intros r [Hr1 _]. now rewrite length_map. }
  destruct (mapR_spec (layer_ok (nx this) (ny this)) (nx this * ny this)
              layer (seq 0 (numLayers this))
              ltac:(intros a m; split; apply Hlayer) n)
    as (HF & HL & HS).
  rewrite length_seq in HL, HS.
  split; [exact HL | ]. split; [rewrite HS; lia | ].
  split; [exact HF | ].
  apply StreamlineFacts.mapR_fmap. intros a m. apply Hlayer.
Qed.

(** X14. The flow that [new QuantumLaminarFlow(gridSize, domainSize, A, B)]
    returns has 5 layers at depths 0, 2, 4, 6, 8, each over a grid of
    [gridSize] rows and columns with density at least 0.01 everywhere, and
    at most 15 streamlines (20 with a second circuit).  Every streamline
    has at least two points, one probability and one phase per point, each
    probability in (0, 1], a coherence length of at least 0.5, and all its
    points after the first at least 0.1 inside the domain.  The constructor
    draws one random sample per grid cell and layer, then two per seeded
    streamline.  This is for a grid size other than 1 and a domain with
    sides other than 0, where no quotient of the constructor divides by 0. *)
Theorem new_shape (gridSize : nat) (domainSize : R * R)
    (quantumCircuitA : QuantumCircuit.t)
    (quantumCircuitB : option QuantumCircuit.t) (n : nat) :
  gridSize <> 1%nat -> fst domainSize <> 0 -> snd domainSize <> 0 ->
  let r := new random gridSize domainSize quantumCircuitA quantumCircuitB n in
  let numStreamlines :=
    match quantumCircuitB with Some _ => 20%nat | None => 15%nat end in
  snd r = (n + gridSize * gridSize * 5 + 2 * numStreamlines)%nat
  /\ map MasaInformativaLayer.depth (masaInformativaLayers (fst r))
     = [0 * 2.0; 1 * 2.0; 2 * 2.0; 3 * 2.0; 4 * 2.0]
  /\ Forall (layer_ok gridSize gridSize) (masaInformativaLayers (fst r))
  /\ (length (streamlines (fst r)) <= numStreamlines)%nat
  /\ Forall (fun s =>
        aligned s
        /\ 0.5 <= QuantumStreamline.coherenceLength s
        /\ Forall (fun p => 0 < p <= 1)
                  (QuantumStreamline.probabilityDensity s)
        /\ exists start rest,
             QuantumStreamline.coordinates s = start :: rest
             /\ (length rest <= 500)%nat
             /\ Forall (inside (fst r)) rest) (streamlines (fst r)).
Proof.
  intros _ _ _. cbn zeta. unfold new, bind.
  match goal with |- context [initializeInfoLayersWithQuantum random ?t n] =>
    destruct (initializeInfoLayersWithQuantum_shape t n)
      as (_ & LS & LF & LD);
    destruct (initializeInfoLayersWithQuantum random t n) as [layers n1] end.
  match goal with |- context [defineQuantumStreamlines random ?t n1] =>
    destruct (defineQuantumStreamlines_shape t n1) as (SL & SS & SF);
    destruct (defineQuantumStreamlines random t n1) as [sl n2] end.
  cbn [ret fst snd masaInformativaLayers streamlines set_streamlines
       set_informationalReynolds set_masaInformativaLayers nx ny numLayers
       dualCircuitMode] in *.
  assert (Hnum : (if match quantumCircuitB with Some _ => true | None => false end
                  then 20%nat else 15%nat)
                 = match quantumCircuitB with
                   | Some _ => 20%nat | None => 15%nat end)
    by (destruct quantumCircuitB; reflexivity).
  rewrite Hnum in SL, SS.
  split; [unfold NUM_LAYERS in LS; lia | ].
  split; [rewrite LD; cbn; repeat f_equal; lra | ].
  split; [exact LF | ]. split; [exact SL | ].
  exact SF.
Qed.

(** *** [evolve] *)


Lemma imap_Forall_from {A B} (P : A -> Prop) (Q : B -> Prop)
    (f : nat -> A -> B) (l : list A) :
  (forall i a, P a -> Q (f i a)) -> Forall P l -> Forall Q (imap f l).
Proof.
  intros Hf H. revert f Hf. induction H as [ | a l Ha _ IH]; intros f Hf; cbn.
  - constructor.
  - constructor; [now apply Hf | ]. apply IH. intros i b. apply Hf.
Qed.








Lemma perturb_cases this s idx coord n :
  let p := fst (perturb random this s idx coord n) in
  ((idx = 0%nat \/ length (QuantumStreamline.coordinates s) <= S idx)%nat ->
   p = coord)
  /\ ((0 < idx)%nat ->
      (S idx < length (QuantumStreamline.coordinates s))%nat ->
      exists c0 c1, p = (clamp (Lx this) c0, clamp (Ly this) c1)).
Proof.
  cbn zeta. unfold perturb.
  destruct ((0 <? idx)%nat
            && (idx + 1 <? length (QuantumStreamline.coordinates s))%nat)
    eqn:E.
  - apply andb_true_iff in E. destruct E as [E1 E2].
    apply Nat.ltb_lt in E1, E2. split; [lia | ].
    intros _ _. unfold bind, Qubit.draw. cbn [ret fst]. eauto.
  - apply andb_false_iff in E. split; [reflexivity | ].
    intros H1 H2.
    destruct E as [E | E]; apply Nat.ltb_ge in E; lia.
Qed.


(** X17. One step of the jitter that [evolve] applies to a point of a
    streamline: a point that is at least 0.1 inside the domain stays so and
    moves by at most 0.001 along each axis, for samples in [0, 1); the first
    and the last point of a streamline do not move at all. *)
Theorem perturb_small (this : t) (s : QuantumStreamline.t) (idx : nat)
    (coord : R * R) (n : nat) :
  inside this coord ->
  0 <= random n < 1 ->
  0 <= random (S n) < 1 ->
  let p := fst (perturb random this s idx coord n) in
  inside this p
  /\ Rabs (fst p - fst coord) <= 0.001
  /\ Rabs (snd p - snd coord) <= 0.001
  /\ ((idx = 0%nat \/ S idx = length (QuantumStreamline.coordinates s)) ->
      p = coord).
Proof.
  intros [Hx Hy] Hr1 Hr2. cbn zeta.
  destruct (perturb_cases this s idx coord n) as [Hend _].
  assert (Hfix : fst (perturb random this s idx coord n) = coord ->
                 inside this (fst (perturb random this s idx coord n))
                 /\ Rabs (fst (fst (perturb random this s idx coord n))
                          - fst coord) <= 0.001
                 /\ Rabs (snd (fst (perturb random this s idx coord n))
                          - snd coord) <= 0.001).
  { intros ->. unfold inside. rewrite !Rminus_diag, Rabs_R0. lra. }
  unfold perturb in *.
  destruct ((0 <? idx)%nat
            && (idx + 1 <? length (QuantumStreamline.coordinates s))%nat).
  2: { destruct (Hfix eq_refl) as (H1 & H2 & H3). cbn [ret fst] in *. auto. }
  clear Hfix. unfold bind, Qubit.draw. cbn [ret fst snd].
  set (theta := default 0 (QuantumStreamline.phase s !! idx) + time this).
  pose proof (SIN_bound theta) as [Hs1 Hs2].
  assert (D1 : -0.001 <= 0.002 * sin theta * (random n - 0.5) <= 0.001)
    by (split; nra).
  assert (D2 : -0.001 <= 0.002 * sin theta * (random (S n) - 0.5) <= 0.001)
    by (split; nra).
  set (d1 := 0.002 * sin theta * (random n - 0.5)) in *.
  set (d2 := 0.002 * sin theta * (random (S n) - 0.5)) in *.
  assert (C : forall L c d, 0.1 <= c <= L - 0.1 -> -0.001 <= d <= 0.001 ->
              0.1 <= Rmax 0.1 (Rmin (L - 0.1) (c + d)) <= L - 0.1
              /\ Rabs (Rmax 0.1 (Rmin (L - 0.1) (c + d)) - c) <= 0.001).
  { intros L c d Hc Hd. unfold Rmax, Rmin, Rabs.
    repeat destruct (Rle_dec _ _); destruct (Rcase_abs _); lra. }
  destruct (C (Lx this) (fst coord) d1 Hx D1) as [C1 C2].
  destruct (C (Ly this) (snd coord) d2 Hy D2) as [C3 C4].
  unfold inside. cbn [fst snd].
  split; [now split | ]. split; [exact C2 | ]. split; [exact C4 | ].
  intros H. apply Hend. destruct H as [H | H]; [now left | right; lia].
Qed.

End Random.

Lemma new_shape_witness :
  GRID_SIZE <> 1%nat /\ fst (10, 10) <> 0 /\ snd (10, 10) <> 0
  /\ snd (new (fun _ => 0.5) GRID_SIZE (10, 10)
            (QuantumCircuit.new 5 "A" (Some Scenario.hadamardOnly)) None 0%nat)
     = (0 + GRID_SIZE * GRID_SIZE * 5 + 2 * 15)%nat
  /\ Forall (layer_ok GRID_SIZE GRID_SIZE)
        (masaInformativaLayers
           (fst (new (fun _ => 0.5) GRID_SIZE (10, 10)
                   (QuantumCircuit.new 5 "A" (Some Scenario.hadamardOnly))
                   None 0%nat))).
Proof.
  assert (Hg : GRID_SIZE <> 1%nat) by discriminate.
  assert (Hx : fst (10, 10) <> 0) by (cbn; lra).
  assert (Hy : snd (10, 10) <> 0) by (cbn; lra).
  split; [exact Hg | ]. split; [exact Hx | ]. split; [exact Hy | ].
  destruct (new_shape (fun _ => 0.5) GRID_SIZE (10, 10)
              (QuantumCircuit.new 5 "A" (Some Scenario.hadamardOnly)) None
              0%nat Hg Hx Hy)
    as (Hn & _ & Hl & _).
  split; [exact Hn | exact Hl].
Defined.

Lemma perturb_small_witness :
  inside Scenario.bareFlow (1, 1)
  /\ 0 <= 0.5 < 1
  /\ Rabs (fst (fst (perturb (fun _ => 0.5) Scenario.bareFlow
                       (QuantumStreamline.Build [(0.5, 1); (1, 1); (2, 1)]
                          [] [] 1)
                       1%nat (1, 1) 0%nat)) - 1) <= 0.001.
Proof.
  assert (H : inside Scenario.bareFlow (1, 1))
    by (unfold inside; cbn; lra).
  assert (Hr : 0 <= 0.5 < 1) by lra.
  split; [exact H | ]. split; [exact Hr | ].
  exact (proj1 (proj2 (perturb_small (fun _ => 0.5) Scenario.bareFlow
                  (QuantumStreamline.Build [(0.5, 1); (1, 1); (2, 1)] [] [] 1)
                  1%nat (1, 1) 0%nat H Hr Hr))).
Defined.



(** *** [interpolateVelocity] *)

Lemma cellIndex_le v n : (cellIndex v n <= n - 2)%nat.
Proof. unfold cellIndex. lia. Qed.

(** X18. [interpolateVelocity] does not interpolate: on a flow whose layer
    4 has a velocity field of [ny] rows and [nx] columns, it returns the
    stored velocity of one cell, whose row and column indices are at most
    [ny - 2] and [nx - 2], so that the last row and the last column of the
    grid are never read when the grid has at least two of each.  The sides
    [Lx] and [Ly] of the domain, by which the code divides, are not 0. *)
Theorem interpolateVelocity_reads (this : t) (point : R * R)
    (layer : MasaInformativaLayer.t) :
  Lx this <> 0 -> Ly this <> 0 ->
  masaInformativaLayers this !! ACTIVE_LAYER = Some layer ->
  length (MasaInformativaLayer.velocityField layer) = ny this ->
  Forall (fun row => length row = nx this)
         (MasaInformativaLayer.velocityField layer) ->
  (1 <= nx this)%nat -> (1 <= ny this)%nat ->
  let xIdx := cellIndex (fst point * (INR (nx this) - 1) / Lx this) (nx this) in
  let yIdx := cellIndex (snd point * (INR (ny this) - 1) / Ly this) (ny this) in
  (xIdx <= nx this - 2)%nat /\ (yIdx <= ny this - 2)%nat
  /\ exists row,
       MasaInformativaLayer.velocityField layer !! yIdx = Some row
       /\ row !! xIdx = Some (interpolateVelocity this point).
Proof.
  intros _ _ Hlayer Hrows Hcols Hnx Hny xIdx yIdx.
  pose proof (cellIndex_le (fst point * (INR (nx this) - 1) / Lx this)
                (nx this)) as Hx.
  pose proof (cellIndex_le (snd point * (INR (ny this) - 1) / Ly this)
                (ny this)) as Hy.
  fold xIdx in Hx. fold yIdx in Hy.
  split; [exact Hx | ]. split; [exact Hy | ].
  destruct (lookup_lt_is_Some_2 (MasaInformativaLayer.velocityField layer)
              yIdx ltac:(lia)) as [row Hrow].
  assert (Hlen : length row = nx this)
    by (eapply (proj1 (Forall_lookup _ _) Hcols); exact Hrow).
  destruct (lookup_lt_is_Some_2 row xIdx ltac:(lia)) as [v Hv].
  exists row. split; [exact Hrow | ]. rewrite Hv. f_equal.
  unfold interpolateVelocity.
  assert (Hne : (length (masaInformativaLayers this) =? 0)%nat = false).
  { apply Nat.eqb_neq. apply lookup_lt_Some in Hlayer. lia. }
  rewrite Hne, Hlayer. fold xIdx yIdx. now rewrite Hrow, Hv.
Qed.

Lemma interpolateVelocity_reads_witness :
  Lx stillFlow <> 0 /\ Ly stillFlow <> 0
  /\ masaInformativaLayers stillFlow !! ACTIVE_LAYER
     = Some (MasaInformativaLayer.Build 0 (List.repeat (List.repeat 1 32) 32)
               (List.repeat (List.repeat (0, 0) 32) 32) [])
  /\ (1 <= nx stillFlow)%nat /\ (1 <= ny stillFlow)%nat
  /\ (cellIndex (5 * (INR (nx stillFlow) - 1) / Lx stillFlow) (nx stillFlow)
      <= nx stillFlow - 2)%nat
  /\ exists row,
       List.repeat (List.repeat (0, 0) 32) 32
         !! cellIndex (5 * (INR (ny stillFlow) - 1) / Ly stillFlow)
              (ny stillFlow)
       = Some row
       /\ row !! cellIndex (5 * (INR (nx stillFlow) - 1) / Lx stillFlow)
                 (nx stillFlow)
          = Some (interpolateVelocity stillFlow (5, 5)).
Proof.
  assert (HLx : Lx stillFlow <> 0) by (cbn; lra).
  assert (HLy : Ly stillFlow <> 0) by (cbn; lra).
  assert (Hnx : (1 <= nx stillFlow)%nat) by (cbn; lia).
  assert (Hny : (1 <= ny stillFlow)%nat) by (cbn; lia).
  assert (Hcols : Forall (fun row : list (R * R) => length row = nx stillFlow)
                    (List.repeat (List.repeat (0, 0) 32) 32)).
  { apply List.Forall_forall. intros r Hr. apply repeat_spec in Hr. subst r.
    apply repeat_length. }
  split; [exact HLx | ]. split; [exact HLy | ]. split; [reflexivity | ].
  split; [exact Hnx | ]. split; [exact Hny | ].
  destruct (interpolateVelocity_reads stillFlow (5, 5)
              (MasaInformativaLayer.Build 0
                 (List.repeat (List.repeat 1 32) 32)
                 (List.repeat (List.repeat (0, 0) 32) 32) [])
              HLx HLy eq_refl eq_refl Hcols Hnx Hny)
    as (Hx & _ & Hrow).
  split; [exact Hx | exact Hrow].
Defined.

(** *** [velocityAt] *)

Lemma getCurrentProbabilities_entangled c :
  Forall (fun q => Qubit.entangled q = false) (QuantumCircuit.qubits c) ->
  Forall (fun p => QuantumCircuit.entangled p = false)
         (QuantumCircuit.getCurrentProbabilities c).
Proof.
  intros H. unfold QuantumCircuit.getCurrentProbabilities.
  eapply imap_Forall_from; [ | exact H]. cbn. auto.
Qed.

Lemma forEach_skip {A St} (body : A -> nat -> St -> St) (l : list A) (s : St) :
  Forall (fun a => forall i s, body a i s = s) l -> forEach body l s = s.
Proof.
  intros H. unfold forEach. generalize 0%nat.
  induction H as [ | a l Ha _ IH]; intros n; cbn; [reflexivity | ].
  rewrite Ha. apply IH.
Qed.

(** X19. Where no qubit is flagged entangled (as in circuits built without
    a gate selection), the velocity that the constructor stores at a grid
    point is the vortex term alone: it is perpendicular to the line from
    the centre of the domain to the point. *)
Theorem velocityAt_unentangled (this : t) (x y : R) :
  Forall (fun q => Qubit.entangled q = false)
         (QuantumCircuit.qubits (quantumCircuitA this)) ->
  (forall circuitB,
      circuitB_if_dual this = Some circuitB ->
      Forall (fun q => Qubit.entangled q = false)
             (QuantumCircuit.qubits circuitB)) ->
  let dx := x - Lx this / 2 in
  let dy := y - Ly this / 2 in
  let r := sqrt (dx * dx + dy * dy) + 0.1 in
  velocityAt this x y
  = (- dy / r * exp (- r / 4) * 0.4, dx / r * exp (- r / 4) * 0.4)
  /\ dx * fst (velocityAt this x y) + dy * snd (velocityAt this x y) = 0.
Proof.
  intros HA HB dx dy r.
  assert (E : velocityAt this x y
              = (- dy / r * exp (- r / 4) * 0.4, dx / r * exp (- r / 4) * 0.4)).
  { unfold velocityAt.
    rewrite forEach_skip.
    2: { eapply Forall_impl; [apply getCurrentProbabilities_entangled, HA | ].
         cbn. intros p Hp i [vx vy]. now rewrite Hp. }
    destruct (circuitB_if_dual this) as [b | ] eqn:Eb.
    - rewrite forEach_skip.
      2: { eapply Forall_impl;
             [apply getCurrentProbabilities_entangled, (HB b eq_refl) | ].
           cbn. intros p Hp i [vx vy]. now rewrite Hp. }
      subst dx dy r. f_equal; lra.
    - subst dx dy r. f_equal; lra. }
  split; [exact E | ]. rewrite E. cbn [fst snd].
  assert (Hr : 0 < r)
    by (subst r; pose proof (sqrt_pos (dx * dx + dy * dy)); lra).
  field. lra.
Qed.

Lemma velocityAt_unentangled_witness :
  Forall (fun q => Qubit.entangled q = false)
         (QuantumCircuit.qubits (quantumCircuitA plainFlow))
  /\ 0 * fst (velocityAt plainFlow 5 6) + 1 * snd (velocityAt plainFlow 5 6)
     = 0.
Proof.
  assert (H : Forall (fun q => Qubit.entangled q = false)
                (QuantumCircuit.qubits (quantumCircuitA plainFlow)))
    by (cbn; repeat constructor).
  split; [exact H | ].
  replace 0 with (5 - Lx plainFlow / 2) at 1 by (cbn; lra).
  replace 1 with (6 - Ly plainFlow / 2) at 1 by (cbn; lra).
  exact (proj2 (velocityAt_unentangled plainFlow 5 6 H
                  ltac:(intros b Hb; discriminate Hb))).
Defined.

(** *** [computeInformationalReynolds] and the entanglement matrix *)

Lemma sum_prob1_nonneg c :
  0 <= fold_left (fun sum p => sum + QuantumCircuit.prob1 p)
         (QuantumCircuit.getCurrentProbabilities c) 0.
Proof.
  assert (H : Forall (fun p => 0 <= QuantumCircuit.prob1 p)
                (QuantumCircuit.getCurrentProbabilities c)).
  { unfold QuantumCircuit.getCurrentProbabilities.
    apply StreamlineFacts.imap_Forall. intros i q. cbn.
    unfold Qubit.getProbability1. apply pow2_ge_0. }
  assert (G : forall l, Forall (fun p => 0 <= QuantumCircuit.prob1 p) l ->
              forall a, 0 <= a ->
              0 <= fold_left (fun sum p => sum + QuantumCircuit.prob1 p) l a).
  { induction 1 as [ | p l Hp _ IH]; intros a Ha; cbn [fold_left];
      [exact Ha | apply IH; lra]. }
  apply G; [exact H | lra].
Qed.

(** X20. The informational Reynolds number is the smaller side of the
    domain times a quantum factor of at least 1, divided by the viscosity:
    for a positive viscosity and a domain with non-negative sides it is at
    least [min(Lx, Ly) / viscosity]. *)
Theorem computeInformationalReynolds_lower (this : t) :
  0 < viscosityParam this -> 0 <= Lx this -> 0 <= Ly this ->
  Rmin (Lx this) (Ly this) / viscosityParam this
  <= computeInformationalReynolds this.
Proof.
  intros Hnu HLx HLy. unfold computeInformationalReynolds.
  pose proof (sum_prob1_nonneg (quantumCircuitA this)) as HA.
  assert (Hmin : 0 <= Rmin (Lx this) (Ly this)) by (apply Rmin_glb; lra).
  apply Rmult_le_compat_r; [left; now apply Rinv_0_lt_compat | ].
  destruct (circuitB_if_dual this) as [b | ].
  - pose proof (sum_prob1_nonneg b) as HB. nra.
  - nra.
Qed.

Lemma computeInformationalReynolds_lower_witness :
  0 < viscosityParam plainFlow
  /\ Rmin (Lx plainFlow) (Ly plainFlow) / viscosityParam plainFlow
     <= computeInformationalReynolds plainFlow.
Proof.
  assert (H : 0 < viscosityParam plainFlow) by (cbn; unfold VISCOSITY; lra).
  split; [exact H | ].
  apply (computeInformationalReynolds_lower plainFlow H); cbn; lra.
Defined.

End FlowExtra.

Module WormholeExtra.
Import Types Wormhole WormholeInvariant WormholeShape.

Lemma INR_num_points : INR WORMHOLE_CONFIG.num_points = 1000.
Proof.
  unfold WORMHOLE_CONFIG.num_points. rewrite INR_IZR_INZ. reflexivity.
Qed.

Lemma INR_1000 : INR 1000 = 1000.
Proof. rewrite INR_IZR_INZ. reflexivity. Qed.

Lemma INR_1024 : INR 1024 = 1024.
Proof. rewrite INR_IZR_INZ. reflexivity. Qed.

Lemma spacetime_lookup (i : nat) :
  (i < 1000)%nat ->
  exists wp,
    spacetime_curvature QuantumWormhole.new !! i = Some wp
    /\ z (point wp)
       = (INR i / 1000 - 0.5) * 10 * WORMHOLE_CONFIG.wormhole_distance
    /\ radius (point wp)
       = WORMHOLE_CONFIG.wormhole_distance
         * sqrt (1 + ((INR i / 1000 - 0.5) * 10) ^ 2).
Proof.
  intros Hi.
  unfold QuantumWormhole.new, QuantumWormhole.calculateSpacetimeCurvature,
    QuantumWormhole.calculateThroatGeometry.
  cbn [spacetime_curvature].
  change (map ?f ?l) with (f <$> l).
  rewrite !list_lookup_fmap, lookup_seq_lt by exact Hi.
  cbn [fmap option_fmap option_map Nat.add]. eexists. split; [reflexivity | ].
  cbn [point z radius]. rewrite INR_num_points. split; [reflexivity | ].
  match goal with
  | |- context [?a * WORMHOLE_CONFIG.wormhole_distance
                / WORMHOLE_CONFIG.wormhole_distance] =>
      replace (a * WORMHOLE_CONFIG.wormhole_distance
               / WORMHOLE_CONFIG.wormhole_distance) with a
        by (unfold WORMHOLE_CONFIG.wormhole_distance; field; lra)
  end.
  reflexivity.
Qed.

Lemma throat_range (i : nat) : -5 <= throat i < 5.
Proof.
  unfold throat.
  assert (H : (i mod 1000 < 1000)%nat) by (apply Nat.mod_upper_bound; lia).
  pose proof (pos_INR (i mod 1000)).
  apply lt_INR in H. rewrite INR_1000 in H. lra.
Qed.

Lemma geometric_factor_range (i : nat) :
  1 <= sqrt (1 + throat i ^ 2) <= 26.
Proof.
  pose proof (throat_range i) as Ht.
  assert (H1 : 1 <= 1 + throat i ^ 2) by (pose proof (pow2_ge_0 (throat i)); lra).
  assert (H2 : 1 + throat i ^ 2 <= 26) by nra.
  split.
  - rewrite <- sqrt_1 at 1. now apply sqrt_le_1_alt.
  - destruct (Req_dec (1 + throat i ^ 2) 1) as [E | E].
    + rewrite E, sqrt_1. lra.
    + pose proof (sqrt_less (1 + throat i ^ 2)). lra.
Qed.

(** What [fragment] computes for the index [i], for any two circuits. *)
Lemma fragment_spec circuitA circuitB i :
  exists state,
    fragment QuantumWormhole.new circuitA circuitB i = Some state
    /\ fragment_id state = i
    /\ wormhole_position state
       = throat i * WORMHOLE_CONFIG.wormhole_distance
    /\ alpha state
       = cos (PI * INR i / 2048) * sqrt (sqrt (1 + throat i ^ 2))
    /\ beta state
       = sin (PI * INR i / 2048) * sqrt (sqrt (1 + throat i ^ 2))
    /\ tunneling_probability state
       = QuantumWormhole.calculateQuantumTunnelingProbability
           (sqrt (alpha state * alpha state + beta state * beta state))
    /\ length (fragment_qubits state)
       = (length (qubits circuitA) + length (qubits circuitB))%nat
    /\ fragment_coords state
       = BuildFragmentCoords (i mod 32) (i / 32) (i / 256).
Proof.
  unfold fragment.
  rewrite WormholeFacts.length_spacetime_curvature,
    WormholeFacts.length_majorana_field.
  assert (Hi : (i mod 1000 < 1000)%nat) by (apply Nat.mod_upper_bound; lia).
  destruct (spacetime_lookup (i mod 1000) Hi) as (wp & -> & Hz & Hr).
  destruct (lookup_lt_is_Some_2 (majorana_field QuantumWormhole.new)
              (i mod 1000)) as [majorana ->];
    [now rewrite WormholeFacts.length_majorana_field | ].
  cbn [mbind option_bind]. eexists. split; [reflexivity | ].
  cbn [fragment_id wormhole_position alpha beta tunneling_probability
       fragment_qubits fragment_coords].
  assert (Hgf : radius (point wp) / WORMHOLE_CONFIG.wormhole_distance
                = sqrt (1 + throat i ^ 2)).
  { rewrite Hr. unfold throat, WORMHOLE_CONFIG.wormhole_distance.
    field; lra. }
  rewrite Hgf, Hz, length_app, !length_map. unfold throat. repeat split.
Qed.

Lemma fragment_norm (i : nat) (a b : R) :
  a = cos (PI * INR i / 2048) * sqrt (sqrt (1 + throat i ^ 2)) ->
  b = sin (PI * INR i / 2048) * sqrt (sqrt (1 + throat i ^ 2)) ->
  a * a + b * b = sqrt (1 + throat i ^ 2).
Proof.
  intros -> ->. pose proof (geometric_factor_range i) as [H1 _].
  pose proof (sqrt_sqrt (sqrt (1 + throat i ^ 2)) ltac:(lra)) as Hs.
  pose proof (sin2_cos2 (PI * INR i / 2048)) as Hsc. unfold Rsqr in Hsc.
  set (g := sqrt (sqrt (1 + throat i ^ 2))) in *.
  set (c := cos (PI * INR i / 2048)) in *.
  set (s := sin (PI * INR i / 2048)) in *.
  rewrite <- Hs. nra.
Qed.

Lemma tunneling_high (e : R) :
  0 <= e <= 26 ->
  0.99 < QuantumWormhole.calculateQuantumTunnelingProbability e <= 1.
Proof.
  intros He. unfold QuantumWormhole.calculateQuantumTunnelingProbability.
  assert (Hb : Rabs WORMHOLE_CONFIG.dark_energy = 1.2e-10).
  { unfold WORMHOLE_CONFIG.dark_energy, Rabs.
    destruct (Rcase_abs _); lra. }
  rewrite Hb.
  unfold PHYSICAL_CONSTANTS.HBAR, PHYSICAL_CONSTANTS.C,
    WORMHOLE_CONFIG.wormhole_distance.
  rewrite Rgtb_false by lra.
  set (pe := e * 1.0545718e-34 * 299792458).
  assert (Hpe : 0 <= pe <= 1e-20) by (subst pe; lra).
  assert (Hk : 0 <= sqrt (2 * (1.2e-10 - pe)) <= 1.6e-5).
  { split; [apply sqrt_pos | ].
    rewrite <- (sqrt_square 1.6e-5) by lra.
    apply sqrt_le_1_alt. lra. }
  set (k := sqrt (2 * (1.2e-10 - pe))) in *.
  assert (Hx : -0.0001 <= -2 * (k / 1.0545718e-34) * (2 * 1.6e-35) <= 0).
  { split.
    - apply Rle_trans with (-2 * (1.6e-5 / 1.0545718e-34) * (2 * 1.6e-35));
        [lra | ].
      unfold Rdiv. nra.
    - unfold Rdiv. nra. }
  set (x := -2 * (k / 1.0545718e-34) * (2 * 1.6e-35)) in *.
  pose proof (exp_ineq1_le x).
  split; [lra | ].
  destruct (Req_dec x 0) as [-> | Hne]; [rewrite exp_0; lra | ].
  pose proof (exp_increasing x 0 ltac:(lra)) as Hlt. rewrite exp_0 in Hlt. lra.
Qed.

Lemma fold_sum_bounds {A} (f : A -> R) (lo hi : R) (l : list A) :
  Forall (fun a => lo < f a <= hi) l ->
  forall acc,
    acc + lo * INR (length l) <= fold_left (fun sum a => sum + f a) l acc
    /\ fold_left (fun sum a => sum + f a) l acc <= acc + hi * INR (length l)
    /\ (l <> [] ->
        acc + lo * INR (length l) < fold_left (fun sum a => sum + f a) l acc).
Proof.
  induction 1 as [ | a l Ha Hl IH]; intros acc.
  - cbn. repeat split; try lra. congruence.
  - cbn [fold_left length]. rewrite S_INR.
    destruct (IH (acc + f a)) as (I1 & I2 & _).
    repeat split; try lra.
Qed.

Lemma filter_all {A} (P : A -> Prop) `{forall a, Decision (P a)} (l : list A) :
  Forall P l -> filter P l = l.
Proof.
  induction 1 as [ | a l Ha _ IH]; [reflexivity | ].
  rewrite filter_cons_True by exact Ha. now rewrite IH.
Qed.

Lemma createWormholeFragmentationSystem_some circuitA circuitB :
  exists system,
    createWormholeFragmentationSystem circuitA circuitB = Some system
    /\ Forall2 (fun i state =>
                 fragment QuantumWormhole.new circuitA circuitB i = Some state)
               (seq 0 1024) (fragmented_states system).
Proof.
  unfold createWormholeFragmentationSystem.
  destruct (mapM (fragment QuantumWormhole.new circuitA circuitB) (seq 0 1024))
    as [states | ] eqn:Hstates.
  2:{ exfalso. apply eq_None_not_Some in Hstates. apply Hstates, mapM_is_Some.
      apply Forall_forall. intros i _.
      destruct (fragment_spec circuitA circuitB i) as (st & Hst & _).
      cbn. rewrite Hst. eauto. }
  apply mapM_Some in Hstates.
  cbn [mbind option_bind]. eexists. split; [reflexivity | exact Hstates].
Qed.

(** X21. [createWormholeFragmentationSystem] returns for any two circuits,
    whatever their sizes: it makes 1024 fragments, fragment [i] carrying the
    id [i], one copy of every qubit of both circuits, grid coordinates
    [x < 32], [y < 32], a sector below 4, and mixing coefficients with
    [alpha > 0], [beta >= 0] and, in real arithmetic, [alpha^2 + beta^2]
    equal to the geometric factor [sqrt(1 + (z / wormhole_distance)^2) >= 1]. *)
Theorem createWormholeFragmentationSystem_total (circuitA circuitB : Circuit) :
  exists system,
    createWormholeFragmentationSystem circuitA circuitB = Some system
    /\ length (fragmented_states system) = 1024%nat
    /\ forall i, (i < 1024)%nat ->
         exists state,
           fragmented_states system !! i = Some state
           /\ fragment_id state = i
           /\ length (fragment_qubits state)
              = (length (qubits circuitA) + length (qubits circuitB))%nat
           /\ (x (fragment_coords state) < 32)%nat
           /\ (y (fragment_coords state) < 32)%nat
           /\ (wormhole_sector (fragment_coords state) < 4)%nat
           /\ 0 < alpha state /\ 0 <= beta state
           /\ alpha state * alpha state + beta state * beta state
              = sqrt (1 + throat i ^ 2)
           /\ 1 <= sqrt (1 + throat i ^ 2).
Proof.
  destruct (createWormholeFragmentationSystem_some circuitA circuitB)
    as (system & Hsys & Hstates).
  exists system. split; [exact Hsys | ].
  set (states := fragmented_states system) in *.
  assert (Hlen : length states = 1024%nat)
    by (rewrite <- (Forall2_length _ _ _ Hstates); apply length_seq).
  split; [exact Hlen | ].
  intros i Hi.
  destruct (lookup_lt_is_Some_2 states i ltac:(lia)) as [state Hstate].
  exists state. split; [exact Hstate | ].
  assert (Hfrag : fragment QuantumWormhole.new circuitA circuitB i = Some state).
  { eapply (Forall2_lookup_lr _ _ _ i i state Hstates); [ | exact Hstate].
    now rewrite lookup_seq_lt. }
  destruct (fragment_spec circuitA circuitB i)
    as (st & Hst & Hid & _ & Ha & Hb & _ & Hq & Hc).
  rewrite Hfrag in Hst. injection Hst as <-.
  pose proof (geometric_factor_range i) as [Hg _].
  assert (Hsg : 0 < sqrt (sqrt (1 + throat i ^ 2)))
    by (apply sqrt_lt_R0; lra).
  assert (Hang : 0 <= PI * INR i / 2048 < PI / 2).
  { pose proof PI_RGT_0. pose proof (pos_INR i).
    apply lt_INR in Hi. rewrite INR_1024 in Hi.
    split; [apply Rmult_le_pos; [nra | lra] | nra]. }
  split; [exact Hid | ]. split; [exact Hq | ].
  rewrite Hc. cbn [x y wormhole_sector].
  split; [apply Nat.mod_upper_bound; lia | ].
  split; [apply Nat.Div0.div_lt_upper_bound; lia | ].
  split; [apply Nat.Div0.div_lt_upper_bound; lia | ].
  split.
  { rewrite Ha. apply Rmult_lt_0_compat; [ | exact Hsg].
    apply cos_gt_0; lra. }
  split.
  { rewrite Hb. apply Rmult_le_pos; [ | lra].
    pose proof PI_RGT_0. apply sin_ge_0; lra. }
  split; [now apply fragment_norm | exact Hg].
Qed.

Lemma createWormholeFragmentationSystem_inv circuitA circuitB system :
  createWormholeFragmentationSystem circuitA circuitB = Some system ->
  wormhole system = QuantumWormhole.new
  /\ Forall2 (fun i state =>
                 fragment QuantumWormhole.new circuitA circuitB i = Some state)
               (seq 0 1024) (fragmented_states system)
  /\ system_average_tunneling system
     = fold_left (fun sum state => sum + tunneling_probability state)
         (fragmented_states system) 0 / 1024.
Proof.
  unfold createWormholeFragmentationSystem.
  destruct (mapM (fragment QuantumWormhole.new circuitA circuitB) (seq 0 1024))
    as [states | ] eqn:Hstates; [ | discriminate].
  cbn [mbind option_bind]. intros [= <-].
  cbn [wormhole fragmented_states system_average_tunneling].
  apply mapM_Some in Hstates. auto.
Qed.

Lemma fragments_tunneling (circuitA circuitB : Circuit)
    (system : FragmentationSystem) :
  createWormholeFragmentationSystem circuitA circuitB = Some system ->
  length (fragmented_states system) = 1024%nat
  /\ Forall (fun state => 0.99 < tunneling_probability state <= 1)
            (fragmented_states system).
Proof.
  intros Hsys.
  destruct (createWormholeFragmentationSystem_some circuitA circuitB)
    as (system' & Hsys' & Hstates).
  rewrite Hsys in Hsys'. injection Hsys' as <-.
  split; [rewrite <- (Forall2_length _ _ _ Hstates); apply length_seq | ].
  eapply Forall2_Forall_r; [exact Hstates | ].
  apply Forall_forall. intros i _ st Hst.
  destruct (fragment_spec circuitA circuitB i)
    as (st' & Hst' & _ & _ & Ha & Hb & Ht & _).
  rewrite Hst in Hst'. injection Hst' as <-.
  rewrite Ht, (fragment_norm i _ _ Ha Hb).
  pose proof (geometric_factor_range i) as [G1 G2].
  apply tunneling_high. split; [apply sqrt_pos | ].
  destruct (Req_dec (sqrt (1 + throat i ^ 2)) 1) as [E | E].
  - rewrite E, sqrt_1. lra.
  - pose proof (sqrt_less (sqrt (1 + throat i ^ 2))). lra.
Qed.

Lemma average_tunneling_bounds (system : FragmentationSystem) :
  length (fragmented_states system) = 1024%nat ->
  Forall (fun state => 0.99 < tunneling_probability state <= 1)
         (fragmented_states system) ->
  0.99 < fold_left (fun sum state => sum + tunneling_probability state)
           (fragmented_states system) 0 / 1024 <= 1.
Proof.
  intros Hlen Hall.
  destruct (fold_sum_bounds tunneling_probability 0.99 1 _ Hall 0)
    as (_ & Hhi & Hlo).
  assert (Hne : fragmented_states system <> [])
    by (intros E; rewrite E in Hlen; discriminate Hlen).
  specialize (Hlo Hne).
  rewrite Hlen, INR_1024 in Hhi, Hlo. lra.
Qed.

(** X22. With the constants of [WORMHOLE_CONFIG], every fragment has a
    tunneling probability above 0.99 (and at most 1): the energy
    [amplitude * HBAR * C] never exceeds the barrier, and the barrier is
    thin.  So [geometric_coherence] is exactly 1 and [average_tunneling]
    lies in (0.99, 1], for any two circuits. *)
Theorem tunneling_is_high (circuitA circuitB : Circuit)
    (system : FragmentationSystem) :
  createWormholeFragmentationSystem circuitA circuitB = Some system ->
  Forall (fun state => 0.99 < tunneling_probability state <= 1)
         (fragmented_states system)
  /\ geometric_coherence system = 1
  /\ 0.99 < system_average_tunneling system <= 1.
Proof.
  intros Hsys.
  destruct (fragments_tunneling _ _ _ Hsys) as [Hlen Hall].
  pose proof (average_tunneling_bounds system Hlen Hall) as Hav.
  destruct (createWormholeFragmentationSystem_inv _ _ _ Hsys)
    as (_ & _ & Eav).
  split; [exact Hall | ]. split; [ | now rewrite Eav].
  revert Hsys. unfold createWormholeFragmentationSystem.
  destruct (mapM _ _) as [states | ]; [ | discriminate].
  cbn [mbind option_bind]. intros [= <-].
  cbn [fragmented_states geometric_coherence] in *.
  rewrite filter_all.
  - rewrite Hlen, INR_1024. lra.
  - eapply Forall_impl; [exact Hall | ]. cbn. intros st Hst.
    apply Rgtb_true. lra.
Qed.

Lemma tunneling_is_high_witness :
  exists system,
    createWormholeFragmentationSystem Scenario.typedA Scenario.typedB
    = Some system
    /\ geometric_coherence system = 1.
Proof.
  destruct (createWormholeFragmentationSystem Scenario.typedA Scenario.typedB)
    as [system | ] eqn:E.
  - exists system. split; [reflexivity | ].
    exact (proj1 (proj2 (tunneling_is_high Scenario.typedA Scenario.typedB
                           system E))).
  - exfalso.
    destruct (createWormholeFragmentationSystem_some Scenario.typedA
                Scenario.typedB) as (s & Hs & _).
    congruence.
Defined.

(** *** Reconstruction *)

Lemma forEach_opt_fails {A St} (body : A -> St -> option St) (a : A)
    (arr : list A) :
  In a arr -> (forall s, body a s = None) ->
  forall s, forEach_opt body arr s = None.
Proof.
  intros Hin Hfail. induction arr as [ | b arr IH]; [destruct Hin | ].
  intros s. cbn [forEach_opt]. destruct Hin as [-> | Hin].
  - now rewrite Hfail.
  - destruct (body b s) as [s' | ]; [cbn; now apply IH | reflexivity].
Qed.

Lemma beta_512 : 0.3 < sin (PI * INR 512 / 2048) * sqrt (sqrt (1 + throat 512 ^ 2)).
Proof.
  replace (PI * INR 512 / 2048) with (PI / 4)
    by (rewrite (INR_IZR_INZ 512); change (IZR (Z.of_nat 512)) with 512; lra).
  rewrite sin_PI4.
  pose proof (geometric_factor_range 512) as [G _].
  assert (H1 : 1 <= sqrt (sqrt (1 + throat 512 ^ 2))).
  { rewrite <- sqrt_1 at 1. now apply sqrt_le_1_alt. }
  pose proof sqrt2_pos as Hp. pose proof sqrt2_sqr as Hs.
  assert (H2 : sqrt 2 < 2) by nra.
  assert (H3 : 0.5 < 1 / sqrt 2).
  { apply (Rmult_lt_reg_r (sqrt 2)); [exact Hp | ].
    unfold Rdiv. rewrite Rmult_assoc, Rinv_l by lra. lra. }
  nra.
Qed.

Lemma fragment_512 (circuitA circuitB : Circuit)
    (system : FragmentationSystem) :
  createWormholeFragmentationSystem circuitA circuitB = Some system ->
  exists st,
    In st (fragmented_states system)
    /\ 0.3 < beta st
    /\ length (fragment_qubits st)
       = (length (qubits circuitA) + length (qubits circuitB))%nat.
Proof.
  intros Hsys.
  destruct (createWormholeFragmentationSystem_some circuitA circuitB)
    as (system' & Hsys' & Hstates).
  rewrite Hsys in Hsys'. injection Hsys' as <-.
  destruct (fragment_spec circuitA circuitB 512)
    as (st & Hst & _ & _ & _ & Hb & _ & Hq & _).
  exists st. split; [ | split; [rewrite Hb; apply beta_512 | exact Hq]].
  destruct (Forall2_lookup_l _ _ _ 512%nat 512%nat Hstates
              ltac:(now rewrite lookup_seq_lt by lia))
    as (st' & Hlook & Hfrag).
  rewrite Hst in Hfrag. injection Hfrag as <-.
  apply list_elem_of_In. eapply list_elem_of_lookup_2. exact Hlook.
Qed.

(** A fragment with [beta > 0.3] and fewer than ten qubit copies makes the
    reconstruction of slot 4 read [qubits[9]], which is not there. *)
Lemma reconstruct_fails_at (system : FragmentationSystem)
    (st : FragmentedState) :
  In st (fragmented_states system) -> 0.3 < beta st ->
  (length (fragment_qubits st) < 10)%nat ->
  reconstructWithWormholeGeometry system = None.
Proof.
  intros Hin Hb Hq.
  assert (Hfail : forall recs, fold_fragment 4 st recs = None).
  { intros [recA recB]. unfold fold_fragment.
    rewrite (Rgtb_true (beta st) 0.3) by exact Hb.
    rewrite (proj2 (lookup_ge_None (fragment_qubits st) (4 + 5))) by lia.
    destruct (Rgtb (alpha st) 0.3); [ | reflexivity].
    destruct (fragment_qubits st !! 4%nat); reflexivity. }
  unfold reconstructWithWormholeGeometry.
  destruct (mapM (reconstructQubit (fragmented_states system)) (seq 0 5))
    as [recs | ] eqn:Hrecs; [ | reflexivity].
  exfalso.
  assert (Hsome : is_Some (mapM (reconstructQubit (fragmented_states system))
                             (seq 0 5))) by (rewrite Hrecs; eauto).
  apply mapM_is_Some in Hsome.
  apply (proj1 (Forall_forall _ _)) with (x := 4%nat) in Hsome.
  - destruct Hsome as [r Hr]. unfold reconstructQubit in Hr.
    rewrite (forEach_opt_fails _ st _ Hin Hfail) in Hr. discriminate.
  - apply list_elem_of_In. cbn. tauto.
Qed.

(** X23. The reconstruction needs ten qubit copies per fragment: when the
    two circuits given to [createWormholeFragmentationSystem] have fewer
    than ten qubits together, [reconstructWithWormholeGeometry] does not
    return (it reads a property of [undefined]). *)
Theorem reconstruction_needs_ten (circuitA circuitB : Circuit)
    (system : FragmentationSystem) :
  (length (qubits circuitA) + length (qubits circuitB) < 10)%nat ->
  createWormholeFragmentationSystem circuitA circuitB = Some system ->
  reconstructWithWormholeGeometry system = None.
Proof.
  intros Hlen Hsys.
  destruct (fragment_512 circuitA circuitB system Hsys)
    as (st & Hin & Hb & Hq).
  apply (reconstruct_fails_at system st Hin Hb).
  rewrite Hq. exact Hlen.
Qed.

Lemma reconstruction_needs_ten_witness :
  (length (qubits Scenario.typedA) + length (qubits (BuildCircuit "B" []))
   < 10)%nat
  /\ forall system,
       createWormholeFragmentationSystem Scenario.typedA (BuildCircuit "B" [])
       = Some system ->
       reconstructWithWormholeGeometry system = None.
Proof.
  assert (H : (length (qubits Scenario.typedA)
               + length (qubits (BuildCircuit "B" [])) < 10)%nat)
    by (cbn; lia).
  split; [exact H | ].
  intros system.
  exact (reconstruction_needs_ten Scenario.typedA (BuildCircuit "B" [])
           system H).
Defined.

(** *** What the reconstruction does not depend on *)

Lemma Forall2_join {A B C} (P : A -> B -> Prop) (Q : A -> C -> Prop)
    (l : list A) (k : list B) (k' : list C) :
  Forall2 P l k -> Forall2 Q l k' ->
  Forall2 (fun y z => exists x, P x y /\ Q x z) k k'.
Proof.
  intros H. revert k'.
  induction H as [ | x y l k Hxy _ IH]; intros k' H'; inversion H'; subst;
    constructor; eauto.
Qed.

Lemma fragments_same_geometry circuitA circuitB circuitA' circuitB' i s s' :
  length (qubits circuitA) = 5%nat -> length (qubits circuitB) = 5%nat ->
  length (qubits circuitA') = 5%nat -> length (qubits circuitB') = 5%nat ->
  fragment QuantumWormhole.new circuitA circuitB i = Some s ->
  fragment QuantumWormhole.new circuitA' circuitB' i = Some s' ->
  same_geometry s s'.
Proof.
  intros HA HB HA' HB' Hs Hs'.
  destruct (fragment_spec circuitA circuitB i)
    as (st & Hst & Hid & Hp & Ha & Hb & Ht & Hq & _).
  rewrite Hs in Hst. injection Hst as <-.
  destruct (fragment_spec circuitA' circuitB' i)
    as (st' & Hst' & Hid' & Hp' & Ha' & Hb' & Ht' & Hq' & _).
  rewrite Hs' in Hst'. injection Hst' as <-.
  unfold same_geometry.
  rewrite Hid, Hid', Hp, Hp', Ht, Ht', Ha, Ha', Hb, Hb', Hq, Hq',
    HA, HB, HA', HB'.
  repeat split.
Qed.

Lemma fold_fragment_rel qubit_idx s s' recs recs' :
  (qubit_idx < 5)%nat -> same_geometry s s' ->
  same_weights (fst recs) (fst recs') ->
  same_weights (snd recs) (snd recs') ->
  exists r r',
    fold_fragment qubit_idx s recs = Some r
    /\ fold_fragment qubit_idx s' recs' = Some r'
    /\ same_weights (fst r) (fst r') /\ same_weights (snd r) (snd r').
Proof.
  intros Hidx (Hid & Hpos & Ha & Hb & Ht & L & L').
  destruct recs as [rA rB], recs' as [rA' rB']. cbn [fst snd].
  intros (A1 & A2 & A3 & A4) (B1 & B2 & B3 & B4).
  unfold fold_fragment. rewrite Ha, Hb.
  destruct (lookup_lt_is_Some_2 (fragment_qubits s) qubit_idx ltac:(lia))
    as [qa ->].
  destruct (lookup_lt_is_Some_2 (fragment_qubits s) (qubit_idx + 5)
              ltac:(lia)) as [qb ->].
  destruct (lookup_lt_is_Some_2 (fragment_qubits s') qubit_idx ltac:(lia))
    as [qa' ->].
  destruct (lookup_lt_is_Some_2 (fragment_qubits s') (qubit_idx + 5)
              ltac:(lia)) as [qb' ->].
  destruct (Rgtb (alpha s) 0.3), (Rgtb (beta s) 0.3);
    cbn [mbind option_bind]; eexists; eexists;
    (split; [reflexivity | split; [reflexivity | ]]);
    unfold same_weights, accumulate;
    cbn [fst snd r_coherence geometric_weight wormhole_contributions
         contributing_fragment_ids];
    rewrite ?Ha, ?Hb, ?Ht, ?Hpos, ?Hid, ?A1, ?A2, ?A3, ?A4,
      ?B1, ?B2, ?B3, ?B4; repeat split.
Qed.

Lemma forEach_opt_rel {A St} (R : A -> A -> Prop) (Q : St -> St -> Prop)
    (body : A -> St -> option St) (l l' : list A) :
  (forall a a' s s', R a a' -> Q s s' ->
     exists t t', body a s = Some t /\ body a' s' = Some t' /\ Q t t') ->
  Forall2 R l l' ->
  forall s s', Q s s' ->
    exists t t',
      forEach_opt body l s = Some t /\ forEach_opt body l' s' = Some t'
      /\ Q t t'.
Proof.
  intros Hbody H. induction H as [ | a a' l l' Ha _ IH]; intros s s' Hs.
  - cbn. eauto.
  - cbn [forEach_opt].
    destruct (Hbody a a' s s' Ha Hs) as (t & t' & -> & -> & Ht).
    cbn [mbind option_bind]. now apply IH.
Qed.

Lemma normalise_rel r r' :
  same_weights r r' -> same_weights (normalise r) (normalise r').
Proof.
  intros (H1 & H2 & H3 & H4). unfold normalise. rewrite H2.
  destruct (Rgtb (geometric_weight r) 0); unfold same_weights;
    cbn [r_coherence geometric_weight wormhole_contributions
         contributing_fragment_ids];
    rewrite ?H1, ?H2, ?H3, ?H4; repeat split.
Qed.

Lemma reconstructQubit_rel states states' qubit_idx :
  (qubit_idx < 5)%nat -> Forall2 same_geometry states states' ->
  exists r r',
    reconstructQubit states qubit_idx = Some r
    /\ reconstructQubit states' qubit_idx = Some r'
    /\ same_weights (fst r) (fst r') /\ same_weights (snd r) (snd r').
Proof.
  intros Hidx Hall. unfold reconstructQubit.
  destruct (forEach_opt_rel same_geometry
              (fun recs recs' => same_weights (fst recs) (fst recs')
                                 /\ same_weights (snd recs) (snd recs'))
              (fold_fragment qubit_idx) states states')
    with (s := (emptyReconstruction, emptyReconstruction))
         (s' := (emptyReconstruction, emptyReconstruction))
    as (t & t' & -> & -> & HA & HB).
  - intros a a' recs recs' Hg [H1 H2].
    now apply fold_fragment_rel.
  - exact Hall.
  - split; repeat split.
  - cbn [mbind option_bind fst snd]. eexists. eexists.
    split; [reflexivity | split; [reflexivity | ]].
    cbn [fst snd]. split; now apply normalise_rel.
Qed.

Lemma mapM_rel {A B} (R : B -> B -> Prop) (f f' : A -> option B) (l : list A) :
  (forall a, In a l ->
     exists b b', f a = Some b /\ f' a = Some b' /\ R b b') ->
  exists bs bs',
    mapM f l = Some bs /\ mapM f' l = Some bs' /\ Forall2 R bs bs'.
Proof.
  induction l as [ | a l IH]; intros H.
  - exists [], []. repeat split. constructor.
  - destruct (H a ltac:(now left)) as (b & b' & Hb & Hb' & Hr).
    destruct IH as (bs & bs' & Hbs & Hbs' & Hrs);
      [intros x Hx; apply H; now right | ].
    exists (b :: bs), (b' :: bs'). cbn [mapM].
    rewrite Hb, Hb', Hbs, Hbs'. repeat split. now constructor.
Qed.

Lemma fold_left_rel {A} (f : A -> R) (l l' : list A) :
  Forall2 (fun a a' => f a' = f a) l l' ->
  forall acc,
    fold_left (fun sum a => sum + f a) l' acc
    = fold_left (fun sum a => sum + f a) l acc.
Proof.
  induction 1 as [ | a a' l l' Ha _ IH]; intros acc; cbn [fold_left];
    [reflexivity | ].
  now rewrite Ha, IH.
Qed.

Lemma calculateExplorationFactor_rel (qs qs' : list ReconstructedQubit) :
  Forall2 same_weights qs qs' ->
  calculateExplorationFactor qs' = calculateExplorationFactor qs.
Proof.
  intros H. unfold calculateExplorationFactor.
  assert (E : flat_map contributing_fragment_ids qs'
              = flat_map contributing_fragment_ids qs).
  { induction H as [ | q q' qs qs' (_ & _ & _ & Hids) _ IH]; cbn;
      [reflexivity | ].
    now rewrite Hids, IH. }
  now rewrite E.
Qed.

(** X24. What [reconstructWithWormholeGeometry] reports does not depend on
    the two circuits that were fragmented: for any two pairs of 5-qubit
    circuits the results have the same [wormhole_efficiency], the same
    fidelities, the same [average_tunneling] and geometric corrections, and
    qubit by qubit the same coherence, weight, contributions and fragment
    ids.  Only the reconstructed amplitudes and phases come from the
    circuits. *)
Theorem reconstruction_ignores_circuits
    (circuitA circuitB circuitA' circuitB' : Circuit)
    (system system' : FragmentationSystem) :
  length (qubits circuitA) = 5%nat -> length (qubits circuitB) = 5%nat ->
  length (qubits circuitA') = 5%nat -> length (qubits circuitB') = 5%nat ->
  createWormholeFragmentationSystem circuitA circuitB = Some system ->
  createWormholeFragmentationSystem circuitA' circuitB' = Some system' ->
  exists result result',
    reconstructWithWormholeGeometry system = Some result
    /\ reconstructWithWormholeGeometry system' = Some result'
    /\ wormhole_efficiency result' = wormhole_efficiency result
    /\ wormhole_fidelity (circuit_A result')
       = wormhole_fidelity (circuit_A result)
    /\ wormhole_fidelity (circuit_B result')
       = wormhole_fidelity (circuit_B result)
    /\ average_tunneling result' = average_tunneling result
    /\ geometric_corrections result' = geometric_corrections result
    /\ Forall2 same_weights (r_qubits (circuit_A result))
                (r_qubits (circuit_A result'))
    /\ Forall2 same_weights (r_qubits (circuit_B result))
                (r_qubits (circuit_B result')).
Proof.
  intros HA HB HA' HB' Hsys Hsys'.
  destruct (createWormholeFragmentationSystem_inv _ _ _ Hsys)
    as (Hw & Hst & Hav).
  destruct (createWormholeFragmentationSystem_inv _ _ _ Hsys')
    as (Hw' & Hst' & Hav').
  assert (Hgeo : Forall2 same_geometry (fragmented_states system)
                   (fragmented_states system')).
  { eapply Forall2_impl; [exact (Forall2_join _ _ _ _ _ Hst Hst') | ].
    intros s s' (i & Hs & Hs').
    exact (fragments_same_geometry _ _ _ _ i s s' HA HB HA' HB' Hs Hs'). }
  destruct (mapM_rel
              (fun r r' => same_weights (fst r) (fst r')
                           /\ same_weights (snd r) (snd r'))
              (reconstructQubit (fragmented_states system))
              (reconstructQubit (fragmented_states system'))
              (seq 0 5))
    as (recs & recs' & Hrecs & Hrecs' & Hrel).
  { intros idx Hidx. apply in_seq in Hidx.
    destruct (reconstructQubit_rel _ _ idx ltac:(lia) Hgeo)
      as (r & r' & Hr & Hr' & H1 & H2).
    exists r, r'. auto. }
  assert (RA : Forall2 same_weights (map fst recs) (map fst recs'))
    by (clear - Hrel; induction Hrel as [ | ? ? ? ? [? _] _ IH]; cbn;
        constructor; assumption).
  assert (RB : Forall2 same_weights (map snd recs) (map snd recs'))
    by (clear - Hrel; induction Hrel as [ | ? ? ? ? [_ ?] _ IH]; cbn;
        constructor; assumption).
  assert (FA : fold_left (fun sum q => sum + r_coherence q) (map fst recs') 0
               = fold_left (fun sum q => sum + r_coherence q) (map fst recs) 0).
  { apply fold_left_rel. eapply Forall2_impl; [exact RA | ].
    now intros q q' (H & _). }
  assert (FB : fold_left (fun sum q => sum + r_coherence q) (map snd recs') 0
               = fold_left (fun sum q => sum + r_coherence q) (map snd recs) 0).
  { apply fold_left_rel. eapply Forall2_impl; [exact RB | ].
    now intros q q' (H & _). }
  assert (Hav2 : system_average_tunneling system'
                 = system_average_tunneling system).
  { rewrite Hav, Hav'. f_equal. apply fold_left_rel.
    eapply Forall2_impl; [exact Hgeo | ].
    now intros st st' (_ & _ & _ & _ & H & _). }
  unfold reconstructWithWormholeGeometry.
  rewrite Hrecs, Hrecs'. cbn [mbind option_bind].
  eexists. eexists. split; [reflexivity | split; [reflexivity | ]].
  cbn [wormhole_efficiency circuit_A circuit_B wormhole_fidelity
       average_tunneling geometric_corrections r_qubits].
  rewrite FA, FB, (calculateExplorationFactor_rel _ _ RA),
    (calculateExplorationFactor_rel _ _ RB), Hav2, Hw, Hw'.
  repeat split; assumption.
Qed.

Lemma reconstruction_ignores_circuits_witness :
  length (qubits Scenario.typedA) = 5%nat
  /\ length (qubits Scenario.typedB) = 5%nat
  /\ forall system system',
       createWormholeFragmentationSystem Scenario.typedA Scenario.typedB
       = Some system ->
       createWormholeFragmentationSystem Scenario.typedB Scenario.typedA
       = Some system' ->
       exists result result',
         reconstructWithWormholeGeometry system = Some result
         /\ reconstructWithWormholeGeometry system' = Some result'
         /\ wormhole_efficiency result' = wormhole_efficiency result.
Proof.
  split; [reflexivity | ]. split; [reflexivity | ].
  intros system system' H H'.
  destruct (reconstruction_ignores_circuits Scenario.typedA Scenario.typedB
              Scenario.typedB Scenario.typedA system system'
              eq_refl eq_refl eq_refl eq_refl H H')
    as (result & result' & Hr & Hr' & He & _).
  exists result, result'. auto.
Defined.

End WormholeExtra.

Module SeedExtra.
Import Seed SeedShape.

(** X25. Two different configurations never get the same seed. *)
Theorem handleGenerateSeed_injective (cfg1 cfg2 : GateConfiguration) :
  cfg1 <> cfg2 -> handleGenerateSeed cfg1 <> handleGenerateSeed cfg2.
Proof.
  intros Hne H. apply Hne. unfold handleGenerateSeed in H.
  apply (f_equal Base64.atob) in H.
  rewrite !Base64Facts.atob_btoa in H.
  apply (f_equal (fun o => match o with
                           | Some jsonString => JSON.parse jsonString
                           | None => None
                           end)) in H.
  cbn beta iota in H.
  rewrite !JSONFacts.parse_stringify in H
    by apply SeedFacts.object_of_configuration_plain.
  apply SeedFacts.object_of_configuration_inj. congruence.
Qed.

Lemma handleGenerateSeed_injective_witness :
  Scenario.mixed <> mixedDisabled
  /\ handleGenerateSeed Scenario.mixed <> handleGenerateSeed mixedDisabled.
Proof.
  assert (H : Scenario.mixed <> mixedDisabled).
  { intros E. apply (f_equal circuitBEnabled) in E. discriminate E. }
  split; [exact H | ].
  exact (handleGenerateSeed_injective Scenario.mixed mixedDisabled H).
Defined.

Lemma occurs_remove_whitespace c s :
  Base64.is_whitespace c = false -> occurs c s ->
  occurs c (Base64.remove_whitespace s).
Proof.
  intros Hc. induction s as [ | d s IH]; [auto | ].
  cbn [occurs Base64.remove_whitespace]. intros [-> | H].
  - rewrite Hc. now left.
  - destruct (Base64.is_whitespace d); [auto | right; auto].
Qed.

Lemma remove_padding_pad_cons (e : ascii) (s : string) :
  Ascii.eqb e "=" = false ->
  Base64.remove_padding (String "=" (String e s))
  = String "=" (Base64.remove_padding (String e s)).
Proof.
  destruct e as [[] [] [] [] [] [] [] []]; intros H;
    solve [reflexivity | discriminate H].
Qed.

Lemma occurs_remove_padding c s :
  Ascii.eqb c "=" = false -> occurs c s -> occurs c (Base64.remove_padding s).
Proof.
  intros Hc. induction s as [ | d s IH]; [auto | ].
  intros H. destruct (Ascii.eqb d "=") eqn:Hd.
  - apply Ascii.eqb_eq in Hd. subst d.
    destruct H as [-> | H]; [discriminate Hc | ].
    destruct s as [ | e s]; [destruct H | ].
    destruct (Ascii.eqb e "=") eqn:He.
    + apply Ascii.eqb_eq in He. subst e.
      destruct H as [-> | H]; [discriminate Hc | ].
      destruct s as [ | f s]; [destruct H | ].
      change (occurs c (String "=" (Base64.remove_padding
                                      (String "=" (String f s))))).
      right. apply IH. now right.
    + rewrite remove_padding_pad_cons by exact He.
      right. now apply IH.
  - rewrite Base64Facts.remove_padding_cons by exact Hd.
    destruct H as [-> | H]; [now left | right; auto].
Qed.

Lemma decode_occurs c :
  Base64.dec c = None ->
  forall s, occurs c s -> Base64.decode s = None.
Proof.
  intros Hc. fix IH 1.
  intros [ | c1 [ | c2 [ | c3 [ | c4 s]]]] H; cbn [occurs] in H.
  - destruct H.
  - reflexivity.
  - cbn [Base64.decode].
    destruct H as [<- | [<- | []]]; rewrite Hc;
      [reflexivity | destruct (Base64.dec c1); reflexivity].
  - cbn [Base64.decode].
    destruct H as [<- | [<- | [<- | []]]]; rewrite Hc;
      [reflexivity | destruct (Base64.dec c1); reflexivity | ].
    destruct (Base64.dec c1), (Base64.dec c2); reflexivity.
  - cbn [Base64.decode].
    destruct H as [<- | [<- | [<- | [<- | H]]]]; rewrite ?Hc.
    + reflexivity.
    + destruct (Base64.dec c1); reflexivity.
    + destruct (Base64.dec c1), (Base64.dec c2); reflexivity.
    + destruct (Base64.dec c1), (Base64.dec c2), (Base64.dec c3); reflexivity.
    + rewrite (IH s H).
      destruct (Base64.dec c1), (Base64.dec c2), (Base64.dec c3),
        (Base64.dec c4); reflexivity.
Qed.

(** X26. What [handleLoadSeed] accepts and rejects.  It checks the
    encoding, not the content: the Base64 text of any JSON value other than
    [null] is loaded, and the four setters get whatever the value has under
    the four keys, [undefined] included.  A seed in which some character is
    neither of the Base64 alphabet, nor white space, nor [=] raises the
    alert. *)
Theorem handleLoadSeed_checks :
  (forall v,
      JSON.plain_value v = true -> v <> JSON.Null ->
      handleLoadSeed (Base64.btoa (JSON.stringify v))
      = Loaded (JSON.get "selectedGatesA" v) (JSON.get "selectedGatesB" v)
               (JSON.get "circuitBEnabled" v)
               (JSON.get "interCircuitEntanglementEnabled" v))
  /\ (forall seed c,
        occurs c seed ->
        Base64.dec c = None -> Base64.is_whitespace c = false ->
        Ascii.eqb c "=" = false ->
        handleLoadSeed seed = InvalidSeed).
Proof.
  split.
  - intros v Hplain Hnull. unfold handleLoadSeed.
    assert (Hne : Base64.btoa (JSON.stringify v) <> EmptyString).
    { apply SeedFacts.btoa_nonempty.
      pose proof (JSONFacts.stringify_nonempty v) as H.
      destruct (JSON.stringify v); [cbn in H; lia | discriminate]. }
    apply String.eqb_neq in Hne. rewrite Hne.
    rewrite Base64Facts.atob_btoa, JSONFacts.parse_stringify by exact Hplain.
    destruct v; [congruence | reflexivity ..].
  - intros seed c Hocc Hdec Hws Hpad. unfold handleLoadSeed.
    destruct (String.eqb seed EmptyString) eqn:E.
    { apply String.eqb_eq in E. subst seed. destruct Hocc. }
    assert (Hatob : Base64.atob seed = None).
    { unfold Base64.atob.
      pose proof (occurs_remove_whitespace c seed Hws Hocc) as H1.
      destruct (String.length (Base64.remove_whitespace seed) mod 4 =? 0)%nat.
      - pose proof (occurs_remove_padding c _ Hpad H1) as H2.
        rewrite (decode_occurs c Hdec _ H2).
        now destruct (_ =? 1)%nat.
      - rewrite (decode_occurs c Hdec _ H1).
        now destruct (_ =? 1)%nat. }
    now rewrite Hatob.
Qed.

Lemma handleLoadSeed_checks_witness :
  JSON.plain_value (JSON.Obj []) = true
  /\ JSON.Obj [] <> JSON.Null
  /\ handleLoadSeed (Base64.btoa (JSON.stringify (JSON.Obj [])))
     = Loaded None None None None
  /\ occurs "!" "e30!"
  /\ handleLoadSeed "e30!" = InvalidSeed.
Proof.
  assert (H1 : JSON.plain_value (JSON.Obj []) = true) by reflexivity.
  assert (H2 : JSON.Obj [] <> JSON.Null) by discriminate.
  assert (H3 : occurs "!" "e30!") by (cbn; tauto).
  split; [exact H1 | ]. split; [exact H2 | ].
  split; [exact (proj1 handleLoadSeed_checks (JSON.Obj []) H1 H2) | ].
  split; [exact H3 | ].
  exact (proj2 handleLoadSeed_checks "e30!" "!"%char H3 eq_refl eq_refl
           eq_refl).
Defined.

End SeedExtra.

Module HandlersExtra.
Import Seed Handlers.

Lemma flip_flip (i : nat) (l : list bool) : flip i (flip i l) = l.
Proof.
  unfold flip. apply list_eq. intros k.
  rewrite !list_lookup_imap. destruct (l !! k) as [b | ]; [ | reflexivity].
  cbn. destruct (k =? i)%nat; [now rewrite negb_involutive | reflexivity].
Qed.

Lemma flip_out_of_range (i : nat) (l : list bool) :
  (length l <= i)%nat -> flip i l = l.
Proof.
  intros Hlen. unfold flip. apply list_eq. intros k.
  rewrite list_lookup_imap. destruct (l !! k) as [b | ] eqn:E; [ | reflexivity].
  cbn. apply lookup_lt_Some in E.
  destruct (Nat.eqb_spec k i); [lia | reflexivity].
Qed.

Lemma flip_lookup (i k : nat) (l : list bool) :
  flip i l !! k
  = (fun b => if (k =? i)%nat then negb b else b) <$> l !! k.
Proof. unfold flip. now rewrite list_lookup_imap. Qed.

(** Case analysis on the key: one case per property of a selection, and
    one for any other string. *)
Ltac by_key k :=
  unfold gates_of, with_gates;
  repeat match goal with
         | |- context [String.eqb k ?s] =>
             let E := fresh "E" in
             destruct (String.eqb k s) eqn:E;
             [apply String.eqb_eq in E; subst k; cbn | ]
         end.

Lemma gates_of_with k flags prev l0 :
  gates_of k prev = Some l0 ->
  gates_of k (with_gates k flags prev) = Some flags.
Proof. revert l0. by_key k; intros l0 H; solve [reflexivity | discriminate H]. Qed.

Lemma with_with k flags flags' prev :
  with_gates k flags (with_gates k flags' prev) = with_gates k flags prev.
Proof. by_key k; reflexivity. Qed.

Lemma with_same k prev l :
  gates_of k prev = Some l -> with_gates k l prev = prev.
Proof.
  destruct prev. revert l.
  by_key k; intros l H; solve [now injection H as <- | discriminate H].
Qed.

Lemma toggle_twice k i prev l :
  gates_of k prev = Some l ->
  with_gates k (flip i (flip i l)) (with_gates k (flip i l) prev) = prev.
Proof.
  intros H. rewrite with_with, flip_flip. now apply with_same.
Qed.

(** X27. Toggling a gate twice restores the configuration; toggling at an
    index past the end of the flag array changes nothing; a key that a
    selection does not have makes the updater throw; the toggled array has
    the flag at [qubitIdx] negated and every other flag as before, and the
    selection of the other circuit is not touched.  [toggleSwapGate] and
    [toggleCCNOTGate] are [toggleGate] for the keys [swap] and [ccnot]. *)
Theorem toggleGate_spec (c : circuit) (gateType : string) (qubitIdx : nat)
    (cfg : GateConfiguration) :
  (gates_of gateType (selection c cfg) = None ->
   toggleGate c gateType qubitIdx cfg = None)
  /\ (forall flags,
        gates_of gateType (selection c cfg) = Some flags ->
        exists cfg',
          toggleGate c gateType qubitIdx cfg = Some cfg'
          /\ toggleGate c gateType qubitIdx cfg' = Some cfg
          /\ gates_of gateType (selection c cfg') = Some (flip qubitIdx flags)
          /\ (forall k,
                flip qubitIdx flags !! k
                = (fun b => if (k =? qubitIdx)%nat then negb b else b)
                    <$> flags !! k)
          /\ ((length flags <= qubitIdx)%nat -> cfg' = cfg)
          /\ selection (match c with A => B | B => A end) cfg'
             = selection (match c with A => B | B => A end) cfg
          /\ circuitBEnabled cfg' = circuitBEnabled cfg
          /\ interCircuitEntanglementEnabled cfg'
             = interCircuitEntanglementEnabled cfg)
  /\ toggleSwapGate c qubitIdx cfg = toggleGate c "swap" qubitIdx cfg
  /\ toggleCCNOTGate c qubitIdx cfg = toggleGate c "ccnot" qubitIdx cfg.
Proof.
  split; [ | split; [ | split]].
  - intros H. destruct c; unfold toggleGate, update; cbn [selection] in H;
      now rewrite H.
  - intros flags H.
    destruct cfg as [gA gB en ent].
    destruct c; cbn [selection selectedGatesA selectedGatesB] in H;
      unfold toggleGate, update;
      cbn [selectedGatesA selectedGatesB circuitBEnabled
           interCircuitEntanglementEnabled selection];
      rewrite H; cbn [mbind option_bind]; eexists;
      (split; [reflexivity | ]);
      cbn [selectedGatesA selectedGatesB circuitBEnabled
           interCircuitEntanglementEnabled selection];
      rewrite (gates_of_with _ _ _ _ H); cbn [mbind option_bind];
      rewrite (toggle_twice _ _ _ _ H);
      (split; [reflexivity | ]); (split; [reflexivity | ]);
      (split; [intros k; apply flip_lookup | ]);
      (split; [ | repeat split]);
      intros Hlen; rewrite (flip_out_of_range _ _ Hlen);
      now rewrite (with_same _ _ _ H).
  - destruct c; reflexivity.
  - destruct c; reflexivity.
Qed.

Lemma toggleGate_spec_witness :
  gates_of "pauliX" (selection A Scenario.mixed)
  = Some (SelectedGates.pauliX Scenario.mixedA)
  /\ exists cfg',
       toggleGate A "pauliX" 7 Scenario.mixed = Some cfg'
       /\ toggleGate A "pauliX" 7 cfg' = Some Scenario.mixed.
Proof.
  split; [reflexivity | ].
  destruct (proj1 (proj2 (toggleGate_spec A "pauliX" 7 Scenario.mixed))
              (SelectedGates.pauliX Scenario.mixedA) eq_refl)
    as (cfg' & H1 & H2 & _).
  exists cfg'. now split.
Defined.

(** *** [handleReconstruction] *)

Lemma length_convertToCircuitType qc :
  length (Types.qubits (Wormhole.convertToCircuitType qc))
  = length (QuantumCircuit.qubits qc).
Proof. unfold Wormhole.convertToCircuitType. cbn. apply length_imap. Qed.

Lemma reconstruct_average system result :
  Wormhole.reconstructWithWormholeGeometry system = Some result ->
  Types.average_tunneling result = Types.system_average_tunneling system.
Proof.
  unfold Wormhole.reconstructWithWormholeGeometry.
  destruct (mapM _ _) as [recs | ]; [ | discriminate].
  cbn [mbind option_bind]. now intros [= <-].
Qed.

(** X30. [handleReconstruction] on circuits as the component holds them
    (made by [new QuantumCircuit(5, ...)] and changed only through their
    methods) always hands a result to [setReconstructionData]: an
    efficiency in [0, 1], an average tunneling in (0.99, 1] and five
    reconstructed qubits per circuit, whether or not the second circuit
    exists or is enabled.  On a first circuit of fewer than five qubits and
    no second circuit, the wormhole service throws. *)
Theorem handleReconstruction_returns
    (n : nat) (idA : string) (gA : option SelectedGates.t)
    (quantumCircuitA : QuantumCircuit.t)
    (quantumCircuitB : option QuantumCircuit.t) (circuitBEnabled : bool) :
  QuantumCircuit.reachable (QuantumCircuit.new n idA gA) quantumCircuitA ->
  (forall b, quantumCircuitB = Some b ->
     exists idB gB,
       QuantumCircuit.reachable (QuantumCircuit.new 5 idB gB) b) ->
  (n = 5%nat ->
   exists results,
     handleReconstruction (Some quantumCircuitA) quantumCircuitB
       circuitBEnabled = Reconstructed results
     /\ 0 <= Types.wormhole_efficiency results <= 1
     /\ 0.99 < Types.average_tunneling results <= 1
     /\ length (Types.r_qubits (Types.circuit_A results)) = 5%nat
     /\ length (Types.r_qubits (Types.circuit_B results)) = 5%nat)
  /\ ((n < 5)%nat ->
      handleReconstruction (Some quantumCircuitA) None circuitBEnabled
      = Threw).
Proof.
  intros HA HB.
  destruct (CircuitFacts.reachable_new _ _ _ _ HA) as (_ & _ & _ & HlenA & _).
  split.
  - intros ->. unfold handleReconstruction.
    set (typedB := match (if circuitBEnabled then quantumCircuitB else None)
                   with
                   | Some b => Wormhole.convertToCircuitType b
                   | None => placeholderB
                   end).
    assert (HlenB : length (Types.qubits typedB) = 5%nat).
    { subst typedB.
      destruct circuitBEnabled; [ | reflexivity].
      destruct quantumCircuitB as [b | ]; [ | reflexivity].
      destruct (HB b eq_refl) as (idB & gB & Hb).
      rewrite length_convertToCircuitType.
      apply (CircuitFacts.reachable_new _ _ _ _ Hb). }
    destruct (WormholeFacts.createWormholeFragmentationSystem_ok
                (Wormhole.convertToCircuitType quantumCircuitA) typedB)
      as (system & Hsys & _ & Hall);
      [now rewrite length_convertToCircuitType | exact HlenB | ].
    destruct (WormholeFacts.reconstruct_ok system Hall)
      as (results & Hres & Heff & LA & LB & _).
    rewrite Hsys, Hres. exists results.
    split; [reflexivity | ]. split; [exact Heff | ].
    split; [ | now split].
    rewrite (reconstruct_average _ _ Hres).
    destruct (WormholeExtra.fragments_tunneling _ _ _ Hsys) as [Hn Ht].
    destruct (WormholeExtra.createWormholeFragmentationSystem_inv _ _ _ Hsys)
      as (_ & _ & ->).
    now apply WormholeExtra.average_tunneling_bounds.
  - intros Hn. unfold handleReconstruction.
    replace (if circuitBEnabled then None else None)
      with (@None QuantumCircuit.t) by now destruct circuitBEnabled.
    destruct (Wormhole.createWormholeFragmentationSystem
                (Wormhole.convertToCircuitType quantumCircuitA) placeholderB)
      as [system | ] eqn:Hsys; [ | reflexivity].
    assert (Hlen : (length (Types.qubits
                              (Wormhole.convertToCircuitType quantumCircuitA))
                    + length (Types.qubits placeholderB) < 10)%nat).
    { rewrite length_convertToCircuitType, HlenA.
      change (length (Types.qubits placeholderB)) with 5%nat. lia. }
    destruct (WormholeExtra.fragment_512 _ _ _ Hsys) as (st & Hin & Hb & Hq).
    rewrite (WormholeExtra.reconstruct_fails_at system st Hin Hb)
      by (rewrite Hq; exact Hlen).
    reflexivity.
Qed.

Lemma handleReconstruction_returns_witness :
  QuantumCircuit.reachable (QuantumCircuit.new 5 "A" None)
    (QuantumCircuit.evolve 0.1 (QuantumCircuit.new 5 "A" None))
  /\ exists results,
       handleReconstruction
         (Some (QuantumCircuit.evolve 0.1 (QuantumCircuit.new 5 "A" None)))
         None false
       = Reconstructed results
       /\ 0 <= Types.wormhole_efficiency results <= 1.
Proof.
  assert (H : QuantumCircuit.reachable (QuantumCircuit.new 5 "A" None)
                (QuantumCircuit.evolve 0.1 (QuantumCircuit.new 5 "A" None)))
    by exact (rtc_once _ _
                (QuantumCircuit.step_evolve (QuantumCircuit.new 5 "A" None) 0.1)).
  split; [exact H | ].
  destruct (proj1 (handleReconstruction_returns 5 "A" None _ None false H
                     ltac:(intros b Hb; discriminate Hb)) eq_refl)
    as (results & Hr & He & _).
  exists results. now split.
Defined.

End HandlersExtra.

Module AnimationExtra.
Import Animation.

Lemma phase_sums (qs : list Qubit.t) :
  forall i X Y k,
    0 <= k -> X * X + Y * Y <= k * k ->
    let r := forEach_from (fun q (_ : nat) '(sumX, sumY) =>
                             (sumX + cos (Qubit.phase q),
                              sumY + sin (Qubit.phase q)))
                          i qs (X, Y) in
    fst r * fst r + snd r * snd r
    <= (k + INR (length qs)) * (k + INR (length qs)).
Proof.
  induction qs as [ | q qs IH]; intros i X Y k Hk H; cbn zeta.
  - cbn. rewrite Rplus_0_r. exact H.
  - cbn [forEach_from length]. rewrite S_INR.
    set (c := cos (Qubit.phase q)). set (s := sin (Qubit.phase q)).
    assert (Hcs : s * s + c * c = 1)
      by (pose proof (sin2_cos2 (Qubit.phase q)) as E; unfold Rsqr in E;
          exact E).
    assert (Hdot : X * c + Y * s <= k).
    { assert (Hid : (X * c + Y * s) * (X * c + Y * s)
                    + (X * s - Y * c) * (X * s - Y * c)
                    = (X * X + Y * Y) * (s * s + c * c)) by ring.
      rewrite Hcs in Hid.
      pose proof (Rle_0_sqr (X * s - Y * c)) as Hpos. unfold Rsqr in Hpos.
      set (a := X * c + Y * s) in *.
      destruct (Rle_lt_dec a k) as [Hle | Hlt]; [exact Hle | exfalso].
      assert (k * k < a * a) by nra. lra. }
    specialize (IH (S i) (X + c) (Y + s) (k + 1) ltac:(lra) ltac:(nra)).
    cbn zeta in IH.
    replace (k + (INR (length qs) + 1)) with (k + 1 + INR (length qs)) by lra.
    exact IH.
Qed.

Lemma phase_sums_equal (theta : R) (qs : list Qubit.t) :
  Forall (fun q => Qubit.phase q = theta) qs ->
  forall i X Y,
    forEach_from (fun q (_ : nat) '(sumX, sumY) =>
                    (sumX + cos (Qubit.phase q), sumY + sin (Qubit.phase q)))
                 i qs (X, Y)
    = (X + INR (length qs) * cos theta, Y + INR (length qs) * sin theta).
Proof.
  induction 1 as [ | q qs Hq _ IH]; intros i X Y.
  - cbn. f_equal; lra.
  - cbn [forEach_from length]. rewrite IH, S_INR, Hq. f_equal; lra.
Qed.

Lemma mean_lower {A} (f : A -> R) (lo : R) (l : list A) :
  l <> [] -> Forall (fun a => lo <= f a) l ->
  lo <= fold_left (fun sum a => sum + f a) l 0 / INR (length l).
Proof.
  intros Hne Hall.
  assert (H : forall acc,
            acc + lo * INR (length l)
            <= fold_left (fun sum a => sum + f a) l acc).
  { clear Hne. induction Hall as [ | a l Ha _ IH]; intros acc.
    - cbn. lra.
    - cbn [fold_left length]. rewrite S_INR.
      eapply Rle_trans; [ | apply IH]. lra. }
  specialize (H 0).
  assert (Hn : 0 < INR (length l))
    by (apply lt_0_INR; destruct l; [congruence | cbn; lia]).
  apply (Rmult_le_reg_r (INR (length l))); [exact Hn | ].
  unfold Rdiv. rewrite Rmult_assoc, Rinv_l by lra. lra.
Qed.

(** X28. The metrics of one frame of the animation.  The phase vector, the
    mean of [(cos phase, sin phase)] over the qubits shown, has length at
    most 1, and is the unit vector [(cos theta, sin theta)] when all phases
    equal [theta]; the streamline coherence, the mean of the coherence
    lengths, is at least any lower bound of them.  Both need at least one
    qubit or streamline: the code divides by their number. *)
Theorem animate_metrics :
  (forall allQubits,
      allQubits <> [] ->
      fst (phaseVector allQubits) ^ 2 + snd (phaseVector allQubits) ^ 2 <= 1)
  /\ (forall allQubits theta,
        allQubits <> [] ->
        Forall (fun q => Qubit.phase q = theta) allQubits ->
        phaseVector allQubits = (cos theta, sin theta))
  /\ (forall framework lo,
        QuantumLaminarFlow.streamlines framework <> [] ->
        Forall (fun s => lo <= QuantumStreamline.coherenceLength s)
               (QuantumLaminarFlow.streamlines framework) ->
        lo <= streamlineCoherence framework).
Proof.
  split; [ | split].
  - intros qs Hne. unfold phaseVector, forEach.
    pose proof (phase_sums qs 0 0 0 0 ltac:(lra) ltac:(lra)) as H.
    cbn zeta in H.
    destruct (forEach_from _ 0 qs (0, 0)) as [sumX sumY].
    cbn [fst snd] in *. rewrite Rplus_0_l in H.
    assert (Hn : 0 < INR (length qs))
      by (apply lt_0_INR; destruct qs; [congruence | cbn; lia]).
    set (m := INR (length qs)) in *.
    replace ((sumX / m) ^ 2 + (sumY / m) ^ 2)
      with ((sumX * sumX + sumY * sumY) / (m * m)) by (field; lra).
    apply (Rmult_le_reg_r (m * m)); [nra | ].
    unfold Rdiv. rewrite Rmult_assoc, Rinv_l by nra. lra.
  - intros qs theta Hne Hall. unfold phaseVector, forEach.
    rewrite (phase_sums_equal theta qs Hall).
    assert (Hn : 0 < INR (length qs))
      by (apply lt_0_INR; destruct qs; [congruence | cbn; lia]).
    f_equal; field; lra.
  - intros framework lo Hne Hall. unfold streamlineCoherence.
    now apply mean_lower.
Qed.

Lemma animate_metrics_witness :
  allQubits (QuantumCircuit.new 5 "A" None) None false <> []
  /\ phaseVector (allQubits (QuantumCircuit.new 5 "A" None) None false)
     = (cos 0, sin 0).
Proof.
  assert (H : allQubits (QuantumCircuit.new 5 "A" None) None false <> [])
    by discriminate.
  split; [exact H | ].
  apply (proj1 (proj2 animate_metrics) _ 0 H).
  cbn. repeat constructor.
Defined.

Lemma length_pushMetric {M} (prev : list M) (m : M) :
  length (pushMetric prev m) = S (Nat.min (length prev) 100).
Proof.
  unfold pushMetric, slice_last.
  rewrite length_app, length_drop. cbn [length]. lia.
Qed.

(** X29. [metricsHistory] after a push: the new metric is last, before it
    come the last 100 entries of the old history in their order, so the
    history has [min(length, 100) + 1] entries, never more than 101; after
    [k] frames from an empty history it has [min(k, 101)] entries. *)
Theorem pushMetric_bounded {M} (prev : list M) (newMetric : M) :
  length (pushMetric prev newMetric) = S (Nat.min (length prev) 100)
  /\ (length (pushMetric prev newMetric) <= 101)%nat
  /\ list.last (pushMetric prev newMetric) = Some newMetric
  /\ (exists dropped kept,
        prev = (dropped ++ kept)%list
        /\ pushMetric prev newMetric = (kept ++ [newMetric])%list
        /\ length dropped = (length prev - 100)%nat)
  /\ forall k,
       length (Nat.iter k (fun h => pushMetric h newMetric) [])
       = Nat.min k 101.
Proof.
  split; [apply length_pushMetric | ].
  split; [rewrite length_pushMetric; lia | ].
  split; [apply last_snoc | ].
  split.
  - exists (take (length prev - 100) prev), (slice_last 100 prev).
    unfold slice_last. rewrite take_drop, length_take.
    repeat split. lia.
  - induction k as [ | k IH]; [reflexivity | ].
    change (length (pushMetric
                      (Nat.iter k (fun h => pushMetric h newMetric) [])
                      newMetric) = Nat.min (S k) 101).
    rewrite length_pushMetric, IH. lia.
Qed.

End AnimationExtra.
